(** * AutomatedCameraCapture: the capture state machine of [main.py]

    A shallow embedding of [UltraRobustCameraCapture.capture] and of
    [UltraRobustCameraCapture._generate_filename_safe].

    The camera library, the file system and the clock are the environment:
    every call the code makes into them ([cv2.VideoCapture], [cap.read],
    [cap.release], [cv2.imwrite], [os.path.exists], ...) is answered by an
    oracle, and every such call is recorded in a trace.  The Python control
    flow (the [for] loops with [break] and [continue], the nested
    [try]/[except]/[finally] blocks, the early [return]) is written in a small
    state-and-exception monad.

    The console belongs to the environment as well: the two [print] calls
    of [_log_event] are answered by an oracle and may raise, as [print]
    does on a stream that cannot encode a character of the line or on a
    closed pipe.

    Exceptions range over the subclasses of Python's [Exception]; the
    asynchronous signals that derive from [BaseException] only
    ([KeyboardInterrupt], [SystemExit]) are outside the model. *)

From Stdlib Require Import Ascii String.
From Stdlib Require Import List Bool Arith Lia.
Import ListNotations.
Local Open Scope list_scope.

Set Implicit Arguments.

(** ** Python strings *)

Definition pystr := list ascii.

Definition str (s : string) : pystr := list_ascii_of_string s.

Fixpoint str_eqb (a b : pystr) : bool :=
  match a, b with
  | [], [] => true
  | x :: a', y :: b' => Ascii.eqb x y && str_eqb a' b'
  | _, _ => false
  end.

(** ** Filename generation *)

Module Filename.

(** The wall clock as [time.strftime] and [datetime.datetime.now()] see it.
  [microsecond] is [None] when the [datetime] lookup raises. *)
Record clock := mkClock {
year : nat; month : nat; day : nat;
hour : nat; minute : nat; second : nat;
microsecond : option nat
}.

Definition digit (d : nat) : ascii := ascii_of_nat (48 + d).

Fixpoint decimal_aux (fuel n : nat) (acc : pystr) : pystr :=
match fuel with
| 0 => acc
| S fuel' =>
    let acc' := digit (n mod 10) :: acc in
    if n / 10 =? 0 then acc' else decimal_aux fuel' (n / 10) acc'
end.

(** [str(n)] for a non-negative integer. *)
Definition decimal (n : nat) : pystr := decimal_aux (S n) n [].

(** The format [0wd]: decimal, zero-padded on the left to width [w]. *)
Definition zero_padded (w n : nat) : pystr :=
let d := decimal n in repeat "0"%char (w - length d) ++ d.

(** [time.strftime("%Y%m%d_%H%M%S")] *)
Definition strftime (c : clock) : pystr :=
zero_padded 4 (year c) ++ zero_padded 2 (month c) ++ zero_padded 2 (day c)
++ str "_"
++ zero_padded 2 (hour c) ++ zero_padded 2 (minute c) ++ zero_padded 2 (second c).

(** [s[:n]] *)
Definition slice_to (n : nat) (s : pystr) : pystr := firstn n s.

(** [sep.join(parts)] *)
Fixpoint join (sep : pystr) (parts : list pystr) : pystr :=
match parts with
| [] => []
| [p] => p
| p :: rest => p ++ sep ++ join sep rest
end.

(** [s.replace(c, '_')] for a one-character [c]. *)
Definition replace_char (c : ascii) (s : pystr) : pystr :=
map (fun x => if Ascii.eqb x c then "_"%char else x) s.

(** The thirteen characters of the literal [invalid_chars] of the source, in
  its order: less-than, greater-than, colon, double quote, slash, backslash,
  bar, question mark, star, newline, carriage return, tab and NUL. *)
Definition invalid_chars : pystr :=
[ "<"%char; ">"%char; ":"%char; ascii_of_nat 34; "/"%char; ascii_of_nat 92;
  "|"%char; "?"%char; "*"%char;
  ascii_of_nat 10; ascii_of_nat 13; ascii_of_nat 9; ascii_of_nat 0 ].

(** [p.rfind(c)]: the index of the last occurrence, or [None] for Python's -1. *)
Fixpoint rfind (c : ascii) (p : pystr) : option nat :=
match p with
| [] => None
| x :: p' =>
    match rfind c p' with
    | Some k => Some (S k)
    | None => if Ascii.eqb x c then Some 0 else None
    end
end.

(** [os.path.splitext] ([genericpath._splitext]) with [sep = '/'], no
  [altsep] and [extsep = '.']: the extension starts at the last dot, unless
  that dot is not after the last separator or only dots precede it. *)
Definition splitext (p : pystr) : pystr * pystr :=
match rfind "."%char p with
| None => (p, [])
| Some dotIndex =>
    let filenameIndex :=
      match rfind "/"%char p with Some sepIndex => S sepIndex | None => 0 end in
    if filenameIndex <=? dotIndex then
      if forallb (fun x => Ascii.eqb x "."%char)
                 (firstn (dotIndex - filenameIndex) (skipn filenameIndex p))
      then (p, [])
      else (firstn dotIndex p, skipn dotIndex p)
    else (p, [])
end.

Definition truthy (s : pystr) : bool := negb (length s =? 0).

Section Generate.

(** The attributes [self.hostname], [self.mac] and [self.username]. *)
Variables hostname mac username : pystr.

Definition timestamp (c : clock) : pystr :=
strftime c ++
match microsecond c with
| Some us => str "_" ++ zero_padded 3 (us / 1000)
| None => str "_000"
end.

Definition components (c : clock) : list pystr :=
(if truthy hostname && negb (str_eqb hostname (str "unknown_host"))
 then [slice_to 30 hostname] else [])
++ (if truthy mac && negb (str_eqb mac (str "unknown-mac"))
  then [slice_to 20 mac] else [])
++ (if truthy username && negb (str_eqb username (str "unknown_user"))
  then [slice_to 20 username] else [])
++ [timestamp c].

Definition sanitize (filename : pystr) : pystr :=
fold_left (fun f c => replace_char c f) invalid_chars filename.

(** The body of the [try] block.  With string attributes none of its steps
raises, so the [except] fallback ([capture_<epoch>.jpg]) is not taken. *)
Definition _generate_filename_safe (c : clock) : pystr :=
let filename := join (str "_") (components c) ++ str ".jpg" in
let filename := sanitize filename in
if 200 <? length filename then
let (name, ext) := splitext filename in
slice_to (200 - length ext) name ++ ext
else filename.

End Generate.

(** A control character: code below 32, or DEL. *)
Definition is_control (c : ascii) : bool :=
let n := nat_of_ascii c in (n <? 32) || (n =? 127).

Definition is_path_separator (c : ascii) : bool :=
Ascii.eqb c "/"%char || Ascii.eqb c (ascii_of_nat 92).

Fixpoint ends_with (suffix s : pystr) : bool :=
str_eqb suffix s ||
match s with
| [] => false
| _ :: s' => ends_with suffix s'
end.

(** What the thirteen replacements do to one character. *)
Definition clean (x : ascii) : ascii :=
fold_left (fun y c => if Ascii.eqb y c then "_"%char else y) invalid_chars x.

(** A character that is not a control character. *)
Definition printable (x : ascii) : Prop := is_control x = false.

End Filename.

(** ** Exceptions, events and the environment *)

(** The classes the handlers of [capture] tell apart: [cv2.error],
    [MemoryError], and every other subclass of [Exception] (a
    [PermissionError] of the write call, for one). *)
Inductive exn := Cv2Error | MemoryError | OtherException.

(** What a call into the environment does: return a value or raise. *)
Inductive answer (A : Type) :=
| Returns (a : A)
| Raises (e : exn).
Arguments Raises {A} e.

Inductive level := DEBUG | INFO | WARNING | ERROR | SUCCESS.

(** The messages [capture] hands to [_log_event], one constructor per
    format string. *)
Inductive message :=
| StartingCapture
| OpenCVNotAvailable
| InstallHint
| TryingCamera (cam_id : nat)
| CouldNotBeOpened (cam_id : nat)
| TestFailed (cam_id : nat)
| CaptureFailed (cam_id : nat)
| Captured (filename : pystr) (file_size : nat)
| FileDisappeared
| FileTooSmall (file_size : nat)
| FileNotCreated
| ImwriteFailed
| OpenCVWriteError
| FileSaveError
| OpenCVError (cam_id : nat)
| MemoryErrorMsg (cam_id : nat)
| UnexpectedError (cam_id : nat)
| NoCamerasAvailable (cameras_tried : nat).

(** One entry per call that leaves [capture].  [VideoCapture cam_id r]
    records the open attempt on index [cam_id]: [r] is [None] when the
    constructor raised (the variable [cap] stays [None]) and [Some opened]
    when it returned a handle, [opened] telling whether the device was
    acquired.  [Release cam_id freed] records a call of [cap.release()] on
    the handle of [cam_id]; [freed] holds when the call returned normally. *)
Inductive event :=
| Log (lvl : level) (msg : message)
| VideoCapture (cam_id : nat) (r : option bool)
| IsOpened (cam_id : nat)
| SetBufferSize (cam_id : nat)
| Read (cam_id : nat)
| Release (cam_id : nat) (freed : bool)
| Sleep (ms : nat)
| Makedirs (cam_id : nat)
| Imwrite (cam_id : nat)
| Exists (cam_id : nat)
| Getsize (cam_id : nat)
| DestroyAllWindows.

(** A frame as the checks of [capture] see it: [None], or an array with
    its [size]. *)
Definition frame := option nat.

(** How the environment answers during the cycle of one device index.
    [read k] and [release k] answer the [k]-th call of [cap.read()] and of
    [cap.release()] on the handle of this cycle, counted from 0. *)
Record camera := mkCamera {
  video_capture : answer bool;
  is_opened_raises : option exn;
  set_raises : option exn;
  read : nat -> answer (bool * frame);
  release : nat -> option exn;
  clock_now : Filename.clock;
  makedirs_raises : option exn;
  imwrite : answer bool;
  exists_after_write : bool;
  getsize : answer nat;
  destroy_raises : option exn;
  exists_finally : bool
}.

(** The environment of a run: one behaviour per device index. *)
Definition world := nat -> camera.

(** The attributes of [self] that [capture] reads. *)
Record capture_object := mkSelf {
  modules_available_cv2 : bool;
  cv2_is_not_None : bool;
  hostname : pystr;
  mac : pystr;
  username : pystr
}.

(** ** The monad: a trace, the local variable [cap] and the call counters *)

Record state := mkState {
  trace : list event;
  cap : option nat;
  reads : nat;
  releases : nat
}.

Definition initial : state := mkState [] None 0 0.

Definition M (A : Type) := state -> answer A * state.

Definition ret {A} (a : A) : M A := fun s => (Returns a, s).

Definition raise {A} (e : exn) : M A := fun s => (Raises e, s).

Definition bind {A B} (m : M A) (k : A -> M B) : M B :=
  fun s =>
    match m s with
    | (Returns a, s') => k a s'
    | (Raises e, s') => (Raises e, s')
    end.

Declare Scope py_scope.
Delimit Scope py_scope with py.
Notation "x <- m ;; k" := (bind m (fun x => k))
  (at level 61, m at next level, right associativity) : py_scope.
Notation "m ;; k" := (bind m (fun _ => k))
  (at level 61, right associativity) : py_scope.
Local Open Scope py_scope.

(** [try: m except <all>: h] *)
Definition try_except {A} (m : M A) (h : exn -> M A) : M A :=
  fun s =>
    match m s with
    | (Returns a, s') => (Returns a, s')
    | (Raises e, s') => h e s'
    end.

(** [try: m finally: f] where [m] ends by falling through, by [continue]
    or by [return]: [f] runs in every case, and an exception of [f]
    replaces the outcome of [m]. *)
Definition try_finally {A} (m : M A) (f : M unit) : M A :=
  fun s =>
    let (r, s') := m s in
    match f s' with
    | (Returns _, s'') => (r, s'')
    | (Raises e, s'') => (Raises e, s'')
    end.

Definition emit (ev : event) : M unit :=
  fun s => (Returns tt, mkState (trace s ++ [ev]) (cap s) (reads s) (releases s)).

(** A call that returns nothing and may raise. *)
Definition call (ev : event) (r : option exn) : M unit :=
  emit ev ;; match r with Some e => raise e | None => ret tt end.

(** A call that returns a value or raises. *)
Definition ask {A} (ev : event) (r : answer A) : M A :=
  emit ev ;; match r with Returns a => ret a | Raises e => raise e end.

(** ** The console

    [_log_event] builds the line, appends it to the log file under a
    handler of its own, and prints it; when anything in that [try] block
    raised, its bare [except] prints the line once more, in another form,
    and what this second [print] raises leaves [_log_event].  The two
    [print] calls are calls into the environment: a stream that cannot
    encode a character of the line, or a closed pipe, makes them raise. *)
Class console := mkConsole {
  (* [print(f"{level}: {message}")], the last statement of the [try] block *)
  print_raises : level -> message -> option exn;
  (* [print(f"LOG: {message}")] of the bare [except] *)
  fallback_raises : message -> option exn
}.

(** The console takes the line: it gets through, by the first [print] or
    by the second. *)
Class takes_line (con : console) (lvl : level) (msg : message) : Prop :=
  one_print_returns : print_raises lvl msg = None \/ fallback_raises msg = None.

(** A console on which every line gets through. *)
Class takes_every_line (con : console) : Prop :=
  line_taken : forall lvl msg, takes_line con lvl msg.

#[global] Existing Instance line_taken.

(** The console on which no [print] raises. *)
Definition plain_console : console :=
  mkConsole (fun _ _ => None) (fun _ => None).

#[global] Instance plain_console_takes_every_line : takes_every_line plain_console.
Proof. intros lvl msg. left. reflexivity. Qed.

Section Log.

Context {con : console}.

(** [self._log_event(message, level)].  The entry [Log lvl msg] of the
    trace records the call, whether or not a line reaches the console. *)
Definition _log_event (msg : message) (lvl : level) : M unit :=
  emit (Log lvl msg) ;;
  try_except
    (match print_raises lvl msg with Some e => raise e | None => ret tt end)
    (fun _ => match fallback_raises msg with Some e => raise e | None => ret tt end).

(** [e] is what the console raised from the second [print] of a line
    whose first [print] it had refused too. *)
Definition refused_line (e : exn) : Prop :=
  exists lvl msg e0, print_raises lvl msg = Some e0 /\ fallback_raises msg = Some e.

End Log.

(** [time.sleep], in milliseconds. *)
Definition sleep (ms : nat) : M unit := emit (Sleep ms).

(** How one pass of the [for cam_id in range(max_cameras)] body ends:
    with the next iteration ([continue], or the end of the body), or with
    [return b]. *)
Inductive completion := Continue | Return (b : bool).

(** ** [UltraRobustCameraCapture.capture] *)

Section Capture.

Context {con : console}.
Variable self : capture_object.

Section Cycle.

Variable c : camera.
Variable cam_id : nat.

(** [cap = self.cv2.VideoCapture(cam_id)]: the assignment happens only
    when the constructor returns; the counters then start afresh for
    the new handle. *)
Definition cv2_VideoCapture : M unit :=
  fun s =>
    match video_capture c with
    | Raises e =>
        (Raises e,
         mkState (trace s ++ [VideoCapture cam_id None]) (cap s) (reads s) (releases s))
    | Returns opened =>
        (Returns tt,
         mkState (trace s ++ [VideoCapture cam_id (Some opened)]) (Some cam_id) 0 0)
    end.

(** [cap.isOpened()] *)
Definition cap_isOpened : M bool :=
  emit (IsOpened cam_id) ;;
  match is_opened_raises c with
  | Some e => raise e
  | None =>
      ret match video_capture c with Returns opened => opened | Raises _ => false end
  end.

(** [cap.set(self.cv2.CAP_PROP_BUFFERSIZE, 1)] *)
Definition cap_set : M unit := call (SetBufferSize cam_id) (set_raises c).

(** [cap.read()] *)
Definition cap_read : M (bool * frame) :=
  fun s =>
    (read c (reads s),
     mkState (trace s ++ [Read cam_id]) (cap s) (S (reads s)) (releases s)).

(** [cap.release()] *)
Definition cap_release : M unit :=
  fun s =>
    let r := release c (releases s) in
    (match r with Some e => Raises e | None => Returns tt end,
     mkState (trace s ++ [Release cam_id match r with None => true | Some _ => false end])
             (cap s) (reads s) (S (releases s))).

(** [ret and frame is not None and frame.size > 0] *)
Definition good (rf : bool * frame) : bool :=
  fst rf && match snd rf with Some size => 0 <? size | None => false end.

(** The validation loop, [for test_attempt in range(attempts)] with
    [attempts = 3] in the source; the result is [test_success]. *)
Fixpoint test_loop (attempts : nat) : M bool :=
  match attempts with
  | 0 => ret false
  | S attempts' =>
      broke <- try_except
                 (rf <- cap_read ;;
                  if good rf then ret true
                  else sleep 100 ;; ret false)
                 (fun _ => sleep 100 ;; ret false) ;;
      if broke : bool then ret true else test_loop attempts'
  end.

(** The authoritative read, [for capture_attempt in range(attempts)]:
    the variables [ret, frame] start as [None, None] and keep the value
    of the last read that returned. *)
Fixpoint capture_loop (attempts : nat) (rf : option bool * frame)
  : M (option bool * frame) :=
  match attempts with
  | 0 => ret rf
  | S attempts' =>
      r <- try_except
             (x <- cap_read ;;
              let rf' := (Some (fst x), snd x) in
              if good x then ret (true, rf')
              else sleep 50 ;; ret (false, rf'))
             (fun _ => sleep 50 ;; ret (false, rf)) ;;
      if fst r : bool then ret (snd r) else capture_loop attempts' (snd r)
  end.

(** [not ret or frame is None or frame.size == 0] *)
Definition capture_failed (rf : option bool * frame) : bool :=
  negb match fst rf with Some b => b | None => false end
  || match snd rf with Some size => size =? 0 | None => true end.

(** The inner [try] block around [cv2.imwrite]. *)
Definition save (filename : pystr) : M completion :=
  success <- ask (Imwrite cam_id) (imwrite c) ;;
  if success : bool then
    present <- ask (Exists cam_id) (Returns (exists_after_write c)) ;;
    if present : bool then
      file_size <- ask (Getsize cam_id) (getsize c) ;;
      if 100 <? file_size then
        _log_event (Captured filename file_size) SUCCESS ;;
        cap_release ;;
        call DestroyAllWindows (destroy_raises c) ;;
        sleep 100 ;;
        still <- ask (Exists cam_id) (Returns (exists_finally c)) ;;
        if still : bool then ret (Return true)
        else _log_event FileDisappeared WARNING ;; ret Continue
      else _log_event (FileTooSmall file_size) WARNING ;; ret Continue
    else _log_event FileNotCreated ERROR ;; ret Continue
  else _log_event ImwriteFailed ERROR ;; ret Continue.

(** The handlers of the inner [try]: [except self.cv2.error] and
    [except Exception]. *)
Definition save_handlers (e : exn) : M completion :=
  match e with
  | Cv2Error => _log_event OpenCVWriteError ERROR
  | _ => _log_event FileSaveError ERROR
  end ;; ret Continue.

(** The body of the outer [try] from [cap.isOpened()] on, that is once
    [cap] is bound to a handle. *)
Definition use_device : M completion :=
  opened <- cap_isOpened ;;
  if negb opened then
    _log_event (CouldNotBeOpened cam_id) DEBUG ;;
    cap_release ;;
    ret Continue
  else
    cap_set ;;
    test_success <- test_loop 3 ;;
    if negb test_success then
      _log_event (TestFailed cam_id) DEBUG ;;
      cap_release ;;
      ret Continue
    else
      sleep 100 ;;
      rf <- capture_loop 3 (None, None) ;;
      if capture_failed rf then
        _log_event (CaptureFailed cam_id) DEBUG ;;
        cap_release ;;
        ret Continue
      else
        let filename :=
          Filename._generate_filename_safe
            (hostname self) (mac self) (username self) (clock_now c) in
        try_except (call (Makedirs cam_id) (makedirs_raises c)) (fun _ => ret tt) ;;
        saved <- try_except (save filename) save_handlers ;;
        match saved with
        | Return b => ret (Return b)
        | Continue => cap_release ;; ret Continue
        end.

(** The body of the outer [try]. *)
Definition cycle_body : M completion :=
  _log_event (TryingCamera cam_id) DEBUG ;;
  cv2_VideoCapture ;;
  use_device.

(** The handlers of the outer [try]: [except self.cv2.error],
    [except MemoryError] and [except Exception]. *)
Definition cycle_handlers (e : exn) : M completion :=
  match e with
  | Cv2Error => _log_event (OpenCVError cam_id) ERROR ;; ret Continue
  | MemoryError => _log_event (MemoryErrorMsg cam_id) ERROR ;; ret (Return false)
  | OtherException => _log_event (UnexpectedError cam_id) ERROR ;; ret Continue
  end.

(** The [finally] block: [if cap is not None: try: cap.release()
    except: pass]. *)
Definition cycle_finally : M unit :=
  fun s =>
    match cap s with
    | Some _ => try_except cap_release (fun _ => ret tt) s
    | None => ret tt s
    end.

(** One pass of the loop body, from [cap = None] on. *)
Definition cycle : M completion :=
  (fun s => (Returns tt, mkState (trace s) None (reads s) (releases s))) ;;
  try_finally (try_except cycle_body cycle_handlers) cycle_finally.

End Cycle.

(** [for cam_id in range(max_cameras)] and the two statements after it. *)
Fixpoint for_cam_id (w : world) (cam_ids : list nat) (cameras_tried : nat) : M bool :=
  match cam_ids with
  | [] => _log_event (NoCamerasAvailable cameras_tried) WARNING ;; ret false
  | cam_id :: rest =>
      let cameras_tried := cameras_tried + 1 in
      r <- cycle (w cam_id) cam_id ;;
      match r with
      | Return b => ret b
      | Continue => for_cam_id w rest cameras_tried
      end
  end.

(** [capture], with the local constant [max_cameras] as a parameter. *)
Definition capture_upto (max_cameras : nat) (w : world) : M bool :=
  _log_event StartingCapture INFO ;;
  if negb (modules_available_cv2 self) || negb (cv2_is_not_None self) then
    _log_event OpenCVNotAvailable ERROR ;;
    _log_event InstallHint INFO ;;
    ret false
  else for_cam_id w (seq 0 max_cameras) 0.

Definition max_cameras : nat := 5.

Definition capture (w : world) : M bool := capture_upto max_cameras w.

End Capture.

(** ** Reading a trace *)

(** The device indices on which an open was attempted, in order. *)
Fixpoint open_attempts (t : list event) : list nat :=
  match t with
  | [] => []
  | VideoCapture cam_id _ :: t' => cam_id :: open_attempts t'
  | _ :: t' => open_attempts t'
  end.

(** The number of [cap.read()] calls. *)
Fixpoint count_reads (t : list event) : nat :=
  match t with
  | [] => 0
  | Read _ :: t' => S (count_reads t')
  | _ :: t' => count_reads t'
  end.

(** Modelled from the spec: the effect of the camera library's open and
    release on the devices, which is not code of the repository.  An open
    that acquired the device adds it to the devices held open; a [release]
    that returned frees it, and releasing a device that is not held changes
    nothing. *)
Definition step_open (held : list nat) (ev : event) : list nat :=
  match ev with
  | VideoCapture cam_id (Some true) => cam_id :: held
  | Release cam_id true => remove Nat.eq_dec cam_id held
  | _ => held
  end.

(** The devices held open after the events of [t]. *)
Definition open_handles (t : list event) : list nat := fold_left step_open t [].

(** The release discipline of a trace: [held] is the handle bound to [cap]
    on which [release] has not been called yet.  No open attempt may start
    while a handle is held, and none may be held when the trace ends. *)
Fixpoint released_before_next (held : option nat) (t : list event) : bool :=
  match t with
  | [] => match held with None => true | Some _ => false end
  | VideoCapture cam_id r :: t' =>
      match held with
      | Some _ => false
      | None =>
          released_before_next match r with Some _ => Some cam_id | None => None end t'
      end
  | Release cam_id _ :: t' =>
      match held with
      | Some h => (cam_id =? h) && released_before_next None t'
      | None => released_before_next None t'
      end
  | _ :: t' => released_before_next held t'
  end.

(** An entry logged at ERROR level. *)
Definition is_error_log (ev : event) : bool :=
  match ev with Log ERROR _ => true | _ => false end.

(** The number of [cap.release()] calls on the handle of [cam_id]. *)
Fixpoint count_releases (cam_id : nat) (t : list event) : nat :=
  match t with
  | [] => 0
  | Release j _ :: t' => (if j =? cam_id then 1 else 0) + count_releases cam_id t'
  | _ :: t' => count_releases cam_id t'
  end.

(** ** Reading the answers of the environment *)

(** Whether the [k]-th read yields a frame the loops accept; a read that
    raises does not. *)
Definition accepted (c : camera) (k : nat) : bool :=
  match read c k with
  | Returns rf => good rf
  | Raises _ => false
  end.

(** The events of [n] failed attempts, each followed by its sleep. *)
Fixpoint failed_attempts (cam_id ms n : nat) : list event :=
  match n with
  | 0 => []
  | S n' => Read cam_id :: Sleep ms :: failed_attempts cam_id ms n'
  end.

(** [first_accept c k n f]: among the [n] reads from the [k]-th on, the
    one at offset [f] is the first the loops accept. *)
Definition first_accept (c : camera) (k n f : nat) : Prop :=
  f < n /\ (forall j, j < f -> accepted c (k + j) = false) /\ accepted c (k + f) = true.

(** None of the [n] reads from the [k]-th on is accepted. *)
Definition none_accepted (c : camera) (k n : nat) : Prop :=
  forall j, j < n -> accepted c (k + j) = false.

(** Whether a call that may raise returned normally. *)
Definition returned (r : option exn) : bool :=
  match r with None => true | Some _ => false end.

(** The events of one cycle after the open attempt: no further open
    attempt, and every [release] is a call on the handle of this cycle,
    answered as the environment answers one of its [release] calls. *)
Definition quiet (c : camera) (cam_id : nat) (ev : event) : Prop :=
  match ev with
  | VideoCapture _ _ => False
  | Release j freed => j = cam_id /\ exists k, freed = returned (release c k)
  | _ => True
  end.

(** What the handlers of the outer [try] log for an exception, and how
    they end the pass. *)
Definition handler_message (cam_id : nat) (e : exn) : message :=
  match e with
  | Cv2Error => OpenCVError cam_id
  | MemoryError => MemoryErrorMsg cam_id
  | OtherException => UnexpectedError cam_id
  end.

Definition handler_result (e : exn) : completion :=
  match e with
  | MemoryError => Return false
  | _ => Continue
  end.

(** No call outside the read loops and the write block runs out of
    memory: the constructor, [isOpened], [set] and [release]. *)
Definition abort_free (c : camera) : Prop :=
  video_capture c <> Raises MemoryError
  /\ is_opened_raises c <> Some MemoryError
  /\ set_raises c <> Some MemoryError
  /\ forall k, release c k <> Some MemoryError.

(** What the handlers of the write block log for an exception. *)
Definition write_error_message (e : exn) : message :=
  match e with
  | Cv2Error => OpenCVWriteError
  | _ => FileSaveError
  end.

(** A device that gets as far as the write: it opens, [set] returns, the
    validation accepts a read and so does the authoritative loop. *)
Definition reaches_write (c : camera) : Prop :=
  video_capture c = Returns true /\ is_opened_raises c = None
  /\ set_raises c = None
  /\ exists f g, first_accept c 0 3 f /\ first_accept c (f + 1) 3 g.

(** [e] is raised by a call of the outer [try] block outside the read
    loops and the write block: by the constructor, by [isOpened], by
    [set], or by the [release] that follows an unopened handle, a failed
    validation or a failed capture. *)
Definition raised_outside_write_block (c : camera) (e : exn) : Prop :=
  video_capture c = Raises e
  \/ (exists opened, video_capture c = Returns opened
                     /\ is_opened_raises c = Some e)
  \/ (video_capture c = Returns true /\ is_opened_raises c = None
      /\ set_raises c = Some e)
  \/ (video_capture c = Returns false /\ is_opened_raises c = None
      /\ release c 0 = Some e)
  \/ (video_capture c = Returns true /\ is_opened_raises c = None
      /\ set_raises c = None /\ none_accepted c 0 3 /\ release c 0 = Some e)
  \/ (video_capture c = Returns true /\ is_opened_raises c = None
      /\ set_raises c = None
      /\ (exists f, first_accept c 0 3 f /\ none_accepted c (f + 1) 3)
      /\ release c 0 = Some e).

(** [e] is raised inside the write block: by [imwrite], by [getsize], by
    the explicit [release] before the final check, or by
    [destroyAllWindows]. *)
Definition raised_in_write_block (c : camera) (e : exn) : Prop :=
  imwrite c = Raises e
  \/ (imwrite c = Returns true /\ exists_after_write c = true
      /\ getsize c = Raises e)
  \/ (exists n, imwrite c = Returns true /\ exists_after_write c = true
                /\ getsize c = Returns n /\ 100 < n
                /\ (release c 0 = Some e
                    \/ (release c 0 = None /\ destroy_raises c = Some e))).

(** No [release] runs out of memory. *)
Definition release_abort_free (c : camera) : Prop :=
  forall k, release c k <> Some MemoryError.

(** An event of a read loop: a read, or the sleep after a rejected one. *)
Definition read_or_sleep (cam_id : nat) (ev : event) : Prop :=
  ev = Read cam_id \/ exists ms, ev = Sleep ms.

(** [release] honours its contract: it returns, and so frees the device. *)
Definition release_frees (w : world) : Prop :=
  forall cam_id k, release (w cam_id) k = None.

(** ** Properties of traces and computations *)

(** [emits P m]: from any state [m] only appends events that satisfy [P],
    and leaves the variable [cap] as it was. *)
Definition emits {A} (P : event -> Prop) (m : M A) : Prop :=
  forall s, exists seg,
    trace (snd (m s)) = trace s ++ seg /\ Forall P seg /\ cap (snd (m s)) = cap s.

(** [at_most_one_open held t]: starting with the devices [held] open, never
    more than one device is open while the events of [t] happen. *)
Fixpoint at_most_one_open (held : list nat) (t : list event) : bool :=
  (length held <=? 1) &&
  match t with
  | [] => true
  | ev :: t' => at_most_one_open (step_open held ev) t'
  end.

(** A segment that may be inserted anywhere between two cycles: it gives
    back every handle it takes.  The second part assumes that [release]
    frees the device, which it does when it returns normally. *)
Definition disciplined (frees : Prop) (seg : list event) : Prop :=
  (forall rest,
     released_before_next None (seg ++ rest) = released_before_next None rest)
  /\ (frees ->
      (forall rest, at_most_one_open [] (seg ++ rest) = at_most_one_open [] rest)
      /\ fold_left step_open seg [] = []).

(** The events of a pass up to its [return True]: [f] rejected
    validation reads, [g] rejected authoritative reads, the write and its
    checks, and the explicit [release]. *)
Definition until_return (self : capture_object) (c : camera) (cam_id f g n : nat)
  : list event :=
  [Log DEBUG (TryingCamera cam_id); VideoCapture cam_id (Some true);
   IsOpened cam_id; SetBufferSize cam_id]
  ++ failed_attempts cam_id 100 f ++ [Read cam_id; Sleep 100]
  ++ failed_attempts cam_id 50 g
  ++ [Read cam_id; Makedirs cam_id; Imwrite cam_id; Exists cam_id; Getsize cam_id;
      Log SUCCESS
        (Captured (Filename._generate_filename_safe
                     (hostname self) (mac self) (username self) (clock_now c)) n);
      Release cam_id true; DestroyAllWindows; Sleep 100; Exists cam_id].

(** The whole pass: the [finally] block adds its own [release]. *)
Definition success_events (self : capture_object) (c : camera) (cam_id f g n : nat)
  : list event :=
  until_return self c cam_id f g n ++ [Release cam_id (returned (release c 1))].

(** ** Scenarios *)

Module Scenario.

Definition noon : Filename.clock := Filename.mkClock 2024 1 1 12 0 0 (Some 0).

(** No device behind the index: the handle is returned unopened. *)
Definition no_camera : camera :=
  mkCamera (Returns false) None None (fun _ => Returns (false, None))
           (fun _ => None) noon None (Returns false) false (Returns 0) None false.

(** A camera that opens, where [reads] answers the read calls and the
    written file has [file_size] bytes. *)
Definition camera_with (reads : nat -> answer (bool * frame))
                       (written : answer bool) (file_size : nat) : camera :=
  mkCamera (Returns true) None None reads (fun _ => None) noon None
           written true (Returns file_size) None true.

Definition a_frame : answer (bool * frame) := Returns (true, Some 12).
Definition no_frame : answer (bool * frame) := Returns (false, None).

(** A camera in order, with a file of 15 KB. *)
Definition working : camera := camera_with (fun _ => a_frame) (Returns true) (15 * 1024).

(** Two rejected reads, then frames. *)
Definition third_try : camera :=
  camera_with (fun k => if k <? 2 then no_frame else a_frame) (Returns true) (15 * 1024).

(** Validation passes on the first read; every later read yields nothing. *)
Definition goes_dark : camera :=
  camera_with (fun k => if k =? 0 then a_frame else no_frame) (Returns true) (15 * 1024).

(** Validation passes on the first read; every later read runs out of
    memory. *)
Definition out_of_memory : camera :=
  camera_with (fun k => if k =? 0 then a_frame else Raises MemoryError)
              (Returns true) (15 * 1024).

(** The first read raises, the later ones deliver. *)
Definition hiccup (e : exn) : camera :=
  camera_with (fun k => if k =? 0 then Raises e else a_frame) (Returns true) (15 * 1024).

(** The write call raises a permission error. *)
Definition read_only_directory : camera :=
  camera_with (fun _ => a_frame) (Raises OtherException) 0.

(** The write call reports success and leaves a stub of 100 bytes. *)
Definition truncated_write : camera :=
  camera_with (fun _ => a_frame) (Returns true) 100.

(** The directory of the output cannot be created; the write goes through
    all the same. *)
Definition no_makedirs : camera :=
  mkCamera (Returns true) None None (fun _ => a_frame) (fun _ => None)
           noon (Some OtherException) (Returns true) true (Returns (15 * 1024))
           None true.

(** The first [release] of the handle raises, the later ones return. *)
Definition sticky_release : camera :=
  mkCamera (Returns true) None None (fun _ => a_frame)
           (fun k => if k =? 0 then Some OtherException else None)
           noon None (Returns true) true (Returns (15 * 1024)) None true.

(** The second [release] of the handle raises: on the success path that
    is the one of the cleanup block. *)
Definition stuck_cleanup : camera :=
  mkCamera (Returns true) None None (fun _ => a_frame)
           (fun k => if k =? 1 then Some OtherException else None)
           noon None (Returns true) true (Returns (15 * 1024)) None true.

(** The constructor raises an error of the driver. *)
Definition broken_driver : camera :=
  mkCamera (Raises OtherException) None None (fun _ => a_frame) (fun _ => None)
           noon None (Returns true) true (Returns (15 * 1024)) None true.

(** A console that cannot print the report of an unexpected error, as a
    stream does whose encoding lacks a character of the message of the
    exception; it takes every other line. *)
Definition no_error_report : console :=
  mkConsole
    (fun _ msg =>
       match msg with UnexpectedError _ => Some OtherException | _ => None end)
    (fun msg =>
       match msg with UnexpectedError _ => Some OtherException | _ => None end).

(** The constructor itself runs out of memory. *)
Definition exhausted_at_open : camera :=
  mkCamera (Raises MemoryError) None None (fun _ => a_frame) (fun _ => None)
           noon None (Returns true) true (Returns (15 * 1024)) None true.

Definition me : capture_object :=
  mkSelf true true (str "host") (str "aa-bb-cc-dd-ee-ff") (str "alice").

Definition without_opencv : capture_object :=
  mkSelf false false (str "host") (str "aa-bb-cc-dd-ee-ff") (str "alice").

(** One camera at index [k], nothing elsewhere. *)
Definition only (k : nat) (c : camera) : world :=
  fun cam_id => if cam_id =? k then c else no_camera.

Definition nothing_attached : world := fun _ => no_camera.

End Scenario.

(** A clock whose fields are in the range [time.localtime] and
    [datetime.now] give them: a year of at most four digits, two-digit
    month, day, hour, minute and second, and milliseconds
    ([microsecond // 1000]) below a thousand. *)
Definition wall_clock (c : Filename.clock) : Prop :=
  Filename.year c < 10 * 1000 /\ Filename.month c < 100 /\ Filename.day c < 100
  /\ Filename.hour c < 100 /\ Filename.minute c < 100 /\ Filename.second c < 100
  /\ match Filename.microsecond c with Some us => us / 1000 < 1000 | None => True end.

(** An identity string that makes it into the name: not empty and not the
    default [unknown]. *)
Definition present (s unknown : pystr) : Prop :=
  Filename.truthy s = true /\ str_eqb s unknown = false.

(** A string with none of the thirteen characters the sanitizer replaces. *)
Definition plain (s : pystr) : Prop :=
  Forall (fun x => ~ In x Filename.invalid_chars) s.

(** The number of [cv2.imwrite] calls. *)
Fixpoint count_imwrites (t : list event) : nat :=
  match t with
  | [] => 0
  | Imwrite _ :: t' => S (count_imwrites t')
  | _ :: t' => count_imwrites t'
  end.

(** A device on which the whole pass succeeds, with [f] and [g] rejected
    reads before the accepted ones and a file of [n] bytes. *)
Definition delivers (c : camera) (f g n : nat) : Prop :=
  video_capture c = Returns true /\ is_opened_raises c = None
  /\ set_raises c = None
  /\ first_accept c 0 3 f /\ first_accept c (f + 1) 3 g
  /\ imwrite c = Returns true /\ exists_after_write c = true
  /\ getsize c = Returns n /\ 100 < n
  /\ release c 0 = None /\ destroy_raises c = None /\ exists_finally c = true.

(** A device whose pass runs out of memory before the read loops. *)
Definition exhausted_early (c : camera) : Prop :=
  video_capture c = Raises MemoryError
  \/ (exists opened, video_capture c = Returns opened
                     /\ is_opened_raises c = Some MemoryError)
  \/ (video_capture c = Returns true /\ is_opened_raises c = None
      /\ set_raises c = Some MemoryError)
  \/ (video_capture c = Returns false /\ is_opened_raises c = None
      /\ release c 0 = Some MemoryError).

(** The indices below [k] do not open and raise no fatal error. *)
Definition none_opens_below (w : world) (k : nat) : Prop :=
  forall j, j < k -> video_capture (w j) <> Returns true /\ abort_free (w j).

(** The number of [cv2.imwrite] calls made for the device index [j]. *)
Fixpoint writes_to (j : nat) (t : list event) : nat :=
  match t with
  | [] => 0
  | Imwrite i :: t' => (if i =? j then 1 else 0) + writes_to j t'
  | _ :: t' => writes_to j t'
  end.

(** A console that cannot print the line of a capture, as a stream does
    whose encoding lacks a character of the file name; it takes every
    other line. *)
Definition narrow_console : console :=
  mkConsole
    (fun _ msg => match msg with Captured _ _ => Some OtherException | _ => None end)
    (fun msg => match msg with Captured _ _ => Some OtherException | _ => None end).

(** ** Around the capture: startup, system information and [main]

    The parts below embed the code that runs before and around [capture]:
    [safe_install_module], the import loop of
    [_initialize_modules_ultra_safe], the lookups of [SystemInfoFallback]
    and [_get_system_info_safe], the constructor, [main] and the entry
    point.  Calls into the environment are answered by oracles as before,
    and so is every [print]: it may raise, and then raises an exception of
    none of the classes that the handlers around it name.  [main] names
    [KeyboardInterrupt] and [SystemExit] in its handlers, so its model
    carries them. *)

From Stdlib Require Import NArith.

(** *** Statements: how a block ends *)

(** The startup code and [main] are built from [try] statements whose
    handlers and [finally] blocks [return], [continue], [break] and raise.
    A block is modelled by the way it ends. *)
Module Control.

Section Completion.

Variables R E : Type.

Inductive completion :=
| Falls                  (* the end of the block is reached *)
| Continue
| Break
| Return (r : R)
| Raise (e : E).

(** [try: body except ...: handlers].  A handler runs when the body raised
    and a clause matches; what the handler does then stands for the whole
    statement. *)
Definition try_except (body : completion) (handlers : E -> option completion)
  : completion :=
  match body with
  | Raise e => match handlers e with Some c => c | None => Raise e end
  | c => c
  end.

(** [try: ... finally: finalbody].  The [finally] block runs last on every
    path; when it does not fall through, its own completion replaces the
    pending one, be that a [return] or an exception in flight. *)
Definition try_finally (pending finalbody : completion) : completion :=
  match finalbody with
  | Falls => pending
  | c => c
  end.

End Completion.

Arguments Falls {R E}.
Arguments Continue {R E}.
Arguments Break {R E}.
Arguments Return {R E} r.
Arguments Raise {R E} e.

End Control.

(** ** [main] and the entry point *)

Module Entry.

(** What can be in flight in [main]: the classes its [except] clauses tell
    apart.  [Exception e] is a subclass of [Exception], split as in
    [capture]; [OtherBaseException] is a [BaseException] that no clause
    names ([GeneratorExit], for one). *)
Inductive raised :=
| KeyboardInterrupt
| SystemExit (code : nat)
| Exception (e : exn)
| OtherBaseException.

(** How a block of [main] ends: [return] carries the exit code. *)
Definition completion := Control.completion nat raised.

(** [try: ... except ...: ... finally: ...] *)
Definition try_except_finally
    (body : completion) (handlers : raised -> option completion)
    (finalbody : completion) : completion :=
  Control.try_finally (Control.try_except body handlers) finalbody.

(** The lines [main] and the entry block print.  [print] calls of fixed
    text that follow each other count as one line; the lines of the system
    information carry the strings they print. *)
Inductive line :=
| Banner
| Initializing
| SystemInformation
| Hostname (hostname : pystr)
| Mac (mac : pystr)
| User (username : pystr)
| Output
| RuleBefore
| RuleAfter
| Interrupted
| OutOfMemory
| Crash
| Succeeded
| Failed
| VersionError
| Catastrophic.

(** The environment of one run of the script. *)
Record process := mkProcess {
  (** [sys.version_info >= (3, 6)] *)
  version_ok : bool;
  (** [argparse_ok and argparse is not None] *)
  argparse_available : bool;
  (** the three parser statements: [args.output], or what they raise
      ([SystemExit] on [--help] or on a missing value) *)
  parse_known_args : raised + pystr;
  (** [UltraRobustCameraCapture(output_dir=output_dir)] *)
  construct : pystr -> raised + capture_object;
  (** [os.path.abspath(capture.output_dir)] *)
  abspath_raises : option raised;
  (** the devices [capture.capture()] finds *)
  cameras : world;
  (** a signal delivered while [capture.capture()] runs and let through
      by it *)
  capture_interrupted : option raised;
  (** the console as [_log_event] finds it *)
  stdout : console;
  (** [print(...)] in [main] and in the entry block: whether it raises.
      What it raises is a subclass of [Exception] other than
      [MemoryError] *)
  print_fails : line -> bool
}.

(** [print(...)] as a statement. *)
Definition print (p : process) (l : line) : completion :=
  if print_fails p l then Control.Raise (Exception OtherException)
  else Control.Falls.

(** The value of [output_dir] after the argument parsing. *)
Definition parsed_output_dir (p : process) : pystr :=
  if argparse_available p then
    match parse_known_args p with
    | inr output => output
    | inl _ => str "camshots"
    end
  else str "camshots".

(** [capture.capture()] *)
Definition call_capture (p : process) (self : capture_object) : raised + bool :=
  match capture_interrupted p with
  | Some r => inl r
  | None =>
    match fst (capture (con := stdout p) self (cameras p) initial) with
    | Returns b => inr b
    | Raises e => inl (Exception e)
    end
  end.

(** A statement that may raise, followed by the rest of a block that
    yields a value. *)
Definition and_then {A} (c : completion) (rest : raised + A) : raised + A :=
  match c with
  | Control.Raise r => inl r
  | _ => rest
  end.

(** The statements of the [try] block before [capture.capture()]: the
    object they lead to, or what they raise. *)
Definition before_capture (p : process) : raised + capture_object :=
  and_then (print p Initializing)
    match construct p (parsed_output_dir p) with
    | inl r => inl r
    | inr self =>
      and_then (print p SystemInformation)
        (and_then (print p (Hostname (hostname self)))
           (and_then (print p (Mac (mac self)))
              (and_then (print p (User (username self)))
                 match abspath_raises p with
                 | Some r => inl r
                 | None =>
                   and_then (print p Output)
                     (and_then (print p RuleBefore) (inr self))
                 end)))
    end.

(** The [try] block of [main]: the value of [success] when the block is
    left, and how it is left. *)
Definition main_body (p : process) : bool * completion :=
  match before_capture p with
  | inl r => (false, Control.Raise r)
  | inr self =>
    match call_capture p self with
    | inl r => (false, Control.Raise r)
    | inr success => (success, print p RuleAfter)
    end
  end.

(** A handler that prints and returns. *)
Definition print_and_return (p : process) (l : line) (code : nat) : completion :=
  match print p l with
  | Control.Falls => Control.Return code
  | c => c
  end.

(** The [except] clauses of [main], in their order. *)
Definition main_handlers (p : process) (r : raised) : option completion :=
  match r with
  | KeyboardInterrupt => Some (print_and_return p Interrupted 130)
  | Exception MemoryError => Some (print_and_return p OutOfMemory 137)
  | SystemExit code => Some (Control.Raise (SystemExit code))
  | Exception _ => Some (print_and_return p Crash 1)
  | OtherBaseException => None
  end.

(** The [finally] block of [main]. *)
Definition main_finally (p : process) (success : bool) : completion :=
  if success then print_and_return p Succeeded 0
  else print_and_return p Failed 1.

(** [main]: the banner is printed before the [try] statement. *)
Definition main (p : process) : completion :=
  match print p Banner with
  | Control.Falls =>
    let (success, body) := main_body p in
    try_except_finally body (main_handlers p) (main_finally p success)
  | c => c
  end.

(** The [if __name__ == "__main__"] block, as the exit status of the
    process: [sys.exit(n)] gives [n], [sys.exit(None)] gives 0, and an
    exception that nothing catches ends the interpreter with status 1. *)
Definition script (p : process) : nat :=
  let guarded :=
    if negb (version_ok p) then
      match print p VersionError with
      | Control.Falls => Control.Raise (SystemExit 1)
      | c => c
      end
    else main p in
  match guarded with
  | Control.Raise (SystemExit code) => code   (* [except SystemExit as e: raise e] *)
  | Control.Raise _ =>                        (* bare [except] *)
    match print p Catastrophic with
    | Control.Falls => 1                      (* [exit_code = 1] *)
    | _ => 1                                  (* the [print] is not caught *)
    end
  | Control.Return code => code               (* [exit_code = main()] *)
  | _ => 0                                    (* [exit_code = None] *)
  end.

(** The run in which [capture.capture()] is reached and returns [True]. *)
Definition captured (p : process) : Prop :=
  exists self,
    before_capture p = inr self /\ call_capture p self = inr true.

(** The lines of [main] up to the capture are printed for [self], and so
    is the banner. *)
Definition prints_through (p : process) (self : capture_object) : Prop :=
  print_fails p Banner = false
  /\ print_fails p Initializing = false
  /\ print_fails p SystemInformation = false
  /\ print_fails p (Hostname (hostname self)) = false
  /\ print_fails p (Mac (mac self)) = false
  /\ print_fails p (User (username self)) = false
  /\ print_fails p Output = false
  /\ print_fails p RuleBefore = false.

End Entry.

(** Further behaviours for the examples. *)
Module MoreScenarios.

(** A camera in order under a build of OpenCV without window support:
    [destroyAllWindows] raises [cv2.error]. *)
Definition headless : camera :=
  mkCamera (Returns true) None None (fun _ => Scenario.a_frame) (fun _ => None)
           Scenario.noon None (Returns true) true (Returns (15 * 1024))
           (Some Cv2Error) true.

(** A run with the default arguments in which the constructor yields
    [self], the devices are [w] and every line is printed. *)
Definition run_with (self : capture_object) (w : world) : Entry.process :=
  Entry.mkProcess true true (inr (str "camshots")) (fun _ => inr self) None w None
                  plain_console (fun _ => false).

(** The same run, interrupted from the keyboard during the capture. *)
Definition interrupted (self : capture_object) (w : world) : Entry.process :=
  Entry.mkProcess true true (inr (str "camshots")) (fun _ => inr self) None w
                  (Some Entry.KeyboardInterrupt) plain_console (fun _ => false).

(** A run started with [--help]: the parser prints the usage and raises
    [SystemExit(0)]. *)
Definition asked_for_help (self : capture_object) (w : world) : Entry.process :=
  Entry.mkProcess true true (inl (Entry.SystemExit 0)) (fun _ => inr self) None w None
                  plain_console (fun _ => false).

(** A run on a console that cannot print the user name, and prints every
    other line. *)
Definition unprintable_user (self : capture_object) (w : world) : Entry.process :=
  Entry.mkProcess true true (inr (str "camshots")) (fun _ => inr self) None w None
                  plain_console
                  (fun l => match l with Entry.User _ => true | _ => false end).

End MoreScenarios.

(** ** [safe_install_module] *)

Module Install.

(** The classes the handlers of [safe_install_module] tell apart, all of
    them subclasses of [Exception].  [OtherError] stands for every other
    one: the [ImportError] of [import signal], the [AttributeError] of a
    platform without [SIGALRM], the [TimeoutError] of the alarm handler. *)
Inductive failure := TimeoutExpired | FileNotFoundError | OtherError.

(** The second component of the result. *)
Inductive message := SubprocessMissing | Installed | TimedOut | AllFailed.

(** The lines [safe_install_module] prints: the announcement before the
    loop, the report of a method that ended with another exit status than
    0, and the report of the [except Exception] clause of a pass. *)
Inductive line :=
| Attempting
| MethodFailed (i : nat)
| AttemptFailed (i : nat).

(** The environment.  The calls are indexed by the position of the method
    in [installation_methods]. *)
Record host := mkHost {
  (* [subprocess is None] *)
  subprocess_is_None : bool;
  (* [import signal] *)
  import_signal : nat -> option failure;
  (* [signal_module.signal(SIGALRM, timeout_handler)] and [alarm(60)]:
     what they raise, or whether [old_handler is not None] *)
  arm : nat -> failure + bool;
  (* [subprocess.run(method, ...)]: what it raises, or [result.returncode] *)
  run : nat -> failure + nat;
  (* [alarm(0)] and [signal(SIGALRM, old_handler)] of the [finally] block *)
  disarm : nat -> option failure;
  (* [print(...)]: whether it raises.  What [print] raises on a stream that
     does not take the line (a [UnicodeEncodeError], an [OSError] of the
     stream, a [ValueError] on a closed one) is none of the classes the
     handlers name: it is an [OtherError] *)
  print_fails : line -> bool
}.

Definition completion := Control.completion (bool * message) failure.

(** [print(...)] as a statement. *)
Definition print (h : host) (l : line) : completion :=
  if print_fails h l then Control.Raise OtherError else Control.Falls.

(** The body of the inner [try]. *)
Definition run_method (h : host) (i : nat) : completion :=
  match run h i with
  | inl e => Control.Raise e
  | inr returncode =>
    if returncode =? 0 then Control.Return (true, Installed)
    else print h (MethodFailed i)
  end.

(** The [except] clauses of the inner [try]. *)
Definition run_handlers (e : failure) : option completion :=
  match e with
  | TimeoutExpired => Some (Control.Return (false, TimedOut))
  | FileNotFoundError => Some Control.Continue
  | OtherError => None
  end.

(** The [finally] block of the inner [try]. *)
Definition restore_handler (h : host) (i : nat) (old_handler_is_not_None : bool)
  : completion :=
  if old_handler_is_not_None then
    match disarm h i with
    | Some e => Control.Raise e
    | None => Control.Falls
    end
  else Control.Falls.

(** The body of the outer [try]. *)
Definition method_body (h : host) (i : nat) : completion :=
  match import_signal h i with
  | Some e => Control.Raise e
  | None =>
    match arm h i with
    | inl e => Control.Raise e
    | inr old_handler_is_not_None =>
      Control.try_finally
        (Control.try_except (run_method h i) run_handlers)
        (restore_handler h i old_handler_is_not_None)
    end
  end.

(** The [except Exception] clause: it catches every [failure], prints and
    goes on with the next method; what its [print] raises leaves the
    loop. *)
Definition attempt_handler (h : host) (i : nat) : completion :=
  match print h (AttemptFailed i) with
  | Control.Falls => Control.Continue
  | c => c
  end.

(** One pass of the loop. *)
Definition attempt (h : host) (i : nat) : completion :=
  Control.try_except (method_body h i) (fun _ => Some (attempt_handler h i)).

(** Whether the pass gets as far as [subprocess.run]. *)
Definition launches (h : host) (i : nat) : bool :=
  match import_signal h i, arm h i with
  | None, inr _ => true
  | _, _ => false
  end.

(** [for method in installation_methods], with the methods whose
    [subprocess.run] was called, in order. *)
Fixpoint for_method (h : host) (methods : list nat) : list nat * completion :=
  match methods with
  | [] => ([], Control.Falls)
  | i :: rest =>
    let ran := if launches h i then [i] else [] in
    match attempt h i with
    | Control.Falls | Control.Continue =>
      let (more, c) := for_method h rest in (ran ++ more, c)
    | Control.Break => (ran, Control.Falls)
    | c => (ran, c)
    end
  end.

(** The five command lines, by position. *)
Definition installation_methods : list nat := seq 0 5.

(** The methods run and the result: the pair returned, or what is raised. *)
Definition safe_install_module (h : host) : list nat * (failure + bool * message) :=
  if subprocess_is_None h then ([], inr (false, SubprocessMissing))
  else
    match print h Attempting with
    | Control.Raise e => ([], inl e)
    | _ =>
      let (ran, c) := for_method h installation_methods in
      match c with
      | Control.Return r => (ran, inr r)
      | Control.Raise e => (ran, inl e)
      | _ => (ran, inr (false, AllFailed))
      end
    end.

(** The announcement and the reports of the [except Exception] clause of
    the first [n] methods get through. *)
Definition reports_through (h : host) (n : nat) : Prop :=
  print_fails h Attempting = false
  /\ forall i, i < n -> print_fails h (AttemptFailed i) = false.

(** The pass for method [i] ends the installation with the result [r]:
    [subprocess.run] is reached and returns 0 or times out, and the
    [finally] block restores the handler without raising. *)
Definition settles (h : host) (i : nat) (r : bool * message) : Prop :=
  launches h i = true
  /\ ((run h i = inr 0 /\ r = (true, Installed))
      \/ (run h i = inl TimeoutExpired /\ r = (false, TimedOut)))
  /\ (arm h i = inr false \/ disarm h i = None).

End Install.

(** ** [_initialize_modules_ultra_safe] *)

Module Modules.

(** The classes the handlers of the import loop tell apart.  What leaves
    the method is never an [ImportError]: it is what a [print] of a
    handler raised, or what left the installer. *)
Inductive failure := ImportError | OtherError.

(** The lines the method prints: the success of the import, the message
    of a failed installation, the two reports of the handlers of the
    import loop, and the report on a standard module. *)
Inductive line :=
| Initialized
| NotInstalled
| NotAvailable
| InitializationError (attempt : nat)
| ModuleNotAvailable (i : nat).

(** The environment.  The calls of the import loop are indexed by
    [attempt], those of the second loop by the position of the module in
    [standard_modules]. *)
Record environment := mkEnvironment {
  (* [import cv2] *)
  import_cv2 : nat -> option failure;
  (* [cv2.VideoCapture(0)]: what it raises, or whether
     [test_cap is not None] *)
  video_capture_0 : nat -> failure + bool;
  (* [test_cap.release()] *)
  test_cap_release : nat -> option failure;
  (* the truth value of the module-level [subprocess] *)
  subprocess_truthy : bool;
  (* what [safe_install_module] finds *)
  installer : Install.host;
  (* [__import__] and [getattr] of a standard module: whether they raise *)
  standard_import_fails : nat -> bool;
  (* [print(...)]: whether it raises, and then an [OtherError] *)
  print_fails : line -> bool
}.

(** What the import loop does, in order. *)
Inductive action :=
| ImportCv2 (attempt : nat)
| InstallOpenCV
| Sleep.

(** The body of the [try] up to the assignments: what it raises. *)
Definition probe (env : environment) (attempt : nat) : option failure :=
  match import_cv2 env attempt with
  | Some e => Some e
  | None =>
    match video_capture_0 env attempt with
    | inl e => Some e
    | inr test_cap_is_not_None =>
      if test_cap_is_not_None then test_cap_release env attempt else None
    end
  end.

(** How the import loop is left: the actions, the value of [cv2_success],
    which is assigned together with [self.cv2] and
    [self.modules_available['cv2']] and never taken back, and what is
    raised out of the loop. *)
Record outcome := mkOutcome {
  actions : list action;
  cv2_success : bool;
  raised : option failure
}.

(** A handler that ends with [print(...)] and [break]. *)
Definition print_and_break (env : environment) (l : line)
    (done : list action) (cv2_success : bool) : outcome :=
  mkOutcome done cv2_success (if print_fails env l then Some OtherError else None).

(** [for attempt in range(3)].  The [print] after the assignments stands
    in the [try] block: what it raises meets the [except Exception]
    clause, with [cv2_success] set already.  An exception raised in a
    handler (by the installer or by a [print]) is not caught by the
    clause next to it and leaves the loop. *)
Fixpoint for_attempt (env : environment) (attempts : list nat) (cv2_success : bool)
  : outcome :=
  match attempts with
  | [] => mkOutcome [] cv2_success None
  | attempt :: rest =>
    (* [except Exception as e]: print, sleep before a retry, [continue] *)
    let except_Exception (cv2_success : bool) :=
      if print_fails env (InitializationError attempt) then
        mkOutcome [ImportCv2 attempt] cv2_success (Some OtherError)
      else
        let o := for_attempt env rest cv2_success in
        mkOutcome
          (ImportCv2 attempt :: (if attempt <? 2 then [Sleep] else []) ++ actions o)
          (Modules.cv2_success o) (raised o) in
    match probe env attempt with
    | None =>
      if print_fails env Initialized then except_Exception true
      else mkOutcome [ImportCv2 attempt] true None
    | Some ImportError =>
      if (attempt =? 0) && subprocess_truthy env then
        match snd (Install.safe_install_module (installer env)) with
        | inl e =>
          mkOutcome [ImportCv2 attempt; InstallOpenCV] cv2_success (Some OtherError)
        | inr (success, msg) =>
          if success then
            let o := for_attempt env rest cv2_success in
            mkOutcome (ImportCv2 attempt :: InstallOpenCV :: actions o)
                      (Modules.cv2_success o) (raised o)
          else
            print_and_break env NotInstalled [ImportCv2 attempt; InstallOpenCV]
                            cv2_success
        end
      else print_and_break env NotAvailable [ImportCv2 attempt] cv2_success
    | Some OtherError => except_Exception cv2_success
    end
  end.

(** The first half of [_initialize_modules_ultra_safe]. *)
Definition initialize_cv2 (env : environment) : outcome :=
  for_attempt env (seq 0 3) false.

(** The two attributes [capture] reads, [self.modules_available['cv2']]
    and [self.cv2 is not None], after the loop, however it was left. *)
Definition loaded (env : environment) : bool := cv2_success (initialize_cv2 env).

(** [for import_str, module_key in standard_modules]: the modules found
    available, in order, and what is raised out of the loop.  The handler
    of a failed import prints; what its [print] raises leaves the loop,
    and the modules not reached keep [False] in [modules_available]. *)
Fixpoint for_module (env : environment) (modules : list nat)
  : list nat * option failure :=
  match modules with
  | [] => ([], None)
  | i :: rest =>
    if standard_import_fails env i then
      if print_fails env (ModuleNotAvailable i) then ([], Some OtherError)
      else for_module env rest
    else let (available, r) := for_module env rest in (i :: available, r)
  end.

(** [socket], [uuid], [getpass] and [datetime.datetime], by position. *)
Definition standard_modules : list nat := seq 0 4.

(** The whole method: the outcome of the import loop, the standard
    modules set in [modules_available], and what the method raises.  The
    second loop is not run when the first one raised. *)
Definition _initialize_modules_ultra_safe (env : environment)
  : outcome * list nat * option failure :=
  let o := initialize_cv2 env in
  match raised o with
  | Some e => (o, [], Some e)
  | None => let (available, r) := for_module env standard_modules in (o, available, r)
  end.

(** [self.modules_available.get(key)] after the method, for the standard
    module at position [i]. *)
Definition available (env : environment) (i : nat) : bool :=
  existsb (Nat.eqb i) (snd (fst (_initialize_modules_ultra_safe env))).

(** The object [capture] runs on, given the identity strings. *)
Definition object_after (env : environment) (hostname mac username : pystr)
  : capture_object :=
  mkSelf (loaded env) (loaded env) hostname mac username.

Fixpoint count_imports (log : list action) : nat :=
  match log with
  | [] => 0
  | ImportCv2 _ :: log' => S (count_imports log')
  | _ :: log' => count_imports log'
  end.

Fixpoint count_installs (log : list action) : nat :=
  match log with
  | [] => 0
  | InstallOpenCV :: log' => S (count_installs log')
  | _ :: log' => count_installs log'
  end.

(** The reports of the handlers of the import loop get through. *)
Definition reports_through (env : environment) : Prop :=
  print_fails env NotInstalled = false
  /\ print_fails env NotAvailable = false
  /\ forall attempt, attempt < 3 ->
       print_fails env (InitializationError attempt) = false.

End Modules.

Module StartupScenarios.

(** A platform without [SIGALRM]: the attribute lookup raises. *)
Definition no_sigalrm : Install.host :=
  Install.mkHost false (fun _ => None) (fun _ => inl Install.OtherError)
                 (fun _ => inr 0) (fun _ => None) (fun _ => false).

(** No [pip] module for the running interpreter (exit status 1); the [pip]
    executable installs the package. *)
Definition pip_on_path : Install.host :=
  Install.mkHost false (fun _ => None) (fun _ => inr true)
                 (fun i => if i =? 0 then inr 1 else inr 0) (fun _ => None)
                 (fun _ => false).

(** Every method installs the package, and restoring the signal handler
    raises each time. *)
Definition restore_raises : Install.host :=
  Install.mkHost false (fun _ => None) (fun _ => inr true)
                 (fun _ => inr 0) (fun _ => Some Install.OtherError)
                 (fun _ => false).

(** The same platform as [no_sigalrm] with a standard output that is
    closed: every [print] raises. *)
Definition closed_stdout : Install.host :=
  Install.mkHost false (fun _ => None) (fun _ => inl Install.OtherError)
                 (fun _ => inr 0) (fun _ => None) (fun _ => true).

(** OpenCV is not installed and cannot be. *)
Definition no_opencv : Modules.environment :=
  Modules.mkEnvironment (fun _ => Some Modules.ImportError) (fun _ => inr true)
                        (fun _ => None) true no_sigalrm (fun _ => false)
                        (fun _ => false).

(** OpenCV is missing at first and importable once installed. *)
Definition opencv_on_demand : Modules.environment :=
  Modules.mkEnvironment
    (fun attempt => if attempt =? 0 then Some Modules.ImportError else None)
    (fun _ => inr true) (fun _ => None) true pip_on_path (fun _ => false)
    (fun _ => false).

(** OpenCV is installed; the standard output cannot encode the check mark
    and the warning sign of the lines the import loop prints. *)
Definition ascii_stdout : Modules.environment :=
  Modules.mkEnvironment (fun _ => None) (fun _ => inr true) (fun _ => None)
                        true pip_on_path (fun _ => false) (fun _ => true).

End StartupScenarios.

(** ** System information: [SystemInfoFallback] and [_get_system_info_safe] *)

Module SystemInfo.

(** *** Strings *)

(** The code points below 256 for which [str.isspace] holds. *)
Definition is_space (c : ascii) : bool :=
  let n := nat_of_ascii c in
  ((9 <=? n) && (n <=? 13)) || ((28 <=? n) && (n <=? 32))
  || (n =? 133) || (n =? 160).

Fixpoint lstrip (s : pystr) : pystr :=
  match s with
  | [] => []
  | c :: s' => if is_space c then lstrip s' else s
  end.

(** [s.strip()] *)
Definition strip (s : pystr) : pystr := rev (lstrip (rev (lstrip s))).

(** [s.replace(old, new)] for one-character [old] and [new]. *)
Definition replace (old new : ascii) (s : pystr) : pystr :=
  map (fun x => if Ascii.eqb x old then new else x) s.

(** [s[-k:]] *)
Definition last_chars (k : nat) (s : pystr) : pystr := skipn (length s - k) s.

(** [s[i:j]] *)
Definition slice (i j : nat) (s : pystr) : pystr := firstn (j - i) (skipn i s).

(** [s.split(sep)[-1]] for a one-character [sep]: what follows the last
    separator. *)
Fixpoint after_last (sep : ascii) (s : pystr) : pystr :=
  match s with
  | [] => []
  | c :: s' =>
    if existsb (Ascii.eqb sep) s' then after_last sep s'
    else if Ascii.eqb c sep then s' else s
  end.

Fixpoint starts_with (prefix s : pystr) : bool :=
  match prefix, s with
  | [], _ => true
  | x :: prefix', y :: s' => Ascii.eqb x y && starts_with prefix' s'
  | _ :: _, [] => false
  end.

(** [needle in s] *)
Fixpoint contains (needle s : pystr) : bool :=
  starts_with needle s
  || match s with
     | [] => false
     | _ :: s' => contains needle s'
     end.

(** A value that is [None] or a string, as [os.environ.get] returns it. *)
Definition truthy_value (a : option pystr) : bool :=
  match a with
  | Some s => Filename.truthy s
  | None => false
  end.

(** [a or b] *)
Definition or_else (a b : option pystr) : option pystr :=
  if truthy_value a then a else b.

(** The string of a truthy value. *)
Definition string_of (a : option pystr) : pystr :=
  match a with
  | Some s => s
  | None => []
  end.

(** *** The environment *)

Inductive variable := COMPUTERNAME | HOSTNAME | HOST | USERNAME | USER | LOGNAME.

(** [sys.platform.startswith('win')], [sys.platform.startswith('linux')] *)
Inductive platform_name := Windows | Linux | OtherPlatform.

(** A call that raises is answered by [None]: every handler of this part
    is a bare [except]. *)
Record system := mkSystem {
  (* [self.modules_available.get(...)] *)
  socket_available : bool;
  uuid_available : bool;
  getpass_available : bool;
  (* [self.socket.gethostname()] *)
  self_gethostname : option pystr;
  (* [import socket] and [socket.gethostname()] of the fallback *)
  gethostname : option pystr;
  (* [os.environ.get(name)] *)
  environ : variable -> option pystr;
  (* [os.path.exists('/etc/hostname')] *)
  etc_hostname_exists : bool;
  (* [open('/etc/hostname').read()] *)
  read_etc_hostname : option pystr;
  (* [self.getpass.getuser()] *)
  self_getuser : option pystr;
  (* [import getpass] and [getpass.getuser()] of the fallback *)
  getuser : option pystr;
  platform : platform_name;
  (* the truth value of the module-level [subprocess] *)
  subprocess_at_hand : bool;
  (* [subprocess.run(['whoami'], ...)]: [returncode] and [stdout] *)
  whoami : option (nat * pystr);
  (* [self.uuid.getnode()] *)
  self_getnode : option N;
  (* [import uuid] and [uuid.getnode()] of the fallback *)
  getnode : option N;
  (* [os.path.exists(mac_file)] and the content of the file, by the
     position of the interface in the list *)
  address_exists : nat -> bool;
  read_address : nat -> option pystr
}.

(** *** Host name *)

(** [hostname.replace(' ', '_').replace('/', '_')[:50]] *)
Definition tidy (s : pystr) : pystr :=
  Filename.slice_to 50 (replace "/" "_" (replace " " "_" s)).

(** [s.replace(' ', '_')[:50]] *)
Definition tidy_spaces (s : pystr) : pystr :=
  Filename.slice_to 50 (replace " " "_" s).

(** The first [try] of [get_hostname]: the value returned, if any. *)
Definition hostname_from_socket (e : system) : option pystr :=
  match gethostname e with
  | Some hostname =>
    if Filename.truthy hostname && Filename.truthy (strip hostname)
    then Some (tidy hostname) else None
  | None => None
  end.

(** The last [try] of [get_hostname]. *)
Definition hostname_from_file (e : system) : option pystr :=
  if etc_hostname_exists e then
    match read_etc_hostname e with
    | Some content =>
      let hostname := strip content in
      if Filename.truthy hostname then Some (tidy_spaces hostname) else None
    | None => None
    end
  else None.

Definition get_hostname (e : system) : pystr :=
  match hostname_from_socket e with
  | Some r => r
  | None =>
    let env_hostname :=
      or_else (or_else (environ e COMPUTERNAME) (environ e HOSTNAME))
              (environ e HOST) in
    if truthy_value env_hostname then tidy_spaces (string_of env_hostname)
    else
      match hostname_from_file e with
      | Some r => r
      | None => str "unknown_host"
      end
  end.

(** [self.hostname] after [_get_system_info_safe]. *)
Definition hostname_of (e : system) : pystr :=
  if socket_available e then
    match self_gethostname e with
    | Some h =>
      let hostname := tidy h in
      if negb (Filename.truthy hostname) || str_eqb (strip hostname) []
      then get_hostname e
      else hostname
    | None => get_hostname e
    end
  else get_hostname e.

(** *** User name *)

Definition username_from_getpass (e : system) : option pystr :=
  match getuser e with
  | Some username =>
    if Filename.truthy username && Filename.truthy (strip username)
    then Some (tidy username) else None
  | None => None
  end.

(** The [whoami] branch of [get_username]. *)
Definition username_from_whoami (e : system) : option pystr :=
  match platform e with
  | Windows =>
    if subprocess_at_hand e then
      match whoami e with
      | Some (returncode, stdout) =>
        if returncode =? 0 then
          let username := after_last (ascii_of_nat 92) (strip stdout) in
          if Filename.truthy username then Some (tidy_spaces username) else None
        else None
      | None => None
      end
    else None
  | _ => None
  end.

Definition get_username (e : system) : pystr :=
  match username_from_getpass e with
  | Some r => r
  | None =>
    let env_user :=
      or_else (or_else (environ e USERNAME) (environ e USER))
              (environ e LOGNAME) in
    if truthy_value env_user then tidy_spaces (string_of env_user)
    else
      match username_from_whoami e with
      | Some r => r
      | None => str "unknown_user"
      end
  end.

(** [self.username] after [_get_system_info_safe]. *)
Definition username_of (e : system) : pystr :=
  if getpass_available e then
    match self_getuser e with
    | Some u =>
      let username := tidy u in
      if negb (Filename.truthy username) || str_eqb (strip username) []
      then get_username e
      else username
    | None => get_username e
    end
  else get_username e.

(** *** MAC address *)

(** [mac_num >> 40 & 1], as a truth value. *)
Definition multicast_bit (mac_num : N) : bool :=
  negb (N.land (N.shiftr mac_num 40) 1 =? 0)%N.

Definition hex_digit (d : N) : ascii :=
  nth (N.to_nat d) (str "0123456789abcdef") "0"%char.

(** The last [width] hexadecimal digits of [n] in front of [acc]. *)
Fixpoint hex_aux (width : nat) (n : N) (acc : pystr) : pystr :=
  match width with
  | 0 => acc
  | S w => hex_aux w (n / 16)%N (hex_digit (n mod 16)%N :: acc)
  end.

(** [uuid.UUID(int=n).hex]: 32 digits; the constructor raises unless
    [n < 2 ** 128]. *)
Definition uuid_hex (n : N) : option pystr :=
  if (n <? 2 ^ 128)%N then Some (hex_aux 32 n []) else None.

(** ['-'.join(mac_hex[i:i+2] for i in range(0, 12, 2))] *)
Definition dashed (mac_hex : pystr) : pystr :=
  Filename.join (str "-")
    (map (fun i => slice i (i + 2) mac_hex) [0; 2; 4; 6; 8; 10]).

(** The first [try] of [get_mac_address]: the value returned, or [None]
    when something raised. *)
Definition mac_from_uuid (e : system) : option pystr :=
  match getnode e with
  | Some mac_num =>
    if multicast_bit mac_num then Some (str "unknown-mac")
    else
      match uuid_hex mac_num with
      | Some hex =>
        let mac_hex := last_chars 12 hex in
        if str_eqb mac_hex (str "000000000000")
           || forallb (fun c => Ascii.eqb c "0") mac_hex
        then Some (str "unknown-mac")
        else Some (dashed mac_hex)
      | None => None
      end
  | None => None
  end.

(** The loop over the interfaces of [/sys/class/net]. *)
Fixpoint for_interface (e : system) (interfaces : list nat) : option pystr :=
  match interfaces with
  | [] => None
  | i :: rest =>
    if address_exists e i then
      match read_address e i with
      | Some content =>
        let mac := strip content in
        if Filename.truthy mac && negb (contains (str "00:00:00:00:00:00") mac)
        then Some (replace ":" "-" mac)
        else for_interface e rest
      | None => for_interface e rest
      end
    else for_interface e rest
  end.

(** The second [try] of [get_mac_address]. *)
Definition mac_from_platform (e : system) : option pystr :=
  match platform e with
  | Windows => None
  | Linux => for_interface e (seq 0 4)
  | OtherPlatform => None
  end.

Definition get_mac_address (e : system) : pystr :=
  match mac_from_uuid e with
  | Some r => r
  | None =>
    match mac_from_platform e with
    | Some r => r
    | None => str "unknown-mac"
    end
  end.

(** [self.mac] after [_get_system_info_safe]. *)
Definition mac_of (e : system) : pystr :=
  if uuid_available e then
    match self_getnode e with
    | Some mac_num =>
      if negb (multicast_bit mac_num) then
        match uuid_hex mac_num with
        | Some hex =>
          let mac_hex := last_chars 12 hex in
          if negb (str_eqb mac_hex (str "000000000000"))
          then dashed mac_hex
          else get_mac_address e
        | None => get_mac_address e
        end
      else get_mac_address e
    | None => get_mac_address e
    end
  else get_mac_address e.

(** A string the file name takes as it is: not empty, at most 50
    characters, no space. *)
Definition tidied (s : pystr) : Prop :=
  s <> [] /\ length s <= 50 /\ ~ In " "%char s.

(** A node number that is written out: below [2 ** 48], not zero,
    multicast bit clear. *)
Definition printed (n : N) : Prop :=
  (n < 2 ^ 48)%N /\ n <> 0%N /\ multicast_bit n = false.

End SystemInfo.

(** ** [UltraRobustCameraCapture.__init__] *)

Module Init.

(** Where [_set_output_directory] ends: the requested directory and the
    current one are tested by writing a file, the temporary one is taken
    untested, and when [tempfile.gettempdir()] raises nothing is left but
    the current directory. *)
Inductive directory := Requested | Current | Temporary | NoneFound.

(** The lines the constructor and its steps 1 and 4 print. *)
Inductive line :=
| UsingTemp
| NotWritable
| NoLogging
| Complete
| PartialError.

(** What the constructor finds. *)
Record machine := mkMachine {
  output_directory : directory;
  modules : Modules.environment;
  (* the lookups of [_get_system_info_safe]; the three flags of
     [modules_available] are those the constructor has set *)
  system : SystemInfo.system;
  (* [open(self.log_file, 'a')] and [f.write(...)] return *)
  log_file_opens : bool;
  (* [print(...)]: whether it raises *)
  print_fails : line -> bool
}.

(** Step 1: whether it raises.  The [print] of the temporary directory
    stands in a [try] block with a bare [except]; the one of the last
    fallback is not guarded. *)
Definition _set_output_directory (m : machine) : bool :=
  match output_directory m with
  | Requested | Current => false
  | Temporary => print_fails m UsingTemp && print_fails m NotWritable
  | NoneFound => print_fails m NotWritable
  end.

(** Step 2: whether it raises. *)
Definition _initialize_modules_ultra_safe (m : machine) : bool :=
  match snd (Modules._initialize_modules_ultra_safe (modules m)) with
  | Some _ => true
  | None => false
  end.

(** The system as step 3 finds it: [modules_available] holds what step 2
    has set. *)
Definition system_found (m : machine) : SystemInfo.system :=
  let e := system m in
  SystemInfo.mkSystem
    (Modules.available (modules m) 0)
    (Modules.available (modules m) 1)
    (Modules.available (modules m) 2)
    (SystemInfo.self_gethostname e) (SystemInfo.gethostname e)
    (SystemInfo.environ e) (SystemInfo.etc_hostname_exists e)
    (SystemInfo.read_etc_hostname e) (SystemInfo.self_getuser e)
    (SystemInfo.getuser e) (SystemInfo.platform e)
    (SystemInfo.subprocess_at_hand e) (SystemInfo.whoami e)
    (SystemInfo.self_getnode e) (SystemInfo.getnode e)
    (SystemInfo.address_exists e) (SystemInfo.read_address e).

(** Step 4: whether it raises.  Its handler prints. *)
Definition _initialize_logging_safe (m : machine) : bool :=
  negb (log_file_opens m) && print_fails m NoLogging.

(** The object with the attributes as they are before step 3. *)
Definition defaults (cv2 : bool) : capture_object :=
  mkSelf cv2 cv2 (str "unknown_host") (str "unknown-mac") (str "unknown_user").

(** The object after step 3. *)
Definition identified (m : machine) : capture_object :=
  mkSelf (Modules.loaded (modules m)) (Modules.loaded (modules m))
         (SystemInfo.hostname_of (system_found m))
         (SystemInfo.mac_of (system_found m))
         (SystemInfo.username_of (system_found m)).

(** The [except Exception] clause of the constructor: it prints, and the
    constructor returns the object as the failed step left it; what the
    [print] raises leaves the constructor. *)
Definition partial (m : machine) (self : capture_object) : option capture_object :=
  if print_fails m PartialError then None else Some self.

(** The constructor: the object, or [None] when it raises.  An exception
    of step 1 or 2 ends the [try] block before step 3, and the identity
    strings keep their defaults; the attributes of OpenCV are set by
    step 2 even when it raises afterwards. *)
Definition __init__ (m : machine) : option capture_object :=
  if _set_output_directory m then partial m (defaults false)
  else if _initialize_modules_ultra_safe m then
    partial m (defaults (Modules.loaded (modules m)))
  else if _initialize_logging_safe m then partial m (identified m)
  else if print_fails m Complete then partial m (identified m)
  else Some (identified m).

(** The four steps and the closing line go through. *)
Definition completes (m : machine) : Prop :=
  _set_output_directory m = false
  /\ _initialize_modules_ultra_safe m = false
  /\ _initialize_logging_safe m = false
  /\ print_fails m Complete = false.

(** [UltraRobustCameraCapture(output_dir=output_dir)] as [main] sees it. *)
Definition construct (m : machine) : Entry.raised + capture_object :=
  match __init__ m with
  | Some self => inr self
  | None => inl (Entry.Exception OtherException)
  end.

(** A run of the script on the machine [m] with the devices [w], on the
    console [con] for the log and with [print_fails] for the lines of
    [main]: default command line, nothing raised around the capture. *)
Definition process_on (m : machine) (w : world) (con : console)
    (print_fails : Entry.line -> bool) : Entry.process :=
  Entry.mkProcess true true (inr (str "camshots")) (fun _ => construct m)
                  None w None con print_fails.

End Init.

Module MachineScenarios.

(** A Linux workstation: [socket], [uuid] and [getpass] answer. *)
Definition workstation : SystemInfo.system :=
  SystemInfo.mkSystem true true true
    (Some (str "host")) (Some (str "host")) (fun _ => None)
    true (Some (str "host"))
    (Some (str "alice")) (Some (str "alice"))
    SystemInfo.Linux true None
    (Some 187723572702975%N) (Some 187723572702975%N)
    (fun _ => false) (fun _ => None).

(** The same with a randomly generated node number: [uuid] sets the
    multicast bit of those. *)
Definition random_node : SystemInfo.system :=
  SystemInfo.mkSystem true true true
    (Some (str "host")) (Some (str "host")) (fun _ => None)
    true (Some (str "host"))
    (Some (str "alice")) (Some (str "alice"))
    SystemInfo.Linux true None
    (Some 188823084330751%N) (Some 188823084330751%N)
    (fun i => i =? 0) (fun _ => Some (str "aa:bb:cc:dd:ee:ff")).

(** OpenCV loads at the first attempt. *)
Definition opencv_installed : Modules.environment :=
  Modules.mkEnvironment (fun _ => None) (fun _ => inr true) (fun _ => None)
                        true StartupScenarios.pip_on_path (fun _ => false)
                        (fun _ => false).

Definition desk : Init.machine :=
  Init.mkMachine Init.Requested opencv_installed workstation true (fun _ => false).

(** The same machine with a standard output that cannot encode the check
    mark and the warning sign: the lines of the import loop and of the
    constructor that carry one are not printed. *)
Definition ascii_desk : Init.machine :=
  Init.mkMachine Init.Requested StartupScenarios.ascii_stdout workstation true
                 (fun _ => true).

(** There the import loop cannot print its lines, and the constructor
    prints its own. *)
Definition half_ascii_desk : Init.machine :=
  Init.mkMachine Init.Requested StartupScenarios.ascii_stdout workstation true
                 (fun _ => false).

End MachineScenarios.

(** * Proofs *)

(** ** Facts about file names *)

Section FilenameFacts.

Import Filename.

Lemma fold_replace_map (l : list ascii) : forall fn,
fold_left (fun f c => replace_char c f) l fn
= map (fun x => fold_left (fun y c => if Ascii.eqb y c then "_"%char else y) l x) fn.
Proof.
induction l as [|c l IH]; intros fn; simpl.
- now rewrite map_id.
- rewrite IH. unfold replace_char. now rewrite map_map.
Qed.

Lemma sanitize_map fn : sanitize fn = map clean fn.
Proof. apply fold_replace_map. Qed.

Lemma clean_cases x :
existsb (Ascii.eqb (clean x)) invalid_chars = false
/\ is_path_separator (clean x) = false
/\ (clean x = x \/ clean x = "_"%char)
/\ (is_control x = false -> is_control (clean x) = false).
Proof.
destruct x as [[] [] [] [] [] [] [] []]; vm_compute; repeat split; auto.
Qed.

Lemma rfind_none c p : ~ In c p -> rfind c p = None.
Proof.
induction p as [|x p IH]; intros H; simpl; [reflexivity|].
rewrite IH by (intros Hin; apply H; now right).
destruct (Ascii.eqb_spec x c) as [-> | Hne]; [|reflexivity].
exfalso. apply H. now left.
Qed.

Lemma rfind_app c p q :
rfind c (p ++ q)
= match rfind c q with
  | Some k => Some (length p + k)
  | None => rfind c p
  end.
Proof.
induction p as [|x p IH]; simpl.
- destruct (rfind c q); reflexivity.
- rewrite IH. destruct (rfind c q); reflexivity.
Qed.

Lemma forallb_dots_false body :
In "_"%char body -> forallb (fun x => Ascii.eqb x "."%char) body = false.
Proof.
induction body as [|x body IH]; intros H; [contradiction|].
simpl. destruct H as [-> | H]; [reflexivity|].
rewrite (IH H). apply andb_false_r.
Qed.

(** A sanitized name that carries an underscore splits at its [.jpg]. *)
Lemma splitext_jpg body :
~ In "/"%char body -> In "_"%char body ->
splitext (body ++ str ".jpg") = (body, str ".jpg").
Proof.
intros Hsep Hus. unfold splitext.
assert (Hdot : rfind "."%char (str ".jpg") = Some 0) by reflexivity.
rewrite rfind_app, Hdot.
replace (rfind "/"%char (body ++ str ".jpg")) with (@None nat).
2:{ symmetry. apply rfind_none. intros Hin. apply in_app_or in Hin.
    destruct Hin as [Hin | Hin]; [now apply Hsep|].
    cbn in Hin. repeat (destruct Hin as [Hin | Hin]; [discriminate Hin|]).
    exact Hin. }
cbn [Nat.leb skipn]. rewrite Nat.add_0_r, Nat.sub_0_r.
rewrite firstn_app, firstn_all, Nat.sub_diag. cbn [firstn]. rewrite app_nil_r.
rewrite (forallb_dots_false _ Hus).
rewrite skipn_app, skipn_all, Nat.sub_diag. reflexivity.
Qed.

Lemma ends_with_app suffix p : ends_with suffix (p ++ suffix) = true.
Proof.
assert (Hrefl : forall a, str_eqb a a = true).
{ induction a as [|x a IH]; simpl; [reflexivity|].
  now rewrite Ascii.eqb_refl, IH. }
induction p as [|x p IH]; simpl.
- destruct suffix; simpl; [reflexivity|].
  now rewrite Ascii.eqb_refl, Hrefl.
- rewrite IH. apply orb_true_r.
Qed.

Lemma join_last sep parts last_part x :
In x last_part -> In x (join sep (parts ++ [last_part])).
Proof.
intros H. induction parts as [|p parts IH]; simpl; [exact H|].
destruct (parts ++ [last_part]) eqn:E.
- destruct parts; discriminate E.
- apply in_or_app. right. apply in_or_app. right. exact IH.
Qed.

Lemma join_chars sep parts x :
In x (join sep parts) -> In x sep \/ exists p, In p parts /\ In x p.
Proof.
induction parts as [|p parts IH]; simpl; [contradiction|].
destruct parts as [|q parts].
- intros H. right. exists p. split; [now left | exact H].
- intros H. apply in_app_or in H. destruct H as [H | H].
  + right. exists p. split; [now left | exact H].
  + apply in_app_or in H. destruct H as [H | H]; [now left|].
    destruct (IH H) as [Hs | [p' [Hp' Hx]]]; [now left|].
    right. exists p'. split; [now right | exact Hx].
Qed.

Lemma slice_to_In n : forall (s : pystr) x, In x (slice_to n s) -> In x s.
Proof.
unfold slice_to, pystr.
induction n as [|n IH]; intros s x H; destruct s as [|y s]; simpl in *;
  try contradiction.
destruct H as [H | H]; [now left | right; now apply IH].
Qed.

Lemma digit_printable d : d < 10 -> printable (digit d).
Proof.
intros H. do 10 (destruct d as [|d]; [reflexivity|]). lia.
Qed.

Lemma decimal_aux_printable fuel : forall n acc,
Forall printable acc -> Forall printable (decimal_aux fuel n acc).
Proof.
induction fuel as [|fuel IH]; intros n acc Hacc; cbn [decimal_aux]; [exact Hacc|].
assert (Hd : Forall printable (digit (n mod 10) :: acc)).
{ constructor; [|exact Hacc]. apply digit_printable.
  apply Nat.mod_upper_bound. discriminate. }
destruct (n / 10 =? 0); [exact Hd | now apply IH].
Qed.

Lemma zero_padded_printable w n : Forall printable (zero_padded w n).
Proof.
unfold zero_padded. apply Forall_app. split.
- apply Forall_forall. intros x Hx. apply repeat_spec in Hx. now subst.
- apply decimal_aux_printable. constructor.
Qed.

Lemma timestamp_printable c : Forall printable (timestamp c).
Proof.
assert (Hus : Forall printable (str "_")) by (repeat constructor).
unfold timestamp, strftime.
apply Forall_app. split.
- repeat first [ apply zero_padded_printable | exact Hus | apply Forall_app; split ].
- destruct (microsecond c).
  + apply Forall_app. split; [exact Hus | apply zero_padded_printable].
  + repeat constructor.
Qed.

Lemma timestamp_underscore c : In "_"%char (timestamp c).
Proof.
unfold timestamp, strftime.
apply in_or_app. left.
do 3 (apply in_or_app; right). apply in_or_app. left. now left.
Qed.

Section Contract.

Variables hostname mac username : pystr.
Variable c : clock.

Let joined := join (str "_") (components hostname mac username c).

Lemma components_last :
exists parts,
components hostname mac username c = parts ++ [timestamp c]
/\ forall p, In p parts ->
     p = slice_to 30 hostname \/ p = slice_to 20 mac \/ p = slice_to 20 username.
Proof.
unfold components.
exists ((if truthy hostname && negb (str_eqb hostname (str "unknown_host"))
       then [slice_to 30 hostname] else [])
      ++ (if truthy mac && negb (str_eqb mac (str "unknown-mac"))
          then [slice_to 20 mac] else [])
      ++ (if truthy username && negb (str_eqb username (str "unknown_user"))
          then [slice_to 20 username] else [])).
split; [now repeat rewrite <- app_assoc|].
intros p Hp.
repeat (apply in_app_or in Hp; destruct Hp as [Hp | Hp]);
match type of Hp with
| In _ (if ?b then _ else _) => destruct b
end; cbn in Hp; intuition.
Qed.

Lemma joined_underscore : In "_"%char joined.
Proof.
unfold joined. destruct components_last as [parts [-> _]].
apply join_last, timestamp_underscore.
Qed.

Lemma joined_chars x :
In x joined ->
x = "_"%char \/ In x hostname \/ In x mac \/ In x username \/ In x (timestamp c).
Proof.
unfold joined. destruct components_last as [parts [-> Hparts]].
intros H. apply join_chars in H. destruct H as [H | [p [Hp Hx]]].
- cbn in H. destruct H as [<- | []]. now left.
- apply in_app_or in Hp. destruct Hp as [Hp | Hp].
+ destruct (Hparts p Hp) as [-> | [-> | ->]];
    apply slice_to_In in Hx; tauto.
+ cbn in Hp. destruct Hp as [<- | []]. tauto.
Qed.

(** The generated name is a sanitized body, cut to 196 characters when it
is too long, followed by the extension. *)
Lemma generated_shape :
exists body,
_generate_filename_safe hostname mac username c = body ++ str ".jpg"
/\ length body <= 196
/\ forall x, In x body -> exists y, In y joined /\ x = clean y.
Proof.
unfold _generate_filename_safe. fold joined.
rewrite sanitize_map, map_app.
change (map clean (str ".jpg")) with (str ".jpg").
assert (Hsep : ~ In "/"%char (map clean joined)).
{ intros Hin. apply in_map_iff in Hin. destruct Hin as [y [Hy _]].
destruct (clean_cases y) as [_ [Hp _]]. rewrite Hy in Hp. discriminate Hp. }
assert (Hus : In "_"%char (map clean joined)).
{ change "_"%char with (clean "_"%char). apply in_map, joined_underscore. }
destruct (200 <? length (map clean joined ++ str ".jpg")) eqn:Hlen.
- rewrite (splitext_jpg _ Hsep Hus).
exists (slice_to (200 - length (str ".jpg")) (map clean joined)).
split; [reflexivity|]. split.
+ unfold slice_to.
  pose proof (firstn_le_length (200 - length (str ".jpg")) (map clean joined)) as H.
  cbn in H. cbn. lia.
+ intros x Hx. apply slice_to_In in Hx.
  apply in_map_iff in Hx. destruct Hx as [y [<- Hy]]. now exists y.
- exists (map clean joined). split; [reflexivity|]. split.
+ apply Nat.ltb_ge in Hlen. rewrite length_app in Hlen. cbn in Hlen. lia.
+ intros x Hx. apply in_map_iff in Hx. destruct Hx as [y [<- Hy]]. now exists y.
Qed.

(** What the generated name does guarantee: none of the thirteen
replaced characters (so no path separator), the extension [.jpg], at
most 200 characters; and no control character when the three
identity strings contain none. *)
Lemma filename_guarantees :
let name := _generate_filename_safe hostname mac username c in
Forall (fun x => ~ In x invalid_chars) name
/\ existsb is_path_separator name = false
/\ ends_with (str ".jpg") name = true
/\ length name <= 200
/\ (existsb is_control hostname = false ->
  existsb is_control mac = false ->
  existsb is_control username = false ->
  existsb is_control name = false).
Proof.
cbv zeta. destruct generated_shape as [body [-> [Hlen Hbody]]].
assert (Hnot : forall l (x : ascii), existsb (Ascii.eqb x) l = false -> ~ In x l).
{ intros l x Hx Hin.
assert (existsb (Ascii.eqb x) l = true); [|congruence].
apply existsb_exists. exists x. split; [exact Hin | apply Ascii.eqb_refl]. }
assert (Hfalse : forall (p : ascii -> bool) l,
         (forall x, In x l -> p x = false) -> existsb p l = false).
{ intros p l H. induction l as [|x l IH]; [reflexivity|].
simpl. rewrite (H x (or_introl eq_refl)). apply IH.
intros y Hy. apply H. now right. }
split; [|split; [|split; [|split]]].
- apply Forall_app. split.
+ apply Forall_forall. intros x Hx. destruct (Hbody x Hx) as [y [_ ->]].
  apply Hnot, clean_cases.
+ repeat constructor; apply Hnot; reflexivity.
- apply Hfalse. intros x Hx. apply in_app_or in Hx. destruct Hx as [Hx | Hx].
+ destruct (Hbody x Hx) as [y [_ ->]]. apply clean_cases.
+ cbn in Hx. repeat (destruct Hx as [<- | Hx]; [reflexivity|]). contradiction.
- apply ends_with_app.
- rewrite length_app. cbn. lia.
- intros Hh Hm Hu. apply Hfalse. intros x Hx.
apply in_app_or in Hx. destruct Hx as [Hx | Hx].
+ destruct (Hbody x Hx) as [y [Hy ->]]. apply clean_cases.
  assert (Hin : forall l, existsb is_control l = false -> In y l ->
                          is_control y = false).
  { intros l Hl Hyl. destruct (is_control y) eqn:E; [|reflexivity].
    assert (existsb is_control l = true); [|congruence].
    apply existsb_exists. now exists y. }
  destruct (joined_chars y Hy) as [-> | [H | [H | [H | H]]]];
    [reflexivity | exact (Hin _ Hh H) | exact (Hin _ Hm H)
    | exact (Hin _ Hu H) |].
  pose proof (timestamp_printable c) as Ht.
  rewrite Forall_forall in Ht. now apply Ht.
+ cbn in Hx. repeat (destruct Hx as [<- | Hx]; [reflexivity|]). contradiction.
Qed.

End Contract.

End FilenameFacts.

(** ** The two read loops *)

Section Loops.

Variable c : camera.
Variable cam_id : nat.

Lemma mkState_eq t t' h r r' l l' :
  t = t' -> r = r' -> l = l' -> mkState t h r l = mkState t' h r' l'.
Proof. intros; subst; reflexivity. Qed.

Ltac same_state :=
  f_equal; apply mkState_eq;
  [ repeat rewrite <- app_assoc; simpl; reflexivity | lia | lia ].

Lemma count_reads_app t1 t2 :
  count_reads (t1 ++ t2) = count_reads t1 + count_reads t2.
Proof.
  induction t1 as [|ev t1 IH]; simpl; [reflexivity|].
  destruct ev; simpl; rewrite ?IH; reflexivity.
Qed.

Lemma count_reads_failed ms n : count_reads (failed_attempts cam_id ms n) = n.
Proof. induction n; simpl; congruence. Qed.

(** A loop that meets [f] rejected reads and then an accepted one stops
    there with [test_success = True]. *)
Lemma test_loop_breaks attempts : forall f s,
  f < attempts ->
  (forall j, j < f -> accepted c (reads s + j) = false) ->
  accepted c (reads s + f) = true ->
  test_loop c cam_id attempts s =
    (Returns true,
     mkState (trace s ++ failed_attempts cam_id 100 f ++ [Read cam_id])
             (cap s) (reads s + f + 1) (releases s)).
Proof.
  induction attempts as [|n IH]; intros f s Hf Hbad Hgood; [lia|].
  destruct f as [|f].
  - rewrite Nat.add_0_r in Hgood. unfold accepted in Hgood.
    simpl. unfold bind, try_except, cap_read.
    destruct (read c (reads s)) as [rf|e]; [|discriminate].
    rewrite Hgood. unfold ret. simpl. same_state.
  - assert (H0 : accepted c (reads s) = false).
    { specialize (Hbad 0 ltac:(lia)). now rewrite Nat.add_0_r in Hbad. }
    assert (Hbad' : forall j, j < f -> accepted c (S (reads s) + j) = false).
    { intros j Hj. replace (S (reads s) + j) with (reads s + S j) by lia.
      apply Hbad. lia. }
    assert (Hgood' : accepted c (S (reads s) + f) = true).
    { now replace (S (reads s) + f) with (reads s + S f) by lia. }
    unfold accepted in H0.
    cbn [test_loop]. unfold bind at 1. unfold try_except, bind, cap_read.
    destruct (read c (reads s)) as [rf|e].
    + rewrite H0. cbn.
      erewrite IH; [cbn; same_state | lia | exact Hbad' | exact Hgood'].
    + cbn.
      erewrite IH; [cbn; same_state | lia | exact Hbad' | exact Hgood'].
Qed.

(** A loop whose reads are all rejected runs to the end with
    [test_success = False]. *)
Lemma test_loop_exhausts attempts : forall s,
  (forall j, j < attempts -> accepted c (reads s + j) = false) ->
  test_loop c cam_id attempts s =
    (Returns false,
     mkState (trace s ++ failed_attempts cam_id 100 attempts)
             (cap s) (reads s + attempts) (releases s)).
Proof.
  induction attempts as [|n IH]; intros s Hbad.
  - simpl. unfold ret. rewrite app_nil_r, Nat.add_0_r. now destruct s.
  - assert (H0 : accepted c (reads s) = false).
    { specialize (Hbad 0 ltac:(lia)). now rewrite Nat.add_0_r in Hbad. }
    assert (Hbad' : forall j, j < n -> accepted c (S (reads s) + j) = false).
    { intros j Hj. replace (S (reads s) + j) with (reads s + S j) by lia.
      apply Hbad. lia. }
    unfold accepted in H0.
    cbn [test_loop]. unfold bind at 1. unfold try_except, bind, cap_read.
    destruct (read c (reads s)) as [rf|e].
    + rewrite H0. cbn. erewrite IH; [cbn; same_state | exact Hbad'].
    + cbn. erewrite IH; [cbn; same_state | exact Hbad'].
Qed.

Lemma capture_failed_good x :
  capture_failed (Some (fst x), snd x) = negb (good x).
Proof.
  destruct x as [[|] [size|]]; unfold capture_failed, good; simpl; try reflexivity.
  destruct size; reflexivity.
Qed.

(** The authoritative loop stops at the first accepted read and hands
    that read on as [ret, frame]. *)
Lemma capture_loop_breaks attempts : forall f rf s,
  f < attempts ->
  (forall j, j < f -> accepted c (reads s + j) = false) ->
  accepted c (reads s + f) = true ->
  exists rf',
    capture_loop c cam_id attempts rf s =
      (Returns rf',
       mkState (trace s ++ failed_attempts cam_id 50 f ++ [Read cam_id])
               (cap s) (reads s + f + 1) (releases s))
    /\ capture_failed rf' = false.
Proof.
  induction attempts as [|n IH]; intros f rf s Hf Hbad Hgood; [lia|].
  destruct f as [|f].
  - rewrite Nat.add_0_r in Hgood. unfold accepted in Hgood.
    simpl. unfold bind, try_except, cap_read.
    destruct (read c (reads s)) as [x|e]; [|discriminate].
    rewrite Hgood. unfold ret. simpl.
    exists (Some (fst x), snd x). split; [same_state|].
    rewrite capture_failed_good, Hgood. reflexivity.
  - assert (H0 : accepted c (reads s) = false).
    { specialize (Hbad 0 ltac:(lia)). now rewrite Nat.add_0_r in Hbad. }
    assert (Hbad' : forall j, j < f -> accepted c (S (reads s) + j) = false).
    { intros j Hj. replace (S (reads s) + j) with (reads s + S j) by lia.
      apply Hbad. lia. }
    assert (Hgood' : accepted c (S (reads s) + f) = true).
    { now replace (S (reads s) + f) with (reads s + S f) by lia. }
    unfold accepted in H0.
    cbn [capture_loop]. unfold bind at 1. unfold try_except, bind, cap_read.
    destruct (read c (reads s)) as [x|e].
    + rewrite H0. cbn.
      match goal with
      | |- context [capture_loop _ _ n ?r ?st] =>
          destruct (IH f r st ltac:(lia) Hbad' Hgood') as [rf' [Hrun Hrf']]
      end.
      rewrite Hrun. exists rf'. split; [cbn; same_state | exact Hrf'].
    + cbn.
      match goal with
      | |- context [capture_loop _ _ n ?r ?st] =>
          destruct (IH f r st ltac:(lia) Hbad' Hgood') as [rf' [Hrun Hrf']]
      end.
      rewrite Hrun. exists rf'. split; [cbn; same_state | exact Hrf'].
Qed.

(** When every attempt is rejected the variables [ret, frame] still fail
    the check after the loop. *)
Lemma capture_loop_exhausts attempts : forall rf s,
  capture_failed rf = true ->
  (forall j, j < attempts -> accepted c (reads s + j) = false) ->
  exists rf',
    capture_loop c cam_id attempts rf s =
      (Returns rf',
       mkState (trace s ++ failed_attempts cam_id 50 attempts)
               (cap s) (reads s + attempts) (releases s))
    /\ capture_failed rf' = true.
Proof.
  induction attempts as [|n IH]; intros rf s Hrf Hbad.
  - exists rf. split; [|exact Hrf].
    simpl. unfold ret. rewrite app_nil_r, Nat.add_0_r. now destruct s.
  - assert (H0 : accepted c (reads s) = false).
    { specialize (Hbad 0 ltac:(lia)). now rewrite Nat.add_0_r in Hbad. }
    assert (Hbad' : forall j, j < n -> accepted c (S (reads s) + j) = false).
    { intros j Hj. replace (S (reads s) + j) with (reads s + S j) by lia.
      apply Hbad. lia. }
    unfold accepted in H0.
    cbn [capture_loop]. unfold bind at 1. unfold try_except, bind, cap_read.
    destruct (read c (reads s)) as [x|e].
    + rewrite H0. cbn.
      match goal with
      | |- context [capture_loop _ _ n ?r ?st] =>
          destruct (IH r st) as [rf' [Hrun Hrf']];
          [rewrite capture_failed_good, H0; reflexivity | exact Hbad' |]
      end.
      rewrite Hrun. exists rf'. split; [cbn; same_state | exact Hrf'].
    + cbn.
      match goal with
      | |- context [capture_loop _ _ n ?r ?st] =>
          destruct (IH r st Hrf Hbad') as [rf' [Hrun Hrf']]
      end.
      rewrite Hrun. exists rf'. split; [cbn; same_state | exact Hrf'].
Qed.

(** Among [n] reads from the [k]-th on there is a first accepted one, or
    none is accepted. *)
Lemma first_accepted n : forall k,
  (exists f, f < n /\ (forall j, j < f -> accepted c (k + j) = false)
             /\ accepted c (k + f) = true)
  \/ (forall j, j < n -> accepted c (k + j) = false).
Proof.
  induction n as [|n IH]; intros k.
  - right. intros j Hj. lia.
  - destruct (accepted c k) eqn:Hk.
    + left. exists 0. repeat split; [lia | intros; lia | now rewrite Nat.add_0_r].
    + destruct (IH (S k)) as [[f [Hf [Hbad Hgood]]] | Hnone].
      * left. exists (S f). repeat split; [lia | |].
        -- intros [|j] Hj; [now rewrite Nat.add_0_r|].
           replace (k + S j) with (S k + j) by lia. apply Hbad. lia.
        -- now replace (k + S f) with (S k + f) by lia.
      * right. intros [|j] Hj; [now rewrite Nat.add_0_r|].
        replace (k + S j) with (S k + j) by lia. apply Hnone. lia.
Qed.

Lemma failed_attempts_read_or_sleep ms n :
  Forall (read_or_sleep cam_id) (failed_attempts cam_id ms n).
Proof.
  induction n as [|n IH]; cbn [failed_attempts]; [constructor|].
  constructor; [now left|]. constructor; [right; now exists ms | exact IH].
Qed.

(** The validation loop never raises, whatever the reads do, and all it
    leaves in the trace are its reads and its sleeps. *)
Lemma test_loop_swallows attempts s :
  exists b s' seg,
    test_loop c cam_id attempts s = (Returns b, s')
    /\ trace s' = trace s ++ seg
    /\ Forall (read_or_sleep cam_id) seg.
Proof.
  destruct (first_accepted attempts (reads s)) as [[f [Hf [Hbad Hgood]]] | Hnone].
  - rewrite (@test_loop_breaks attempts f s Hf Hbad Hgood).
    eexists; eexists; eexists. split; [reflexivity|]. split; [reflexivity|].
    apply Forall_app. split; [apply failed_attempts_read_or_sleep|].
    constructor; [now left | constructor].
  - rewrite (@test_loop_exhausts attempts s Hnone).
    eexists; eexists; eexists. split; [reflexivity|]. split; [reflexivity|].
    apply failed_attempts_read_or_sleep.
Qed.

(** So does the authoritative loop. *)
Lemma capture_loop_swallows attempts : forall rf s,
  exists rf' s' seg,
    capture_loop c cam_id attempts rf s = (Returns rf', s')
    /\ trace s' = trace s ++ seg
    /\ Forall (read_or_sleep cam_id) seg.
Proof.
  induction attempts as [|n IH]; intros rf s.
  - exists rf, s, []. cbn. rewrite app_nil_r. repeat split. constructor.
  - cbn [capture_loop]. unfold bind, try_except, cap_read, sleep, emit, ret.
    cbn [fst snd trace cap reads releases].
    destruct (read c (reads s)) as [x|e].
    + destruct (good x); cbn [fst snd].
      * eexists; eexists; exists [Read cam_id].
        split; [reflexivity|]. split; [reflexivity|].
        constructor; [now left | constructor].
      * match goal with
        | |- context [capture_loop _ _ n ?r ?st] =>
            destruct (IH r st) as [rf' [s' [seg [Hrun [Ht Hseg]]]]]
        end.
        exists rf', s', (Read cam_id :: Sleep 50 :: seg).
        split; [exact Hrun|]. split.
        -- rewrite Ht. cbn [trace]. repeat rewrite <- app_assoc. reflexivity.
        -- constructor; [now left|]. constructor; [right; now exists 50 | exact Hseg].
    + cbn [fst snd].
      match goal with
      | |- context [capture_loop _ _ n ?r ?st] =>
          destruct (IH r st) as [rf' [s' [seg [Hrun [Ht Hseg]]]]]
      end.
      exists rf', s', (Read cam_id :: Sleep 50 :: seg).
      split; [exact Hrun|]. split.
      * rewrite Ht. cbn [trace]. repeat rewrite <- app_assoc. reflexivity.
      * constructor; [now left|]. constructor; [right; now exists 50 | exact Hseg].
Qed.

(** A read that raises is a rejected attempt: the loop sleeps and goes on
    with the attempts it has left. *)
Lemma test_loop_read_raises attempts s e :
  read c (reads s) = Raises e ->
  test_loop c cam_id (S attempts) s
  = test_loop c cam_id attempts
      (mkState (trace s ++ [Read cam_id; Sleep 100]) (cap s) (S (reads s))
               (releases s)).
Proof.
  intros H. cbn [test_loop]. unfold bind, try_except, cap_read, sleep, emit, ret.
  cbn [fst snd trace cap reads releases]. rewrite H.
  cbn [fst snd trace cap reads releases]. rewrite <- app_assoc. reflexivity.
Qed.

Lemma capture_loop_read_raises attempts rf s e :
  read c (reads s) = Raises e ->
  capture_loop c cam_id (S attempts) rf s
  = capture_loop c cam_id attempts rf
      (mkState (trace s ++ [Read cam_id; Sleep 50]) (cap s) (S (reads s))
               (releases s)).
Proof.
  intros H. cbn [capture_loop]. unfold bind, try_except, cap_read, sleep, emit, ret.
  cbn [fst snd trace cap reads releases]. rewrite H.
  cbn [fst snd trace cap reads releases]. rewrite <- app_assoc. reflexivity.
Qed.

End Loops.

(** ** What a computation appends to the trace *)

Section Emits.

Context {con : console}.
Variable P : event -> Prop.

Lemma emits_ret A (a : A) : emits P (ret a).
Proof. intros s. exists []. simpl. rewrite app_nil_r. auto. Qed.

Lemma emits_raise A e : emits P (@raise A e).
Proof. intros s. exists []. simpl. rewrite app_nil_r. auto. Qed.

Lemma emits_emit ev : P ev -> emits P (emit ev).
Proof. intros H s. exists [ev]. simpl. auto. Qed.

Lemma emits_bind A B (m : M A) (k : A -> M B) :
  emits P m -> (forall a, emits P (k a)) -> emits P (bind m k).
Proof.
  intros Hm Hk s. unfold bind.
  destruct (Hm s) as [seg1 [Ht1 [HP1 Hc1]]].
  destruct (m s) as [[a|e] s1]; simpl in *.
  - destruct (Hk a s1) as [seg2 [Ht2 [HP2 Hc2]]].
    exists (seg1 ++ seg2). rewrite Ht2, Ht1, app_assoc, Hc2, Hc1.
    repeat split. now apply Forall_app.
  - exists seg1. auto.
Qed.

Lemma emits_try_except A (m : M A) (h : exn -> M A) :
  emits P m -> (forall e, emits P (h e)) -> emits P (try_except m h).
Proof.
  intros Hm Hh s. unfold try_except.
  destruct (Hm s) as [seg1 [Ht1 [HP1 Hc1]]].
  destruct (m s) as [[a|e] s1]; simpl in *.
  - exists seg1. auto.
  - destruct (Hh e s1) as [seg2 [Ht2 [HP2 Hc2]]].
    exists (seg1 ++ seg2). rewrite Ht2, Ht1, app_assoc, Hc2, Hc1.
    repeat split. now apply Forall_app.
Qed.

Lemma emits_call ev r : P ev -> emits P (call ev r).
Proof.
  intros H. apply emits_bind; [now apply emits_emit|].
  intros _. destruct r; [apply emits_raise | apply emits_ret].
Qed.

Lemma emits_ask A ev (r : answer A) : P ev -> emits P (ask ev r).
Proof.
  intros H. apply emits_bind; [now apply emits_emit|].
  intros _. destruct r; [apply emits_ret | apply emits_raise].
Qed.

Lemma emits_log msg lvl : P (Log lvl msg) -> emits P (_log_event msg lvl).
Proof.
  intros H. apply emits_bind; [now apply emits_emit|]. intros _.
  apply emits_try_except.
  - destruct (print_raises lvl msg); [apply emits_raise | apply emits_ret].
  - intros _. destruct (fallback_raises msg); [apply emits_raise | apply emits_ret].
Qed.

Lemma emits_sleep ms : P (Sleep ms) -> emits P (sleep ms).
Proof. apply emits_emit. Qed.

End Emits.

Section CycleEmits.

Context {con : console}.
Variable self : capture_object.
Variable c : camera.
Variable cam_id : nat.

Let Q := quiet c cam_id.

Lemma emits_cap_read : emits Q (cap_read c cam_id).
Proof.
  intros s. exists [Read cam_id]. unfold cap_read. simpl.
  split; [reflexivity|split; [|reflexivity]]. repeat constructor.
Qed.

Lemma emits_cap_release : emits Q (cap_release c cam_id).
Proof.
  intros s. unfold cap_release. simpl.
  exists [Release cam_id (returned (release c (releases s)))].
  split; [|split; [|reflexivity]].
  - unfold returned. destruct (release c (releases s)); reflexivity.
  - repeat constructor. exists (releases s). reflexivity.
Qed.

Ltac emits_step :=
  first
    [ match goal with H : _ |- _ => apply H end
    | progress cbv zeta
    | apply emits_ret
    | apply emits_raise
    | apply emits_cap_read
    | apply emits_cap_release
    | apply emits_log; exact I
    | apply emits_sleep; exact I
    | apply emits_emit; exact I
    | apply emits_call; exact I
    | apply emits_ask; exact I
    | match goal with
      | |- emits _ (match ?x with _ => _ end) => destruct x
      end
    | apply emits_bind; [|intros ?]
    | apply emits_try_except; [|intros ?] ].

Lemma emits_test_loop attempts : emits Q (test_loop c cam_id attempts).
Proof. induction attempts as [|n IH]; simpl; repeat emits_step. Qed.

Lemma emits_capture_loop attempts : forall rf,
  emits Q (capture_loop c cam_id attempts rf).
Proof. induction attempts as [|n IH]; intros rf; simpl; repeat emits_step. Qed.

Lemma emits_save filename : emits Q (save c cam_id filename).
Proof. unfold save. repeat emits_step. Qed.

Lemma emits_save_handlers e : emits Q (save_handlers e).
Proof. unfold save_handlers. repeat emits_step. Qed.

Lemma emits_use_device : emits Q (use_device self c cam_id).
Proof.
  pose proof emits_test_loop as Ht.
  pose proof emits_capture_loop as Hc.
  pose proof emits_save as Hs.
  pose proof emits_save_handlers as Hh.
  unfold use_device, cap_isOpened, cap_set. repeat emits_step.
Qed.

Lemma emits_cycle_handlers e : emits Q (cycle_handlers cam_id e).
Proof. unfold cycle_handlers. repeat emits_step. Qed.

End CycleEmits.

(** ** A console that takes every line *)

Section Logging.

Context {con : console}.

(** When the console takes the line, [_log_event] records the call and
    returns. *)
Lemma log_event_emit msg lvl {Hline : takes_line con lvl msg} :
  _log_event msg lvl = emit (Log lvl msg).
Proof.
  unfold _log_event.
  destruct Hline as [E | E]; rewrite E;
    [|destruct (print_raises lvl msg)]; reflexivity.
Qed.

Lemma log_event_run msg lvl {Hline : takes_line con lvl msg} s :
  _log_event msg lvl s
  = (Returns tt, mkState (trace s ++ [Log lvl msg]) (cap s) (reads s) (releases s)).
Proof. now rewrite log_event_emit. Qed.

(** When it refuses the line twice, [_log_event] records the call and
    raises what the second [print] raised. *)
Lemma log_event_refused msg lvl e0 e s :
  print_raises lvl msg = Some e0 -> fallback_raises msg = Some e ->
  _log_event msg lvl s
  = (Raises e, mkState (trace s ++ [Log lvl msg]) (cap s) (reads s) (releases s)).
Proof.
  intros Hp Hf. unfold _log_event, bind, try_except, emit, raise.
  rewrite Hp, Hf. reflexivity.
Qed.

End Logging.

(** ** The shape of one cycle *)

Section CycleShape.

Context {con : console} {Hcon : takes_every_line con}.
Variable self : capture_object.
Variable c : camera.
Variable cam_id : nat.

Lemma cycle_handlers_run e s :
  cycle_handlers cam_id e s =
    (Returns (handler_result e),
     mkState (trace s ++ [Log ERROR (handler_message cam_id e)])
             (cap s) (reads s) (releases s)).
Proof. unfold cycle_handlers. destruct e; rewrite log_event_emit; reflexivity. Qed.

Lemma cycle_finally_run s :
  cycle_finally c cam_id s =
    (Returns tt,
     match cap s with
     | Some _ =>
         mkState (trace s ++ [Release cam_id (returned (release c (releases s)))])
                 (cap s) (reads s) (S (releases s))
     | None => s
     end).
Proof.
  unfold cycle_finally, try_except, cap_release, ret.
  destruct (cap s); [|reflexivity].
  destruct (release c (releases s)); reflexivity.
Qed.

(** Every pass of the loop body ends normally.  Either the constructor
    raised, and the pass is three events long; or a handle was bound to
    [cap], and the pass ends with the [release] of the [finally] block,
    with no other open attempt in between. *)
Lemma cycle_shape s :
  exists r s', cycle self c cam_id s = (Returns r, s') /\
    match video_capture c with
    | Raises e =>
        r = handler_result e /\
        trace s' = trace s ++ [Log DEBUG (TryingCamera cam_id);
                               VideoCapture cam_id None;
                               Log ERROR (handler_message cam_id e)]
    | Returns opened =>
        exists mid k,
          trace s' = trace s ++ Log DEBUG (TryingCamera cam_id)
                                :: VideoCapture cam_id (Some opened)
                                :: mid ++ [Release cam_id (returned (release c k))]
          /\ Forall (quiet c cam_id) mid
    end.
Proof.
  unfold cycle, cycle_body, try_finally. rewrite log_event_emit.
  unfold bind at 1. unfold try_except. unfold bind at 1. unfold bind at 1.
  unfold emit, cv2_VideoCapture. cbn [trace cap reads releases].
  destruct (video_capture c) as [opened|e] eqn:Hvc.
  - set (s1 := mkState _ (Some cam_id) 0 0).
    destruct (emits_use_device self c cam_id s1) as [seg [Ht [Hq Hcap]]].
    destruct (use_device self c cam_id s1) as [[r|e] s2]; cbn [snd] in *.
    + rewrite cycle_finally_run. rewrite Hcap. cbn [cap s1].
      eexists; eexists; split; [reflexivity|].
      exists seg, (releases s2). split; [|exact Hq].
      cbn [trace]. rewrite Ht. unfold s1. cbn [trace].
      repeat rewrite <- app_assoc. reflexivity.
    + rewrite cycle_handlers_run, cycle_finally_run. cbn [cap trace releases].
      rewrite Hcap. cbn [cap s1].
      eexists; eexists; split; [reflexivity|].
      exists (seg ++ [Log ERROR (handler_message cam_id e)]), (releases s2).
      split.
      * cbn [trace]. rewrite Ht. unfold s1. cbn [trace].
        repeat rewrite <- app_assoc. reflexivity.
      * apply Forall_app. split; [exact Hq|]. repeat constructor.
  - rewrite cycle_handlers_run, cycle_finally_run. cbn [cap trace].
    eexists; eexists; split; [reflexivity|].
    split; [reflexivity|].
    cbn [trace]. repeat rewrite <- app_assoc. reflexivity.
Qed.

End CycleShape.

(** ** What can leave [capture] *)

Section Leaves.

Context {con : console}.
Variable self : capture_object.

(** [_log_event] raises only what the console raised from the second
    [print]. *)
Lemma log_event_raises msg lvl s e s' :
  _log_event msg lvl s = (Raises e, s') -> refused_line e.
Proof.
  unfold _log_event, bind, try_except, emit, ret, raise.
  destruct (print_raises lvl msg) as [e0|] eqn:Hp; [|discriminate].
  destruct (fallback_raises msg) as [e1|] eqn:Hf; [|discriminate].
  intros H. injection H as <- _. exists lvl, msg, e0. auto.
Qed.

Lemma cycle_finally_returns c cam_id s : fst (cycle_finally c cam_id s) = Returns tt.
Proof. now rewrite cycle_finally_run. Qed.

(** What leaves a pass of the loop was raised by a log call of one of the
    handlers of the pass. *)
Lemma cycle_raises c cam_id s e s' :
  cycle self c cam_id s = (Raises e, s') -> refused_line e.
Proof.
  unfold cycle, try_finally. unfold bind at 1. unfold try_except at 1.
  destruct (cycle_body self c cam_id _) as [[r|e0] s1].
  - pose proof (cycle_finally_returns c cam_id s1) as Hfin.
    destruct (cycle_finally c cam_id s1) as [[[]|e1] s2]; [discriminate|discriminate Hfin].
  - destruct (cycle_handlers cam_id e0 s1) as [[r|e1] s2] eqn:Hh.
    + pose proof (cycle_finally_returns c cam_id s2) as Hfin.
      destruct (cycle_finally c cam_id s2) as [[[]|e2] s3];
        [discriminate|discriminate Hfin].
    + pose proof (cycle_finally_returns c cam_id s2) as Hfin.
      destruct (cycle_finally c cam_id s2) as [[[]|e2] s3];
        [|discriminate Hfin].
      intros H. injection H as <- _.
      unfold cycle_handlers in Hh.
      destruct e0; unfold bind in Hh;
        match type of Hh with
        | context [_log_event ?m ?l s1] =>
            destruct (_log_event m l s1) as [[[]|e3] s4] eqn:Hlog
        end; try discriminate Hh;
        injection Hh as <- _; exact (log_event_raises _ _ _ Hlog).
Qed.

Lemma for_cam_id_raises w cam_ids : forall cameras_tried s e s',
  for_cam_id self w cam_ids cameras_tried s = (Raises e, s') -> refused_line e.
Proof.
  induction cam_ids as [|cam_id rest IH]; intros n s e s'; cbn [for_cam_id].
  - unfold bind.
    destruct (_log_event (NoCamerasAvailable n) WARNING s) as [[[]|e0] s0] eqn:Hlog;
      [discriminate|].
    intros H. injection H as <- _. exact (log_event_raises _ _ _ Hlog).
  - unfold bind at 1.
    destruct (cycle self (w cam_id) cam_id s) as [[[|b]|e0] s0] eqn:Hc.
    + apply IH.
    + discriminate.
    + intros H. injection H as <- _. exact (cycle_raises _ _ _ Hc).
Qed.

(** So an exception leaves [capture] only when the console refused a log
    line twice; no exception of the camera library, of the file system or
    of the clock does. *)
Lemma capture_upto_raises n w s e s' :
  capture_upto self n w s = (Raises e, s') -> refused_line e.
Proof.
  unfold capture_upto. unfold bind at 1.
  destruct (_log_event StartingCapture INFO s) as [[[]|e0] s0] eqn:Hlog.
  - destruct (negb (modules_available_cv2 self) || negb (cv2_is_not_None self)).
    + unfold bind.
      destruct (_log_event OpenCVNotAvailable ERROR s0) as [[[]|e1] s1] eqn:Hlog1.
      * destruct (_log_event InstallHint INFO s1) as [[[]|e2] s2] eqn:Hlog2;
          [discriminate|].
        intros H. injection H as <- _. exact (log_event_raises _ _ _ Hlog2).
      * intros H. injection H as <- _. exact (log_event_raises _ _ _ Hlog1).
    + apply for_cam_id_raises.
  - intros H. injection H as <- _. exact (log_event_raises _ _ _ Hlog).
Qed.

End Leaves.

(** ** Segments of a trace and the release discipline *)

Lemma at_most_one_open_prefix t1 : forall held t2,
  at_most_one_open held (t1 ++ t2) = true ->
  length (fold_left step_open t1 held) <= 1.
Proof.
  induction t1 as [|ev t1 IH]; intros held t2 H.
  - simpl. destruct t2; simpl in H; apply andb_prop in H;
      destruct H as [H _]; now apply Nat.leb_le.
  - simpl in *. apply andb_prop in H. destruct H as [_ H].
    now apply (IH _ t2).
Qed.

Lemma disciplined_nil frees : disciplined frees [].
Proof. split; [reflexivity|]. intros _. split; reflexivity. Qed.

Lemma disciplined_log frees lvl msg : disciplined frees [Log lvl msg].
Proof. split; [reflexivity|]. intros _. split; reflexivity. Qed.

Lemma disciplined_app frees a b :
  disciplined frees a -> disciplined frees b -> disciplined frees (a ++ b).
Proof.
  intros [Ha1 Ha2] [Hb1 Hb2]. split.
  - intros rest. rewrite <- app_assoc, Ha1, Hb1. reflexivity.
  - intros Hf. destruct (Ha2 Hf) as [Ha3 Ha4]. destruct (Hb2 Hf) as [Hb3 Hb4].
    split.
    + intros rest. rewrite <- app_assoc, Ha3, Hb3. reflexivity.
    + rewrite fold_left_app, Ha4, Hb4. reflexivity.
Qed.

Section CycleDiscipline.

Variable c : camera.
Variable cam_id : nat.

Lemma quiet_released mid : forall held freed rest,
  Forall (quiet c cam_id) mid ->
  held = Some cam_id \/ held = None ->
  released_before_next held (mid ++ Release cam_id freed :: rest)
  = released_before_next None rest.
Proof.
  induction mid as [|ev mid IH]; intros held freed rest Hq Hheld.
  - simpl. destruct Hheld as [-> | ->]; [|reflexivity].
    now rewrite Nat.eqb_refl.
  - inversion Hq as [|? ? Hev Hq']; subst.
    destruct ev; simpl in *; try (now apply IH); try contradiction.
    destruct Hev as [-> _].
    destruct Hheld as [-> | ->].
    + rewrite Nat.eqb_refl. simpl. apply IH; auto.
    + apply IH; auto.
Qed.

Hypothesis release_returns : forall k, release c k = None.

Lemma remove_held held :
  held = [cam_id] \/ held = [] -> remove Nat.eq_dec cam_id held = [].
Proof.
  intros [-> | ->]; simpl; [|reflexivity].
  destruct (Nat.eq_dec cam_id cam_id); [reflexivity | contradiction].
Qed.

Lemma quiet_one_open mid : forall held rest,
  Forall (quiet c cam_id) mid ->
  held = [cam_id] \/ held = [] ->
  at_most_one_open held (mid ++ Release cam_id true :: rest)
  = at_most_one_open [] rest.
Proof.
  induction mid as [|ev mid IH]; intros held rest Hq Hheld.
  - cbn [app at_most_one_open step_open]. rewrite (remove_held Hheld).
    destruct Hheld as [-> | ->]; reflexivity.
  - inversion Hq as [|? ? Hev Hq']; subst.
    assert (Hlen : (length held <=? 1) = true)
      by (destruct Hheld as [-> | ->]; reflexivity).
    cbn [app at_most_one_open]. rewrite Hlen. cbn [andb].
    destruct ev; cbn [step_open]; try (now apply IH); try contradiction.
    destruct Hev as [-> [k ->]]. rewrite release_returns. cbn [returned].
    rewrite (remove_held Hheld). apply IH; auto.
Qed.

Lemma quiet_settles mid : forall held,
  Forall (quiet c cam_id) mid ->
  held = [cam_id] \/ held = [] ->
  fold_left step_open (mid ++ [Release cam_id true]) held = [].
Proof.
  induction mid as [|ev mid IH]; intros held Hq Hheld.
  - simpl. apply remove_held, Hheld.
  - inversion Hq as [|? ? Hev Hq']; subst.
    cbn [app fold_left].
    destruct ev; cbn [step_open]; try (now apply IH); try contradiction.
    destruct Hev as [-> [k ->]]. rewrite release_returns. cbn [returned].
    rewrite (remove_held Hheld). apply IH; auto.
Qed.

End CycleDiscipline.

Section CaptureDiscipline.

Context {con : console} {Hcon : takes_every_line con}.
Variable self : capture_object.
Variable w : world.

Lemma cycle_disciplined cam_id s :
  exists r s' seg,
    cycle self (w cam_id) cam_id s = (Returns r, s')
    /\ trace s' = trace s ++ seg
    /\ disciplined (release_frees w) seg.
Proof.
  destruct (cycle_shape self (w cam_id) cam_id s) as [r [s' [Hrun Hshape]]].
  exists r, s'.
  destruct (video_capture (w cam_id)) as [opened|e].
  - destruct Hshape as [mid [k [Ht Hq]]].
    eexists. split; [exact Hrun|]. split; [exact Ht|].
    split.
    + intros rest. cbn [app released_before_next].
      rewrite <- app_assoc. cbn [app].
      eapply quiet_released; eauto.
    + intros Hfrees. rewrite (Hfrees cam_id k). cbn [returned].
      split.
      * intros rest. cbn [app at_most_one_open length Nat.leb andb step_open].
        rewrite <- app_assoc. cbn [app].
        destruct opened; eapply quiet_one_open; eauto.
      * cbn [fold_left step_open].
        destruct opened; eapply quiet_settles; eauto.
  - destruct Hshape as [_ Ht].
    eexists. split; [exact Hrun|]. split; [exact Ht|].
    split; [reflexivity|]. intros _. split; reflexivity.
Qed.

Lemma for_cam_id_disciplined cam_ids : forall cameras_tried s,
  exists b s' seg,
    for_cam_id self w cam_ids cameras_tried s = (Returns b, s')
    /\ trace s' = trace s ++ seg
    /\ disciplined (release_frees w) seg.
Proof.
  induction cam_ids as [|cam_id rest IH]; intros n s.
  - exists false. eexists. exists [Log WARNING (NoCamerasAvailable n)].
    cbn [for_cam_id]. rewrite log_event_emit.
    split; [reflexivity|]. split; [reflexivity|]. apply disciplined_log.
  - cbn [for_cam_id]. unfold bind at 1.
    destruct (cycle_disciplined cam_id s) as [r [s1 [seg1 [Hrun [Ht1 Hd1]]]]].
    rewrite Hrun. destruct r as [|b].
    + destruct (IH (n + 1) s1) as [b [s2 [seg2 [Hrun2 [Ht2 Hd2]]]]].
      exists b, s2, (seg1 ++ seg2). split; [exact Hrun2|].
      split; [rewrite Ht2, Ht1, app_assoc; reflexivity|].
      now apply disciplined_app.
    + exists b, s1, seg1. split; [reflexivity|]. split; assumption.
Qed.

Lemma capture_upto_disciplined n s :
  exists b s' seg,
    capture_upto self n w s = (Returns b, s')
    /\ trace s' = trace s ++ seg
    /\ disciplined (release_frees w) seg.
Proof.
  unfold capture_upto. repeat rewrite log_event_emit.
  unfold bind at 1. cbn [emit].
  destruct (negb (modules_available_cv2 self) || negb (cv2_is_not_None self)).
  - exists false. eexists.
    exists [Log INFO StartingCapture; Log ERROR OpenCVNotAvailable; Log INFO InstallHint].
    split; [reflexivity|]. cbn [trace].
    split; [repeat rewrite <- app_assoc; reflexivity|].
    split; [reflexivity|]. intros _. split; reflexivity.
  - match goal with
    | |- context [for_cam_id _ _ ?ids ?k ?st] =>
        destruct (for_cam_id_disciplined ids k st) as [b [s2 [seg [Hrun [Ht Hd]]]]]
    end.
    exists b, s2, ([Log INFO StartingCapture] ++ seg).
    split; [exact Hrun|]. split.
    + rewrite Ht. cbn [trace]. rewrite <- app_assoc. reflexivity.
    + apply disciplined_app; [apply disciplined_log | exact Hd].
Qed.

End CaptureDiscipline.

Lemma count_releases_app cam_id t1 t2 :
  count_releases cam_id (t1 ++ t2)
  = count_releases cam_id t1 + count_releases cam_id t2.
Proof.
  induction t1 as [|ev t1 IH]; simpl; [reflexivity|].
  destruct ev; simpl; rewrite ?IH; lia.
Qed.

Lemma count_releases_failed cam_id j ms n :
  count_releases cam_id (failed_attempts j ms n) = 0.
Proof. induction n; simpl; auto. Qed.

Lemma no_error_failed cam_id ms n :
  existsb is_error_log (failed_attempts cam_id ms n) = false.
Proof. induction n as [|n IH]; [reflexivity | exact IH]. Qed.

(** A pass that returns [True] logs nothing at ERROR level. *)
Lemma no_error_success self c cam_id f g n :
  existsb is_error_log (success_events self c cam_id f g n) = false.
Proof.
  unfold success_events, until_return.
  repeat (rewrite existsb_app || rewrite no_error_failed). reflexivity.
Qed.

(** ** Running one cycle symbolically *)

Arguments test_loop : simpl never.
Arguments capture_loop : simpl never.
Arguments _log_event : simpl never.

Ltac unfold_cycle :=
  unfold cycle, cycle_body, use_device, save, save_handlers, cycle_handlers,
    cycle_finally, cap_isOpened, cap_set, cap_release, cv2_VideoCapture,
    call, ask, sleep, emit, try_finally, try_except, bind, ret, raise.

Ltac is_oracle x :=
  lazymatch x with
  | video_capture _ => idtac
  | is_opened_raises _ => idtac
  | set_raises _ => idtac
  | release _ _ => idtac
  | makedirs_raises _ => idtac
  | imwrite _ => idtac
  | exists_after_write _ => idtac
  | getsize _ => idtac
  | destroy_raises _ => idtac
  | exists_finally _ => idtac
  | (_ <? _) => idtac
  | _ => is_var x
  end.

(** The scrutinee that blocks the evaluation of a run. *)
Ltac head_scrutinee t :=
  lazymatch t with
  | match ?x with _ => _ end => head_scrutinee x
  | (match ?x with _ => _ end) _ => head_scrutinee x
  | fst ?x => head_scrutinee x
  | snd ?x => head_scrutinee x
  | negb ?x => head_scrutinee x
  | _ => t
  end.

Ltac case_on x :=
  lazymatch x with
  | test_loop ?c ?i ?n ?s =>
      let f := fresh "f" in
      let Hf := fresh "Hvalid" in
      first
        [ match goal with
          | H : first_accept c _ n ?f0 |- _ =>
              rewrite (@test_loop_breaks c i n f0 s
                         (proj1 H) (proj1 (proj2 H)) (proj2 (proj2 H)))
          | H : none_accepted c _ n |- _ =>
              rewrite (@test_loop_exhausts c i n s H)
          end
        | destruct (first_accepted c n (reads s)) as [[f Hf] | Hf];
          [ rewrite (@test_loop_breaks c i n f s
                       (proj1 Hf) (proj1 (proj2 Hf)) (proj2 (proj2 Hf)))
          | rewrite (@test_loop_exhausts c i n s Hf) ] ]
  | capture_loop ?c ?i ?n ?rf ?s =>
      let g := fresh "g" in
      let Hg := fresh "Hcapt" in
      let rf' := fresh "rf" in
      let Hrun := fresh "Hrun" in
      let Hrf := fresh "Hrf" in
      first
        [ match goal with
          | H : first_accept c _ n ?g0 |- _ =>
              destruct (@capture_loop_breaks c i n g0 rf s
                          (proj1 H) (proj1 (proj2 H)) (proj2 (proj2 H)))
                as [rf' [Hrun Hrf]]
          | H : none_accepted c _ n |- _ =>
              destruct (@capture_loop_exhausts c i n rf s eq_refl H)
                as [rf' [Hrun Hrf]]
          end
        | destruct (first_accepted c n (reads s)) as [[g Hg] | Hg];
          [ destruct (@capture_loop_breaks c i n g rf s
                        (proj1 Hg) (proj1 (proj2 Hg)) (proj2 (proj2 Hg)))
              as [rf' [Hrun Hrf]]
          | destruct (@capture_loop_exhausts c i n rf s eq_refl Hg)
              as [rf' [Hrun Hrf]] ] ];
      rewrite Hrun; clear Hrun
  | capture_failed ?rf =>
      match goal with H : capture_failed rf = _ |- _ => rewrite H end
  | @_log_event ?con ?m ?l ?s =>
      first
        [ rewrite (@log_event_run con m l _ s)
        | match goal with
          | Hp : print_raises l m = Some _, Hf : fallback_raises m = Some _ |- _ =>
              rewrite (@log_event_refused con m l _ _ s Hp Hf)
          end
        | unfold _log_event, bind, try_except, emit, ret, raise ]
  | @print_raises _ _ _ =>
      first
        [ match goal with H : x = _ |- _ => rewrite H end
        | destruct x eqn:? ]
  | @fallback_raises _ _ =>
      first
        [ match goal with H : x = _ |- _ => rewrite H end
        | destruct x eqn:? ]
  | _ =>
      is_oracle x;
      first
        [ match goal with H : x = _ |- _ => rewrite H end
        | destruct x eqn:? ]
  end.

Ltac exec_step :=
  cbn -[Nat.ltb];
  lazymatch goal with
  | |- ?T = _ -> _ => let x := head_scrutinee T in case_on x
  | |- ?T = _ => let x := head_scrutinee T in case_on x
  end.

Ltac exec := unfold_cycle; repeat exec_step; cbn -[Nat.ltb] in *.

(** An event that is in a trace given by its segments. *)
Ltac in_trace :=
  repeat first [ left; reflexivity | right | apply in_or_app; right ].

(** The number of [release] calls in such a trace. *)
Ltac count_trace :=
  cbn [count_releases];
  repeat (rewrite count_releases_app; cbn [count_releases]);
  repeat rewrite count_releases_failed;
  rewrite ?Nat.eqb_refl; cbn; try lia.

Section CycleResults.

Context {con : console} {Hcon : takes_every_line con}.
Variable self : capture_object.
Variable c : camera.
Variable cam_id : nat.

(** What a cycle that ends in [return True] has been through. *)
Lemma cycle_success_inv s :
  fst (cycle self c cam_id s) = Returns (Return true) ->
  video_capture c = Returns true /\ is_opened_raises c = None
  /\ set_raises c = None
  /\ (exists f, first_accept c 0 3 f /\ exists g, first_accept c (f + 1) 3 g)
  /\ imwrite c = Returns true /\ exists_after_write c = true
  /\ (exists n, getsize c = Returns n /\ 100 < n)
  /\ release c 0 = None /\ destroy_raises c = None /\ exists_finally c = true.
Proof.
  exec; intros H; try discriminate H.
  all: repeat match goal with |- _ /\ _ => split end; try reflexivity.
  all: try (exists f; split; [exact Hvalid|]; exists g; exact Hcapt).
  all: eexists; split; [reflexivity|]; now apply Nat.ltb_lt.
Qed.

Lemma cycle_success s f g n :
  video_capture c = Returns true -> is_opened_raises c = None ->
  set_raises c = None ->
  first_accept c 0 3 f -> first_accept c (f + 1) 3 g ->
  imwrite c = Returns true -> exists_after_write c = true ->
  getsize c = Returns n -> 100 < n ->
  release c 0 = None -> destroy_raises c = None -> exists_finally c = true ->
  exists s',
    cycle self c cam_id s = (Returns (Return true), s')
    /\ trace s' = trace s ++ success_events self c cam_id f g n.
Proof.
  intros Hvc Hio Hset Hf Hg Hw Hex Hsz Hn Hr0 Hd Hex2.
  apply Nat.ltb_lt in Hn.
  unfold success_events, until_return.
  destruct (makedirs_raises c) eqn:Hmk; destruct (release c 1) eqn:Hr1;
    eexists; (split; [exec; reflexivity|]); cbn;
    repeat (progress (repeat rewrite <- app_assoc; cbn [app])); reflexivity.
Qed.

(** Without such a [MemoryError] a pass ends in [return True] or goes on
    to the next index; it never ends in [return False]. *)
Lemma cycle_continue_or_success s :
  abort_free c ->
  forall r, fst (cycle self c cam_id s) = r ->
            r = Returns Continue \/ r = Returns (Return true).
Proof.
  intros [Hvc [Hio [Hset Hrel]]] r.
  exec; intros <-; auto; exfalso;
    solve [ now apply Hvc | now apply Hio | now apply Hset
          | now apply (Hrel 0) | now apply (Hrel 1) | now apply (Hrel 2) ].
Qed.

(** A pass whose authoritative reads are all rejected. *)
Lemma cycle_capture_failure s f :
  video_capture c = Returns true -> is_opened_raises c = None ->
  set_raises c = None ->
  first_accept c 0 3 f -> none_accepted c (f + 1) 3 ->
  release c 0 <> Some MemoryError ->
  exists s' tail,
    cycle self c cam_id s = (Returns Continue, s')
    /\ trace s' =
         trace s
         ++ [Log DEBUG (TryingCamera cam_id); VideoCapture cam_id (Some true);
             IsOpened cam_id; SetBufferSize cam_id]
         ++ failed_attempts cam_id 100 f ++ [Read cam_id; Sleep 100]
         ++ failed_attempts cam_id 50 3
         ++ [Log DEBUG (CaptureFailed cam_id);
             Release cam_id (returned (release c 0))]
         ++ tail
    /\ (tail = [Release cam_id (returned (release c 1))]
        \/ exists e, release c 0 = Some e
                     /\ tail = [Log ERROR (handler_message cam_id e);
                                Release cam_id (returned (release c 1))]).
Proof.
  intros Hvc Hio Hset Hf Hg Hr0.
  destruct (release c 0) as [e|] eqn:Hrel0; [destruct e|];
    try (exfalso; now apply Hr0);
    destruct (release c 1) eqn:Hrel1;
    eexists; eexists; (split; [exec; reflexivity|]); cbn;
    (split; [repeat rewrite <- app_assoc; cbn; reflexivity|]);
    first [ left; reflexivity | right; eexists; split; reflexivity ].
Qed.

(** A pass whose write call raises. *)
Lemma cycle_write_raises s f g e :
  video_capture c = Returns true -> is_opened_raises c = None ->
  set_raises c = None ->
  first_accept c 0 3 f -> first_accept c (f + 1) 3 g ->
  imwrite c = Raises e ->
  release c 0 <> Some MemoryError ->
  exists s',
    cycle self c cam_id s = (Returns Continue, s')
    /\ In (Log ERROR match e with
                     | Cv2Error => OpenCVWriteError
                     | _ => FileSaveError
                     end) (trace s')
    /\ In (Release cam_id (returned (release c 0))) (trace s').
Proof.
  intros Hvc Hio Hset Hf Hg Hw Hr0.
  destruct (makedirs_raises c) as [emk|] eqn:Hmk;
    (destruct (release c 0) as [erel|] eqn:Hrel0; [destruct erel|]);
    try (exfalso; now apply Hr0);
    destruct (release c 1) eqn:Hrel1; destruct e;
    eexists; (split; [exec; reflexivity|]); cbn;
    split; repeat rewrite in_app_iff; cbn; tauto.
Qed.

(** An exception of the constructor, of [isOpened], of [set], or of the
    [release] of an unopened handle leaves the body of the outer [try]: the
    handlers log it and decide how the pass ends. *)
Lemma cycle_early_raise s e :
  video_capture c = Raises e
  \/ (exists opened, video_capture c = Returns opened /\ is_opened_raises c = Some e)
  \/ (video_capture c = Returns true /\ is_opened_raises c = None
      /\ set_raises c = Some e)
  \/ (video_capture c = Returns false /\ is_opened_raises c = None
      /\ release c 0 = Some e) ->
  exists s',
    cycle self c cam_id s = (Returns (handler_result e), s')
    /\ In (Log ERROR (handler_message cam_id e)) (trace s').
Proof.
  assert (Hin : forall t (ev : event), In ev (t ++ [ev]))
    by (intros t ev; apply in_or_app; right; now left).
  intros [Hvc | [[opened [Hvc Hio]] | [[Hvc [Hio Hset]] | [Hvc [Hio Hrel]]]]].
  - destruct e; eexists; (split; [exec; reflexivity|]); cbn; apply Hin.
  - destruct e; destruct (release c 0) eqn:Hrel0;
      eexists; (split; [exec; reflexivity|]); cbn;
      apply in_or_app; left; apply Hin.
  - destruct e; destruct (release c 0) eqn:Hrel0;
      eexists; (split; [exec; reflexivity|]); cbn;
      apply in_or_app; left; apply Hin.
  - destruct e; destruct (release c 1) eqn:Hrel1;
      eexists; (split; [exec; reflexivity|]); cbn;
      apply in_or_app; left; apply Hin.
Qed.

(** An exception of the [release] that follows a failed validation or a
    failed capture takes the same way. *)
Lemma cycle_release_raise s e :
  (video_capture c = Returns true /\ is_opened_raises c = None
   /\ set_raises c = None /\ none_accepted c 0 3 /\ release c 0 = Some e)
  \/ (video_capture c = Returns true /\ is_opened_raises c = None
      /\ set_raises c = None
      /\ (exists f, first_accept c 0 3 f /\ none_accepted c (f + 1) 3)
      /\ release c 0 = Some e) ->
  exists s',
    cycle self c cam_id s = (Returns (handler_result e), s')
    /\ In (Log ERROR (handler_message cam_id e)) (trace s').
Proof.
  assert (Hin : forall t (ev : event), In ev (t ++ [ev]))
    by (intros t ev; apply in_or_app; right; now left).
  intros [[Hvc [Hio [Hset [Hnone Hrel]]]]
         | [Hvc [Hio [Hset [[f [Hf Hnone]] Hrel]]]]].
  - destruct e; destruct (release c 1) eqn:Hrel1;
      eexists; (split; [exec; reflexivity|]); cbn;
      apply in_or_app; left; apply Hin.
  - destruct e; destruct (release c 1) eqn:Hrel1;
      eexists; (split; [exec; reflexivity|]); cbn;
      apply in_or_app; left; apply Hin.
Qed.

Lemma cycle_outside_write_block s e :
  raised_outside_write_block c e ->
  exists s',
    cycle self c cam_id s = (Returns (handler_result e), s')
    /\ In (Log ERROR (handler_message cam_id e)) (trace s').
Proof.
  intros [H | [H | [H | [H | [H | H]]]]].
  - apply cycle_early_raise. auto.
  - apply cycle_early_raise. auto.
  - apply cycle_early_raise. auto.
  - apply cycle_early_raise. auto 6.
  - apply cycle_release_raise. auto.
  - apply cycle_release_raise. auto.
Qed.

(** An exception raised inside the write block meets the handlers of the
    write block: the pass logs it, calls [release] and goes on. *)
Lemma cycle_write_block_raises s e :
  reaches_write c -> raised_in_write_block c e -> release_abort_free c ->
  forall r, cycle self c cam_id s = r ->
    fst r = Returns Continue
    /\ exists seg,
         trace (snd r) = trace s ++ seg
         /\ In (Log ERROR (write_error_message e)) seg
         /\ 2 <= count_releases cam_id seg.
Proof.
  intros [Hvc [Hio [Hset [f [g [Hf Hg]]]]]] Hsite Hrel r.
  pose proof (Hrel 0) as Hr0. pose proof (Hrel 1) as Hr1. pose proof (Hrel 2) as Hr2.
  destruct Hsite as [Hw | [[Hw [Hex Hsz]] | [n [Hw [Hex [Hsz [Hn Hsite]]]]]]].
  - destruct e; exec; intros <-; cbn;
      try (exfalso; congruence);
      (split; [reflexivity|]);
      repeat (progress (repeat rewrite <- app_assoc; cbn [app]));
      (eexists; split; [reflexivity|]);
      (split; [in_trace | count_trace]).
  - destruct e; exec; intros <-; cbn;
      try (exfalso; congruence);
      (split; [reflexivity|]);
      repeat (progress (repeat rewrite <- app_assoc; cbn [app]));
      (eexists; split; [reflexivity|]);
      (split; [in_trace | count_trace]).
  - apply Nat.ltb_lt in Hn.
    destruct Hsite as [Hrel0 | [Hrel0 Hd]];
      destruct e; exec; intros <-; cbn;
      try (exfalso; congruence);
      (split; [reflexivity|]);
      repeat (progress (repeat rewrite <- app_assoc; cbn [app]));
      (eexists; split; [reflexivity|]);
      (split; [in_trace | count_trace]).
Qed.

(** The explicit [release] that follows the SUCCESS line raises: the file
    is written and checked, yet the handlers of the write block take the
    pass for a failed one. *)
Lemma cycle_explicit_release_raises s e n :
  reaches_write c ->
  imwrite c = Returns true -> exists_after_write c = true ->
  getsize c = Returns n -> 100 < n ->
  release c 0 = Some e -> release_abort_free c ->
  forall r, cycle self c cam_id s = r ->
    fst r = Returns Continue
    /\ exists seg,
         trace (snd r) = trace s ++ seg
         /\ In (Log SUCCESS
                  (Captured (Filename._generate_filename_safe
                               (hostname self) (mac self) (username self)
                               (clock_now c)) n)) seg
         /\ In (Log ERROR (write_error_message e)) seg
         /\ count_releases cam_id seg = 3.
Proof.
  intros [Hvc [Hio [Hset [f [g [Hf Hg]]]]]] Hw Hex Hsz Hn Hrel0 Hrel r.
  pose proof (Hrel 1) as Hr1. pose proof (Hrel 2) as Hr2.
  apply Nat.ltb_lt in Hn.
  destruct e; exec; intros <-; cbn;
    try (exfalso; congruence);
    (split; [reflexivity|]);
    repeat (progress (repeat rewrite <- app_assoc; cbn [app]));
    (eexists; split; [reflexivity|]);
    (split; [in_trace | split; [in_trace | count_trace]]).
Qed.

(** An exception that leaves the body of the outer [try] meets the
    handlers and then the [finally] block. *)
Lemma cycle_boundary s e s1 :
  cycle_body self c cam_id (mkState (trace s) None (reads s) (releases s))
    = (Raises e, s1) ->
  cycle self c cam_id s =
    (Returns (handler_result e),
     snd (cycle_finally c cam_id
            (mkState (trace s1 ++ [Log ERROR (handler_message cam_id e)])
                     (cap s1) (reads s1) (releases s1)))).
Proof.
  intros Hbody. unfold cycle, try_finally.
  unfold bind at 1. unfold try_except at 1. rewrite Hbody.
  rewrite cycle_handlers_run.
  destruct (cycle_finally c cam_id _) as [[[]|e'] s2] eqn:Hfin.
  - reflexivity.
  - rewrite cycle_finally_run in Hfin. discriminate.
Qed.

End CycleResults.

(** ** From one cycle to the whole run *)

Lemma open_attempts_app t1 t2 :
  open_attempts (t1 ++ t2) = open_attempts t1 ++ open_attempts t2.
Proof.
  induction t1 as [|ev t1 IH]; simpl; [reflexivity|].
  destruct ev; simpl; rewrite ?IH; reflexivity.
Qed.

Lemma quiet_open_attempts c cam_id mid :
  Forall (quiet c cam_id) mid -> open_attempts mid = [].
Proof.
  induction 1 as [|ev mid Hev _ IH]; [reflexivity|].
  destruct ev; simpl in *; try assumption. contradiction.
Qed.

Lemma quiet_holds_nothing c cam_id mid :
  Forall (quiet c cam_id) mid -> fold_left step_open mid [] = [].
Proof.
  induction 1 as [|ev mid Hev _ IH]; [reflexivity|].
  destruct ev; simpl in *; try assumption; try contradiction.
  destruct freed; assumption.
Qed.

Section Run.

Context {con : console} {Hcon : takes_every_line con}.
Variable self : capture_object.
Variable w : world.

(** A run that returns [True] does so from inside the pass of one of the
    indices it was given. *)
Lemma for_cam_id_true cam_ids : forall cameras_tried s,
  fst (for_cam_id self w cam_ids cameras_tried s) = Returns true ->
  exists cam_id s0,
    In cam_id cam_ids
    /\ fst (cycle self (w cam_id) cam_id s0) = Returns (Return true).
Proof.
  induction cam_ids as [|cam_id rest IH]; intros n s H.
  - cbn [for_cam_id] in H. unfold bind in H.
    destruct (_log_event _ _ s) as [[[]|e] s1]; discriminate H.
  - cbn [for_cam_id] in H. unfold bind at 1 in H.
    destruct (cycle self (w cam_id) cam_id s) as [[[|b]|e] s1] eqn:Hc.
    + destruct (IH _ _ H) as [i [s0 [Hin Hi]]].
      exists i, s0. split; [now right | exact Hi].
    + cbn in H. injection H as ->.
      exists cam_id, s. split; [now left | now rewrite Hc].
    + discriminate H.
Qed.

(** When no pass returns, the loop runs over all its indices and the run
    ends with the warning and [False]. *)
Lemma for_cam_id_exhausts cam_ids : forall cameras_tried s,
  (forall cam_id s0, In cam_id cam_ids ->
      exists s1 seg,
        cycle self (w cam_id) cam_id s0 = (Returns Continue, s1)
        /\ trace s1 = trace s0 ++ seg
        /\ open_attempts seg = [cam_id]
        /\ fold_left step_open seg [] = []) ->
  exists s' seg,
    for_cam_id self w cam_ids cameras_tried s = (Returns false, s')
    /\ trace s' = trace s ++ seg
          ++ [Log WARNING (NoCamerasAvailable (cameras_tried + length cam_ids))]
    /\ open_attempts seg = cam_ids
    /\ fold_left step_open seg [] = [].
Proof.
  induction cam_ids as [|cam_id rest IH]; intros n s Hall.
  - eexists. exists []. cbn [for_cam_id]. rewrite log_event_emit.
    cbn. rewrite Nat.add_0_r. repeat split.
  - destruct (Hall cam_id s (or_introl eq_refl))
      as [s1 [seg1 [Hrun [Ht1 [Ha1 Hh1]]]]].
    destruct (IH (n + 1) s1) as [s2 [seg2 [Hrun2 [Ht2 [Ha2 Hh2]]]]].
    { intros i s0 Hin. apply Hall. now right. }
    exists s2, (seg1 ++ seg2).
    cbn [for_cam_id]. unfold bind at 1. rewrite Hrun.
    split; [exact Hrun2|]. split; [|split].
    + rewrite Ht2, Ht1. cbn [length].
      replace (n + 1 + length rest) with (n + S (length rest)) by lia.
      repeat rewrite <- app_assoc. reflexivity.
    + rewrite open_attempts_app, Ha1, Ha2. reflexivity.
    + rewrite fold_left_app, Hh1, Hh2. reflexivity.
Qed.

(** A pass on a device that does not open, without a fatal error. *)
Lemma cycle_open_fails cam_id s :
  video_capture (w cam_id) <> Returns true ->
  abort_free (w cam_id) ->
  exists s1 seg,
    cycle self (w cam_id) cam_id s = (Returns Continue, s1)
    /\ trace s1 = trace s ++ seg
    /\ open_attempts seg = [cam_id]
    /\ fold_left step_open seg [] = [].
Proof.
  intros Hvc Hfree.
  destruct (cycle_shape self (w cam_id) cam_id s) as [r [s1 [Hrun Hshape]]].
  assert (Hr : r = Continue).
  { destruct (cycle_continue_or_success self cam_id s Hfree eq_refl) as [H | H];
      rewrite Hrun in H; cbn in H.
    - now injection H.
    - exfalso. apply Hvc.
      apply (cycle_success_inv self (w cam_id) cam_id s).
      rewrite Hrun. exact H. }
  subst r. exists s1.
  destruct (video_capture (w cam_id)) as [opened|e].
  - destruct Hshape as [mid [k [Ht Hq]]].
    eexists. split; [exact Hrun|]. split; [exact Ht|].
    assert (opened = false) as -> by (destruct opened; congruence).
    split.
    + cbn. rewrite open_attempts_app, (quiet_open_attempts Hq). reflexivity.
    + cbn. rewrite fold_left_app, (quiet_holds_nothing Hq). cbn.
      destruct (returned _); reflexivity.
  - destruct Hshape as [_ Ht].
    eexists. split; [exact Hrun|]. split; [exact Ht|].
    split; reflexivity.
Qed.

End Run.

(** ** The properties *)

(** C10. When OpenCV is not available ([modules_available['cv2']] is false
    or [self.cv2] is [None]), [capture] logs the start, the error and the
    install hint and returns [False]; it attempts no open, so for a positive
    [max_cameras] the run does not make one open attempt per index
    The console is any one that takes every log line: of the two [print]
    calls of [_log_event] at least one returns. *)
Theorem capture_without_opencv {con : console} {Hcon : takes_every_line con} self w n s :
  modules_available_cv2 self = false \/ cv2_is_not_None self = false ->
  capture_upto self n w s =
    (Returns false,
     mkState (trace s ++ [Log INFO StartingCapture; Log ERROR OpenCVNotAvailable;
                          Log INFO InstallHint])
             (cap s) (reads s) (releases s))
  /\ open_attempts (trace (snd (capture_upto self n w s))) = open_attempts (trace s)
  /\ (0 < n ->
      open_attempts (trace (snd (capture_upto self n w initial))) <> seq 0 n).
Proof.
  intros H.
  assert (Hgate : negb (modules_available_cv2 self) || negb (cv2_is_not_None self) = true).
  { destruct H as [-> | ->]; [reflexivity | apply orb_true_r]. }
  assert (Hrun : forall s0,
    capture_upto self n w s0 =
      (Returns false,
       mkState (trace s0 ++ [Log INFO StartingCapture; Log ERROR OpenCVNotAvailable;
                             Log INFO InstallHint])
               (cap s0) (reads s0) (releases s0))).
  { intros s0. unfold capture_upto. rewrite Hgate.
    repeat rewrite log_event_emit. unfold bind, emit, ret. cbn.
    repeat rewrite <- app_assoc. reflexivity. }
  split; [apply Hrun|]. split.
  - rewrite Hrun. cbn. rewrite open_attempts_app. cbn. apply app_nil_r.
  - intros Hn. rewrite Hrun. cbn. destruct n; [lia | discriminate].
Qed.

Lemma capture_without_opencv_witness :
  capture (con := plain_console)
      Scenario.without_opencv Scenario.nothing_attached initial =
    (Returns false,
     mkState [Log INFO StartingCapture; Log ERROR OpenCVNotAvailable; Log INFO InstallHint]
             None 0 0).
Proof.
  exact (proj1 (capture_without_opencv (con := plain_console) Scenario.without_opencv
                  Scenario.nothing_attached 5 initial (or_introl eq_refl))).
Defined.

(** C2. With OpenCV available and [max_cameras = N], if none of the indices
    [0 .. N-1] opens (the constructor raises, or the handle it returns is
    not opened) and no call runs out of memory, [capture] returns [False],
    the open attempts are exactly those on [0, 1, .., N-1] in this order,
    no device is held open at the end, every handle obtained was released
    before the next attempt, and the final warning counts [N] cameras
    The console is any one that takes every log line: of the two [print]
    calls of [_log_event] at least one returns. *)
Theorem all_opens_fail {con : console} {Hcon : takes_every_line con} self w N :
  modules_available_cv2 self = true -> cv2_is_not_None self = true ->
  (forall cam_id, cam_id < N ->
     video_capture (w cam_id) <> Returns true /\ abort_free (w cam_id)) ->
  exists s',
    capture_upto self N w initial = (Returns false, s')
    /\ open_attempts (trace s') = seq 0 N
    /\ length (open_attempts (trace s')) = N
    /\ open_handles (trace s') = []
    /\ released_before_next None (trace s') = true
    /\ In (Log WARNING (NoCamerasAvailable N)) (trace s').
Proof.
  intros Hm Hcv Hall.
  destruct (capture_upto_disciplined self w N initial)
    as [b [s' [seg [Hrun [Ht [Hrel _]]]]]].
  assert (Hloop : exists s1 seg1,
    for_cam_id self w (seq 0 N) 0
      (mkState [Log INFO StartingCapture] None 0 0) = (Returns false, s1)
    /\ trace s1 = [Log INFO StartingCapture] ++ seg1
                  ++ [Log WARNING (NoCamerasAvailable (0 + length (seq 0 N)))]
    /\ open_attempts seg1 = seq 0 N
    /\ fold_left step_open seg1 [] = []).
  { apply for_cam_id_exhausts. intros cam_id s0 Hin.
    apply in_seq in Hin. destruct (Hall cam_id) as [Hvc Hfree]; [lia|].
    now apply cycle_open_fails. }
  destruct Hloop as [s1 [seg1 [Hrun1 [Ht1 [Ha1 Hh1]]]]].
  assert (Hcap : capture_upto self N w initial = (Returns false, s1)).
  { unfold capture_upto. rewrite Hm, Hcv. cbn [negb orb].
    rewrite log_event_emit.
    unfold bind at 1. cbn [emit initial trace cap reads releases app].
    exact Hrun1. }
  rewrite Hcap in Hrun. injection Hrun as <- <-.
  rewrite length_seq in Ht1. cbn [Nat.add] in Ht1.
  exists s1. split; [exact Hcap|].
  split; [|split; [|split; [|split]]].
  - rewrite Ht1. cbn [app open_attempts].
    rewrite open_attempts_app, Ha1. cbn. apply app_nil_r.
  - rewrite Ht1. cbn [app open_attempts].
    rewrite open_attempts_app, Ha1. cbn. rewrite app_nil_r. apply length_seq.
  - unfold open_handles. rewrite Ht1. cbn [app fold_left step_open].
    rewrite fold_left_app, Hh1. reflexivity.
  - cbn [initial trace app] in Ht. rewrite Ht.
    rewrite <- (app_nil_r seg). rewrite Hrel. reflexivity.
  - rewrite Ht1. apply in_or_app. right. apply in_or_app. right. now left.
Qed.

Lemma all_opens_fail_witness :
  exists s',
    capture (con := plain_console)
        Scenario.me Scenario.nothing_attached initial = (Returns false, s')
    /\ open_attempts (trace s') = [0; 1; 2; 3; 4]
    /\ length (open_attempts (trace s')) = 5
    /\ open_handles (trace s') = []
    /\ released_before_next None (trace s') = true
    /\ In (Log WARNING (NoCamerasAvailable 5)) (trace s').
Proof.
  apply (all_opens_fail (con := plain_console)
      Scenario.me Scenario.nothing_attached (N := 5)).
  - reflexivity.
  - reflexivity.
  - intros cam_id _. split; [discriminate|].
    unfold abort_free. cbn.
    split; [discriminate|]. split; [discriminate|]. split; [discriminate|].
    intros k. discriminate.
Defined.

(** C4. In every run of [capture] the handle bound to [cap] is released
    (a call of [cap.release()] is made on it) before the next open attempt
    and before the run ends, whatever the calls of the cycle return or
    raise.  When [release] honours its contract and returns, at most one
    device is open at every point of the run, and none at its end
    The console is any one that takes every log line: of the two [print]
    calls of [_log_event] at least one returns. *)
Theorem one_device_at_a_time {con : console} {Hcon : takes_every_line con} self w :
  let t := trace (snd (capture self w initial)) in
  released_before_next None t = true
  /\ (release_frees w ->
      (forall t1 t2, t = t1 ++ t2 -> length (open_handles t1) <= 1)
      /\ open_handles t = []).
Proof.
  destruct (capture_upto_disciplined self w max_cameras initial)
    as [b [s' [seg [Hrun [Ht [Hrel Hfrees]]]]]].
  unfold capture. rewrite Hrun. cbn [snd]. cbn [initial trace app] in Ht.
  rewrite Ht. split.
  - rewrite <- (app_nil_r seg). rewrite Hrel. reflexivity.
  - intros Hw. destruct (Hfrees Hw) as [Hone Hnone]. split.
    + intros t1 t2 Hsplit. unfold open_handles.
      apply at_most_one_open_prefix with (t2 := t2).
      rewrite <- Hsplit, <- (app_nil_r seg), Hone. reflexivity.
    + exact Hnone.
Qed.

Lemma one_device_at_a_time_witness :
  released_before_next None
    (trace (snd (capture (con := plain_console)
        Scenario.me (Scenario.only 2 Scenario.working) initial))) = true
  /\ open_handles
       (trace (snd (capture (con := plain_console)
           Scenario.me (Scenario.only 2 Scenario.working) initial))) = [].
Proof.
  destruct (one_device_at_a_time (con := plain_console)
      Scenario.me (Scenario.only 2 Scenario.working))
    as [Hrel Hopen].
  split; [exact Hrel|].
  apply Hopen. intros cam_id k. unfold Scenario.only.
  destruct (cam_id =? 2); reflexivity.
Defined.

(** C1. [capture] returns [True] only from a pass in which [cv2.imwrite]
    reported success, [os.path.exists] found the file after the write, and
    [os.path.getsize] gave more than 100 bytes (and the file was still there
    at the final check).  A pass in which the write reports success but the
    file is missing, or has 100 bytes or fewer, ends without [return]: the
    loop goes on with the next index (no fatal [MemoryError] assumed)
    The console is any one that takes every log line: of the two [print]
    calls of [_log_event] at least one returns. *)
Theorem success_is_verified {con : console} {Hcon : takes_every_line con} self :
  (forall w s,
     fst (capture self w s) = Returns true ->
     exists cam_id,
       cam_id < 5
       /\ imwrite (w cam_id) = Returns true
       /\ exists_after_write (w cam_id) = true
       /\ (exists n, getsize (w cam_id) = Returns n /\ 100 < n)
       /\ exists_finally (w cam_id) = true)
  /\ (forall w cam_id rest cameras_tried s,
       imwrite (w cam_id) = Returns true ->
       exists_after_write (w cam_id) = false
       \/ (exists n, getsize (w cam_id) = Returns n /\ n <= 100) ->
       abort_free (w cam_id) ->
       exists s',
         cycle self (w cam_id) cam_id s = (Returns Continue, s')
         /\ for_cam_id self w (cam_id :: rest) cameras_tried s
            = for_cam_id self w rest (cameras_tried + 1) s').
Proof.
  split.
  - intros w s H. unfold capture, capture_upto in H. unfold bind at 1 in H.
    destruct (_log_event StartingCapture INFO s) as [[[]|e0] s1]; [|discriminate H].
    destruct (negb (modules_available_cv2 self) || negb (cv2_is_not_None self)).
    { unfold bind in H.
      destruct (_log_event OpenCVNotAvailable ERROR s1) as [[[]|e1] s2];
        [|discriminate H].
      destruct (_log_event InstallHint INFO s2) as [[[]|e2] s3]; discriminate H. }
    apply for_cam_id_true in H. destruct H as [cam_id [s0 [Hin Hc]]].
    apply in_seq in Hin.
    destruct (cycle_success_inv _ _ _ _ Hc)
      as [_ [_ [_ [_ [Hw [Hex [Hsz [_ [_ Hfin]]]]]]]]].
    exists cam_id. unfold max_cameras in Hin. repeat split; try assumption. lia.
  - intros w cam_id rest n s Hw Hbad Hfree.
    destruct (cycle_shape self (w cam_id) cam_id s) as [r [s' [Hrun _]]].
    assert (Hr : r = Continue).
    { destruct (cycle_continue_or_success self cam_id s Hfree eq_refl) as [H | H];
        rewrite Hrun in H; cbn in H.
      - now injection H.
      - exfalso.
        assert (Hc : fst (cycle self (w cam_id) cam_id s) = Returns (Return true))
          by (rewrite Hrun; exact H).
        destruct (cycle_success_inv _ _ _ _ Hc)
          as [_ [_ [_ [_ [_ [Hex [[m [Hsz Hm]] _]]]]]]].
        destruct Hbad as [Hmiss | [m' [Hsz' Hm']]].
        + congruence.
        + rewrite Hsz in Hsz'. injection Hsz' as <-. lia. }
    subst r. exists s'. split; [exact Hrun|].
    cbn [for_cam_id]. unfold bind at 1. rewrite Hrun. reflexivity.
Qed.

Lemma success_is_verified_witness :
  (exists cam_id,
     cam_id < 5
     /\ imwrite (Scenario.only 2 Scenario.working cam_id) = Returns true
     /\ exists_after_write (Scenario.only 2 Scenario.working cam_id) = true
     /\ (exists n, getsize (Scenario.only 2 Scenario.working cam_id) = Returns n
                   /\ 100 < n)
     /\ exists_finally (Scenario.only 2 Scenario.working cam_id) = true)
  /\ (exists s',
        cycle (con := plain_console)
            Scenario.me (Scenario.only 0 Scenario.truncated_write 0) 0 initial
          = (Returns Continue, s')
        /\ for_cam_id (con := plain_console)
            Scenario.me (Scenario.only 0 Scenario.truncated_write)
                      [0; 1] 0 initial
           = for_cam_id (con := plain_console)
               Scenario.me (Scenario.only 0 Scenario.truncated_write)
                        [1] 1 s').
Proof.
  split.
  - apply (proj1 (success_is_verified (con := plain_console) Scenario.me)
             (Scenario.only 2 Scenario.working) initial).
    vm_compute. reflexivity.
  - apply (proj2 (success_is_verified (con := plain_console) Scenario.me)
             (Scenario.only 0 Scenario.truncated_write) 0 [1] 0 initial).
    + reflexivity.
    + right. exists 100. split; [reflexivity | lia].
    + unfold abort_free. cbn.
      split; [discriminate|]. split; [discriminate|]. split; [discriminate|].
      intros k. discriminate.
Defined.

(** C5. The validation loop with [A] attempts ([A = 3] in [capture]) calls
    [cap.read()] at most [A] times and never raises.  It stops with
    [test_success = True] at the first read that returns a true flag and a
    non-empty frame, after one sleep of 100 ms for each rejected read before
    it; when all [A] reads are rejected (no frame, or an exception) it ends
    with [False] after [A] reads and [A] sleeps.  In particular a device
    whose first [A - 1] reads are rejected and whose read number [A] is
    accepted passes validation, after exactly [A] reads. *)
Theorem validation_attempts c cam_id A s :
  (forall f,
     first_accept c (reads s) A f ->
     test_loop c cam_id A s =
       (Returns true,
        mkState (trace s ++ failed_attempts cam_id 100 f ++ [Read cam_id])
                (cap s) (reads s + f + 1) (releases s)))
  /\ (none_accepted c (reads s) A ->
      test_loop c cam_id A s =
        (Returns false,
         mkState (trace s ++ failed_attempts cam_id 100 A)
                 (cap s) (reads s + A) (releases s)))
  /\ (exists b s' seg,
        test_loop c cam_id A s = (Returns b, s')
        /\ trace s' = trace s ++ seg
        /\ count_reads seg <= A)
  /\ (0 < A ->
      (forall j, j < A - 1 -> accepted c (reads s + j) = false) ->
      accepted c (reads s + (A - 1)) = true ->
      exists s',
        test_loop c cam_id A s = (Returns true, s')
        /\ reads s' = reads s + A).
Proof.
  assert (Hbreak : forall f,
     first_accept c (reads s) A f ->
     test_loop c cam_id A s =
       (Returns true,
        mkState (trace s ++ failed_attempts cam_id 100 f ++ [Read cam_id])
                (cap s) (reads s + f + 1) (releases s))).
  { intros f [Hf [Hbad Hgood]]. now apply test_loop_breaks. }
  split; [exact Hbreak|]. split; [|split].
  - intros Hnone. now apply test_loop_exhausts.
  - destruct (first_accepted c A (reads s)) as [[f Hf] | Hnone].
    + rewrite (Hbreak f Hf). eexists; eexists; eexists.
      split; [reflexivity|]. split; [reflexivity|].
      rewrite count_reads_app, count_reads_failed. cbn.
      destruct Hf as [Hf _]. lia.
    + rewrite (@test_loop_exhausts c cam_id A s Hnone).
      eexists; eexists; eexists.
      split; [reflexivity|]. split; [reflexivity|].
      rewrite count_reads_failed. lia.
  - intros HA Hbad Hgood.
    rewrite (Hbreak (A - 1)).
    + eexists. split; [reflexivity|]. cbn. lia.
    + repeat split; [lia | exact Hbad | exact Hgood].
Qed.

Lemma validation_attempts_witness :
  test_loop Scenario.third_try 0 3 initial =
    (Returns true,
     mkState [Read 0; Sleep 100; Read 0; Sleep 100; Read 0] None 3 0).
Proof.
  apply (proj1 (validation_attempts Scenario.third_try 0 3 initial) 2).
  split; [lia|]. split.
  - intros [|[|j]] Hj; [reflexivity | reflexivity | lia].
  - reflexivity.
Defined.

(** C6. A device that opens and passes validation gets three authoritative
    reads, each rejected one followed by a sleep of 50 ms.  When all three
    are rejected the pass logs the failed capture, calls [release] and goes
    on with the next index, and nothing is written.  A pass never ends in
    [return True] on its validation alone: an authoritative read after the
    validation was accepted as well
    The console is any one that takes every log line: of the two [print]
    calls of [_log_event] at least one returns. *)
Theorem capture_after_validation {con : console} {Hcon : takes_every_line con} self :
  (forall w cam_id rest cameras_tried s f,
     let c := w cam_id in
     video_capture c = Returns true -> is_opened_raises c = None ->
     set_raises c = None ->
     first_accept c 0 3 f -> none_accepted c (f + 1) 3 ->
     release c 0 <> Some MemoryError ->
     exists s' tail,
       cycle self c cam_id s = (Returns Continue, s')
       /\ trace s' =
            trace s
            ++ [Log DEBUG (TryingCamera cam_id); VideoCapture cam_id (Some true);
                IsOpened cam_id; SetBufferSize cam_id]
            ++ failed_attempts cam_id 100 f ++ [Read cam_id; Sleep 100]
            ++ failed_attempts cam_id 50 3
            ++ [Log DEBUG (CaptureFailed cam_id);
                Release cam_id (returned (release c 0))]
            ++ tail
       /\ (tail = [Release cam_id (returned (release c 1))]
           \/ exists e, release c 0 = Some e
                        /\ tail = [Log ERROR (handler_message cam_id e);
                                   Release cam_id (returned (release c 1))])
       /\ for_cam_id self w (cam_id :: rest) cameras_tried s
          = for_cam_id self w rest (cameras_tried + 1) s')
  /\ (forall c cam_id s,
       fst (cycle self c cam_id s) = Returns (Return true) ->
       exists f g, first_accept c 0 3 f /\ first_accept c (f + 1) 3 g).
Proof.
  split.
  - intros w cam_id rest n s f c Hvc Hio Hset Hf Hg Hr0.
    destruct (cycle_capture_failure self cam_id s Hvc Hio Hset Hf Hg Hr0)
      as [s' [tail [Hrun [Ht Htail]]]].
    exists s', tail. repeat split; try assumption.
    cbn [for_cam_id]. unfold bind at 1. fold c. rewrite Hrun. reflexivity.
  - intros c cam_id s H.
    destruct (cycle_success_inv _ _ _ _ H) as [_ [_ [_ [[f [Hf [g Hg]]] _]]]].
    exists f, g. split; assumption.
Qed.

Lemma capture_after_validation_witness :
  exists s',
    cycle (con := plain_console)
        Scenario.me Scenario.goes_dark 1 initial = (Returns Continue, s')
    /\ trace s' =
         [Log DEBUG (TryingCamera 1); VideoCapture 1 (Some true);
          IsOpened 1; SetBufferSize 1; Read 1; Sleep 100;
          Read 1; Sleep 50; Read 1; Sleep 50; Read 1; Sleep 50;
          Log DEBUG (CaptureFailed 1); Release 1 true; Release 1 true].
Proof.
  destruct (proj1 (capture_after_validation (con := plain_console) Scenario.me)
              (Scenario.only 1 Scenario.goes_dark) 1 [2] 1 initial 0)
    as [s' [tail [Hrun [Ht [Htail _]]]]].
  - reflexivity.
  - reflexivity.
  - reflexivity.
  - split; [lia|]. split; [intros j Hj; lia | reflexivity].
  - intros [|[|[|j]]] Hj; [reflexivity | reflexivity | reflexivity | lia].
  - discriminate.
  - exists s'. split; [exact Hrun|].
    destruct Htail as [-> | [e [He _]]]; [exact Ht | discriminate He].
Defined.

(** C3. The run does not abort on every [MemoryError].  With the first
    camera absent and the second one opening and validating, a [MemoryError]
    in each authoritative read of the second camera is swallowed by the bare
    [except] of the read loop: nothing is logged as a memory error and the
    indices 2, 3 and 4 are probed all the same.  When only the first
    authoritative read runs out of memory the run even returns [True].  The
    handler at the cycle boundary does abort the run, as its comment says,
    when the error reaches it: raised by the constructor on index 1, it ends
    the run after two open attempts. *)
Theorem memory_error_in_read_is_swallowed :
  let during_reads :=
    capture (con := plain_console)
        Scenario.me (Scenario.only 1 Scenario.out_of_memory) initial in
  let first_read_only :=
    capture (con := plain_console) Scenario.me
      (Scenario.only 1
         (Scenario.camera_with
            (fun k => if k =? 1 then Raises MemoryError else Scenario.a_frame)
            (Returns true) (15 * 1024))) initial in
  let during_open :=
    capture (con := plain_console)
        Scenario.me (Scenario.only 1 Scenario.exhausted_at_open) initial in
  fst during_reads = Returns false
  /\ open_attempts (trace (snd during_reads)) = [0; 1; 2; 3; 4]
  /\ ~ In (Log ERROR (MemoryErrorMsg 1)) (trace (snd during_reads))
  /\ fst first_read_only = Returns true
  /\ fst during_open = Returns false
  /\ open_attempts (trace (snd during_open)) = [0; 1]
  /\ In (Log ERROR (MemoryErrorMsg 1)) (trace (snd during_open)).
Proof.
  cbv zeta.
  split; [vm_compute; reflexivity|].
  split; [vm_compute; reflexivity|].
  split.
  { vm_compute. intros H.
    repeat (destruct H as [H | H]; [discriminate H|]). exact H. }
  split; [vm_compute; reflexivity|].
  split; [vm_compute; reflexivity|].
  split; [vm_compute; reflexivity|].
  vm_compute. tauto.
Qed.







(** C9. The generated name can contain a control character.  With the user
    name [eve] followed by the escape character (code 27), as [getpass]
    hands it on from the environment, the escape character is none of the
    thirteen characters the sanitizer replaces and reaches the file name. *)
Theorem filename_keeps_control_character :
  let name :=
    Filename._generate_filename_safe
      (str "host") (str "aa-bb-cc-dd-ee-ff") (str "eve" ++ [ascii_of_nat 27])
      Scenario.noon in
  name = str "host_aa-bb-cc-dd-ee-ff_eve" ++ [ascii_of_nat 27]
         ++ str "_20240101_120000_000.jpg"
  /\ existsb Filename.is_control name = true.
Proof. cbv zeta. split; vm_compute; reflexivity. Qed.

(** * Further properties of the code *)

(** ** More on file names *)

Section FilenameMore.

Import Filename.

Lemma decimal_aux_length fuel : forall n acc k,
  0 < k -> n < 10 ^ k -> length (decimal_aux fuel n acc) <= length acc + k.
Proof.
  induction fuel as [|fuel IH]; intros n acc k Hk Hn; cbn [decimal_aux]; [lia|].
  destruct (Nat.eqb_spec (n / 10) 0) as [Hz | Hnz]; [cbn; lia|].
  destruct k as [|[|k]]; [lia | |].
  - exfalso. apply Hnz. apply Nat.div_small. simpl in Hn. lia.
  - specialize (IH (n / 10) (digit (n mod 10) :: acc) (S k)).
    cbn [length] in IH.
    assert (Hdiv : n / 10 < 10 ^ S k).
    { apply Nat.Div0.div_lt_upper_bound. change (10 ^ S (S k)) with (10 * 10 ^ S k) in Hn.
      exact Hn. }
    specialize (IH ltac:(lia) Hdiv). lia.
Qed.

Lemma zero_padded_length w n : 0 < w -> n < 10 ^ w -> length (zero_padded w n) = w.
Proof.
  intros Hw Hn. unfold zero_padded. rewrite length_app, repeat_length.
  pose proof (@decimal_aux_length (S n) n [] w Hw Hn) as H. cbn [length] in H.
  unfold decimal. lia.
Qed.

Lemma timestamp_length c : wall_clock c -> length (timestamp c) = 19.
Proof.
  intros [Hy [Hmo [Hd [Hh [Hmi [Hs Hus]]]]]].
  assert (H2 : forall n, n < 100 -> length (zero_padded 2 n) = 2).
  { intros n Hn. apply zero_padded_length; [lia | exact Hn]. }
  unfold timestamp, strftime. repeat rewrite length_app.
  rewrite (@zero_padded_length 4 (year c) ltac:(lia) Hy).
  rewrite (H2 _ Hmo), (H2 _ Hd), (H2 _ Hh), (H2 _ Hmi), (H2 _ Hs).
  destruct (microsecond c) as [us|]; [|reflexivity].
  rewrite length_app, (@zero_padded_length 3); [reflexivity | lia |].
  exact Hus.
Qed.

Lemma decimal_aux_all (P : ascii -> Prop) fuel : forall n acc,
  (forall d, d < 10 -> P (digit d)) ->
  Forall P acc -> Forall P (decimal_aux fuel n acc).
Proof.
  induction fuel as [|fuel IH]; intros n acc Hd Hacc; cbn [decimal_aux]; [exact Hacc|].
  assert (H : Forall P (digit (n mod 10) :: acc)).
  { constructor; [|exact Hacc]. apply Hd. apply Nat.mod_upper_bound. discriminate. }
  destruct (n / 10 =? 0); [exact H | now apply IH].
Qed.

Lemma timestamp_all (P : ascii -> Prop) c :
  (forall d, d < 10 -> P (digit d)) -> P "_"%char -> Forall P (timestamp c).
Proof.
  intros Hd Hus.
  assert (Hz : forall w n, Forall P (zero_padded w n)).
  { intros w n. unfold zero_padded. apply Forall_app. split.
    - apply Forall_forall. intros x Hx. apply repeat_spec in Hx. subst.
      exact (Hd 0 ltac:(lia)).
    - apply decimal_aux_all; [exact Hd | constructor]. }
  assert (Hu : Forall P (str "_")) by (repeat constructor; exact Hus).
  unfold timestamp, strftime. apply Forall_app. split.
  - repeat first [ apply Hz | exact Hu | apply Forall_app; split ].
  - destruct (microsecond c).
    + apply Forall_app. split; [exact Hu | apply Hz].
    + repeat constructor; [exact Hus | exact (Hd 0 ltac:(lia)) ..].
Qed.

Lemma clean_plain x : ~ In x invalid_chars -> clean x = x.
Proof.
  intros H. destruct (clean_cases x) as [_ [_ [[Hc | Hc] _]]]; [exact Hc|].
  destruct x as [[] [] [] [] [] [] [] []]; try reflexivity;
    exfalso; apply H; vm_compute; tauto.
Qed.

Lemma sanitize_plain s : plain s -> sanitize s = s.
Proof.
  intros H. rewrite sanitize_map. induction H as [|x s Hx _ IH]; [reflexivity|].
  cbn [map]. now rewrite (clean_plain Hx), IH.
Qed.

End FilenameMore.

Section FilenameExtras.

Import Filename.

Variables hostname mac username : pystr.
Variable c : clock.

Lemma plain_slice n s : plain s -> plain (slice_to n s).
Proof.
  unfold plain, slice_to. revert n.
  induction s as [|x s IH]; intros n H; destruct n; cbn [firstn]; try constructor.
  - now inversion H.
  - apply IH. now inversion H.
Qed.

Lemma plain_app s t : plain s -> plain t -> plain (s ++ t).
Proof. intros Hs Ht. apply Forall_app. now split. Qed.

Lemma plain_str_underscore : plain (str "_").
Proof. repeat constructor. vm_compute. intuition discriminate. Qed.

Lemma plain_str_jpg : plain (str ".jpg").
Proof. repeat constructor; vm_compute; intuition discriminate. Qed.

Lemma plain_timestamp : plain (timestamp c).
Proof.
  apply timestamp_all.
  - intros d Hd. do 10 (destruct d as [|d]; [vm_compute; intuition discriminate|]). lia.
  - vm_compute. intuition discriminate.
Qed.

Lemma components_length :
  wall_clock c ->
  length (join (str "_") (components hostname mac username c)) <= 92.
Proof.
  intros Hc. pose proof (timestamp_length Hc) as Ht.
  pose proof (firstn_le_length 30 hostname) as Hh.
  pose proof (firstn_le_length 20 mac) as Hm.
  pose proof (firstn_le_length 20 username) as Hu.
  unfold components, slice_to.
  destruct (truthy hostname && negb (str_eqb hostname (str "unknown_host")));
    destruct (truthy mac && negb (str_eqb mac (str "unknown-mac")));
    destruct (truthy username && negb (str_eqb username (str "unknown_user")));
    cbn [app join]; repeat rewrite length_app; cbn [length str]; 
    change (length (str "_")) with 1; lia.
Qed.

Lemma generated_untruncated :
  wall_clock c ->
  _generate_filename_safe hostname mac username c
  = sanitize (join (str "_") (components hostname mac username c) ++ str ".jpg").
Proof.
  intros Hc. pose proof (components_length Hc) as Hlen.
  unfold _generate_filename_safe. cbv zeta.
  set (f := sanitize _).
  assert (Hf : length f <= 96).
  { unfold f. rewrite sanitize_map, length_map, length_app.
    change (length (str ".jpg")) with 4. lia. }
  destruct (Nat.ltb_spec 200 (length f)); [lia | reflexivity].
Qed.

Lemma generated_plain :
  wall_clock c ->
  plain (join (str "_") (components hostname mac username c)) ->
  _generate_filename_safe hostname mac username c
  = join (str "_") (components hostname mac username c) ++ str ".jpg".
Proof.
  intros Hc Hp. rewrite (generated_untruncated Hc).
  apply sanitize_plain, plain_app; [exact Hp | apply plain_str_jpg].
Qed.

End FilenameExtras.

(** X1. Whatever the host name, MAC address and user name are, and
    whatever the clock shows, the generated file name contains none of the
    thirteen characters of [invalid_chars], contains no path separator, ends
    in [.jpg] and has at most 200 characters. *)
Theorem filename_is_portable (hostname mac username : pystr) (c : Filename.clock) :
  let name := Filename._generate_filename_safe hostname mac username c in
  Forall (fun x => ~ In x Filename.invalid_chars) name
  /\ existsb Filename.is_path_separator name = false
  /\ Filename.ends_with (str ".jpg") name = true
  /\ length name <= 200.
Proof.
  pose proof (filename_guarantees hostname mac username c) as H. cbv zeta in *.
  destruct H as [H1 [H2 [H3 [H4 _]]]]. repeat split; assumption.
Qed.

(** X2. If the host name, the MAC address and the user name contain no
    control character, neither does the generated file name: the
    timestamp, the separators and the extension bring none in, and the
    replacement character is an underscore. *)
Theorem filename_without_control_characters
  (hostname mac username : pystr) (c : Filename.clock) :
  existsb Filename.is_control hostname = false ->
  existsb Filename.is_control mac = false ->
  existsb Filename.is_control username = false ->
  existsb Filename.is_control
    (Filename._generate_filename_safe hostname mac username c) = false.
Proof.
  pose proof (filename_guarantees hostname mac username c) as H. cbv zeta in *.
  destruct H as [_ [_ [_ [_ H]]]]. exact H.
Qed.

Lemma filename_without_control_characters_witness :
  existsb Filename.is_control
    (Filename._generate_filename_safe
       (str "host") (str "aa-bb-cc-dd-ee-ff") (str "alice") Scenario.noon) = false.
Proof.
  apply (@filename_without_control_characters
           (str "host") (str "aa-bb-cc-dd-ee-ff") (str "alice") Scenario.noon);
    reflexivity.
Defined.

(** X3. With a clock in the range the system clock has (a year of at most
    four digits, milliseconds below a thousand), the timestamp has 19
    characters, the name has at most 96, and so the truncation to 200
    characters never fires: the name is the sanitized join of the
    components followed by [.jpg]. *)
Theorem filename_is_never_truncated
  (hostname mac username : pystr) (c : Filename.clock) :
  wall_clock c ->
  let name := Filename._generate_filename_safe hostname mac username c in
  length (Filename.timestamp c) = 19
  /\ name = Filename.sanitize
              (Filename.join (str "_") (Filename.components hostname mac username c)
               ++ str ".jpg")
  /\ length name <= 96.
Proof.
  intros Hc. cbv zeta. split; [exact (timestamp_length Hc)|].
  split; [exact (generated_untruncated hostname mac username Hc)|].
  rewrite (generated_untruncated hostname mac username Hc).
  rewrite sanitize_map, length_map, length_app.
  pose proof (components_length hostname mac username Hc).
  change (length (str ".jpg")) with 4. lia.
Qed.

Lemma filename_is_never_truncated_witness :
  length (Filename._generate_filename_safe
            (str "a-host-name-that-is-longer-than-thirty-characters")
            (str "aa-bb-cc-dd-ee-ff") (str "alice") Scenario.noon) <= 96.
Proof.
  apply (@filename_is_never_truncated
           (str "a-host-name-that-is-longer-than-thirty-characters")
           (str "aa-bb-cc-dd-ee-ff") (str "alice") Scenario.noon).
  unfold wall_clock, Scenario.noon. cbn [Filename.year Filename.month Filename.day
      Filename.hour Filename.minute Filename.second Filename.microsecond].
    repeat split; apply Nat.ltb_lt; vm_compute; reflexivity.
Defined.

(** X4. The format announced in the module's docstring.  When the three
    identity strings are known (not empty, not the default) and contain
    none of the replaced characters, the name is
    [hostname[:30]_mac[:20]_username[:20]_timestamp.jpg], character for
    character. *)
Theorem filename_format (hostname mac username : pystr) (c : Filename.clock) :
  wall_clock c ->
  present hostname (str "unknown_host") -> plain hostname ->
  present mac (str "unknown-mac") -> plain mac ->
  present username (str "unknown_user") -> plain username ->
  Filename._generate_filename_safe hostname mac username c
  = Filename.slice_to 30 hostname ++ str "_"
    ++ Filename.slice_to 20 mac ++ str "_"
    ++ Filename.slice_to 20 username ++ str "_"
    ++ Filename.timestamp c ++ str ".jpg".
Proof.
  intros Hc [Hh1 Hh2] Hh [Hm1 Hm2] Hm [Hu1 Hu2] Hu.
  assert (E : Filename.components hostname mac username c
              = [Filename.slice_to 30 hostname; Filename.slice_to 20 mac;
                 Filename.slice_to 20 username; Filename.timestamp c]).
  { unfold Filename.components. now rewrite Hh1, Hh2, Hm1, Hm2, Hu1, Hu2. }
  rewrite (generated_plain hostname mac username Hc); rewrite E; cbn [Filename.join].
  - repeat rewrite <- app_assoc. reflexivity.
  - repeat first
      [ apply plain_timestamp | apply plain_str_underscore
      | apply plain_slice; assumption | apply plain_app ].
Qed.

Lemma filename_format_witness :
  Filename._generate_filename_safe
    (str "host") (str "aa-bb-cc-dd-ee-ff") (str "alice") Scenario.noon
  = str "host_aa-bb-cc-dd-ee-ff_alice_20240101_120000_000.jpg".
Proof.
  rewrite (@filename_format (str "host") (str "aa-bb-cc-dd-ee-ff") (str "alice")
             Scenario.noon).
  - reflexivity.
  - unfold wall_clock, Scenario.noon. cbn [Filename.year Filename.month Filename.day
      Filename.hour Filename.minute Filename.second Filename.microsecond].
    repeat split; apply Nat.ltb_lt; vm_compute; reflexivity.
  - split; reflexivity.
  - repeat constructor; vm_compute; intuition discriminate.
  - split; reflexivity.
  - repeat constructor; vm_compute; intuition discriminate.
  - split; reflexivity.
  - repeat constructor; vm_compute; intuition discriminate.
Defined.

(** X5. The defaults never reach the name.  When each identity string is
    empty or still the default ([unknown_host], [unknown-mac],
    [unknown_user]), the name is the timestamp followed by [.jpg]. *)
Theorem unknown_identity_is_left_out
  (hostname mac username : pystr) (c : Filename.clock) :
  wall_clock c ->
  hostname = [] \/ hostname = str "unknown_host" ->
  mac = [] \/ mac = str "unknown-mac" ->
  username = [] \/ username = str "unknown_user" ->
  Filename._generate_filename_safe hostname mac username c
  = Filename.timestamp c ++ str ".jpg".
Proof.
  intros Hc Hh Hm Hu.
  rewrite (generated_untruncated hostname mac username Hc).
  assert (E : Filename.components hostname mac username c = [Filename.timestamp c]).
  { unfold Filename.components.
    destruct Hh as [-> | ->], Hm as [-> | ->], Hu as [-> | ->]; reflexivity. }
  rewrite E. cbn [Filename.join].
  apply sanitize_plain, plain_app; [apply plain_timestamp | apply plain_str_jpg].
Qed.

Lemma unknown_identity_is_left_out_witness :
  Filename._generate_filename_safe
    (str "unknown_host") (str "unknown-mac") (str "unknown_user") Scenario.noon
  = str "20240101_120000_000.jpg".
Proof.
  rewrite (@unknown_identity_is_left_out
             (str "unknown_host") (str "unknown-mac") (str "unknown_user")
             Scenario.noon).
  - reflexivity.
  - unfold wall_clock, Scenario.noon. cbn [Filename.year Filename.month Filename.day
      Filename.hour Filename.minute Filename.second Filename.microsecond].
    repeat split; apply Nat.ltb_lt; vm_compute; reflexivity.
  - right; reflexivity.
  - right; reflexivity.
  - right; reflexivity.
Defined.

(** ** More on the run as a whole *)

Lemma open_attempts_failed cam_id ms n :
  open_attempts (failed_attempts cam_id ms n) = [].
Proof. induction n; simpl; auto. Qed.

(** Every pass makes exactly one open attempt, on its own index. *)
Lemma cycle_one_attempt {con : console} {Hcon : takes_every_line con} self c cam_id s :
  exists r s' seg,
    cycle self c cam_id s = (Returns r, s')
    /\ trace s' = trace s ++ seg
    /\ open_attempts seg = [cam_id].
Proof.
  destruct (cycle_shape self c cam_id s) as [r [s' [Hrun Hshape]]].
  exists r, s'. destruct (video_capture c) as [opened|e].
  - destruct Hshape as [mid [k [Ht Hq]]].
    eexists. split; [exact Hrun|]. split; [exact Ht|].
    cbn. rewrite open_attempts_app, (quiet_open_attempts Hq). reflexivity.
  - destruct Hshape as [_ Ht].
    eexists. split; [exact Hrun|]. split; [exact Ht|]. reflexivity.
Qed.

Section RunMore.

Context {con : console} {Hcon : takes_every_line con}.
Variable self : capture_object.
Variable w : world.

(** The loop stops at the first pass that returns; the passes before it
    each made their one open attempt. *)
Lemma for_cam_id_stops before : forall cam_id rest b cameras_tried s,
  (forall j s0, In j before ->
      exists s1 seg,
        cycle self (w j) j s0 = (Returns Continue, s1)
        /\ trace s1 = trace s0 ++ seg
        /\ open_attempts seg = [j]) ->
  (forall s0, exists s1, cycle self (w cam_id) cam_id s0 = (Returns (Return b), s1)) ->
  exists s0 s' seg0,
    for_cam_id self w (before ++ cam_id :: rest) cameras_tried s = (Returns b, s')
    /\ cycle self (w cam_id) cam_id s0 = (Returns (Return b), s')
    /\ trace s0 = trace s ++ seg0
    /\ open_attempts seg0 = before.
Proof.
  induction before as [|j before IH]; intros cam_id rest b n s Hbefore Hlast.
  - destruct (Hlast s) as [s1 Hrun].
    exists s, s1, []. cbn [app for_cam_id]. unfold bind at 1. rewrite Hrun.
    rewrite app_nil_r. repeat split.
  - destruct (Hbefore j s (or_introl eq_refl)) as [s1 [seg1 [Hrun1 [Ht1 Ha1]]]].
    destruct (IH cam_id rest b (n + 1) s1) as [s0 [s' [seg0 [Hrun [Hc [Ht0 Ha0]]]]]].
    { intros i s2 Hin. apply Hbefore. now right. }
    { exact Hlast. }
    exists s0, s', (seg1 ++ seg0). cbn [app for_cam_id]. unfold bind at 1.
    rewrite Hrun1. split; [exact Hrun|]. split; [exact Hc|]. split.
    + rewrite Ht0, Ht1, app_assoc. reflexivity.
    + rewrite open_attempts_app, Ha1, Ha0. reflexivity.
Qed.

Lemma capture_stops_at k b :
  modules_available_cv2 self = true -> cv2_is_not_None self = true ->
  k < max_cameras ->
  none_opens_below w k ->
  (forall s0, exists s1, cycle self (w k) k s0 = (Returns (Return b), s1)) ->
  exists s0 s' seg0,
    capture self w initial = (Returns b, s')
    /\ cycle self (w k) k s0 = (Returns (Return b), s')
    /\ trace s0 = Log INFO StartingCapture :: seg0
    /\ open_attempts seg0 = seq 0 k.
Proof.
  intros Hm Hcv Hk Hbelow Hlast.
  assert (Hsplit : seq 0 max_cameras = seq 0 k ++ k :: seq (S k) (max_cameras - S k)).
  { replace max_cameras with (k + S (max_cameras - S k)) at 1 by lia.
    rewrite seq_app. reflexivity. }
  destruct (@for_cam_id_stops (seq 0 k) k (seq (S k) (max_cameras - S k)) b 0
              (mkState [Log INFO StartingCapture] None 0 0))
    as [s0 [s' [seg0 [Hrun [Hc [Ht0 Ha0]]]]]].
  { intros j s1 Hin. apply in_seq in Hin.
    destruct (Hbelow j) as [Hvc Hfree]; [lia|].
    destruct (cycle_open_fails self w j s1 Hvc Hfree) as [s2 [seg [Hr [Ht [Ha _]]]]].
    exists s2, seg. auto. }
  { exact Hlast. }
  exists s0, s', seg0.
  split; [|split; [exact Hc|split; [exact Ht0 | exact Ha0]]].
  unfold capture, capture_upto. rewrite Hm, Hcv. cbn [negb orb].
  rewrite log_event_emit. unfold bind at 1.
  cbn [emit initial trace cap reads releases app].
  rewrite Hsplit. exact Hrun.
Qed.

End RunMore.

Lemma capture_success_trace {con : console} {Hcon : takes_every_line con} self w k f g n :
  modules_available_cv2 self = true -> cv2_is_not_None self = true ->
  k < 5 ->
  none_opens_below w k ->
  delivers (w k) f g n ->
  exists s' before,
    capture self w initial = (Returns true, s')
    /\ trace s' = Log INFO StartingCapture :: before
                  ++ success_events self (w k) k f g n
    /\ open_attempts before = seq 0 k.
Proof.
  intros Hm Hcv Hk Hbelow
    [Hvc [Hio [Hset [Hf [Hg [Hw [Hex [Hsz [Hn [Hr0 [Hd Hfin]]]]]]]]]]].
  assert (Hlast : forall s0, exists s1 : state,
             cycle self (w k) k s0 = (Returns (Return true), s1)).
  { intros s0.
    destruct (cycle_success self k s0 Hvc Hio Hset Hf Hg Hw Hex Hsz Hn Hr0 Hd Hfin)
      as [s1 [Hrun _]]. now exists s1. }
  destruct (@capture_stops_at con Hcon self w k true Hm Hcv Hk Hbelow Hlast)
    as [s0 [s' [seg0 [Hrun [Hc [Ht0 Ha0]]]]]].
  destruct (cycle_success self k s0 Hvc Hio Hset Hf Hg Hw Hex Hsz Hn Hr0 Hd Hfin)
    as [s1 [Hc1 Ht1]].
  rewrite Hc in Hc1. injection Hc1 as <-.
  exists s', seg0. split; [exact Hrun|]. split; [|exact Ha0].
  rewrite Ht1, Ht0. reflexivity.
Qed.

Section RefusedSuccess.

Context {con : console}.
Variable self : capture_object.
Variable c : camera.
Variable cam_id : nat.

(** The console refuses the SUCCESS line of a pass whose file is written
    and checked: the exception of the second [print] leaves [_log_event]
    inside the write block, whose handlers log it as an error of the
    write.  The pass calls [release] and goes on with the next index. *)
Lemma cycle_refused_success s f g n e0 e :
  let line :=
    Captured (Filename._generate_filename_safe
                (hostname self) (mac self) (username self) (clock_now c)) n in
  delivers c f g n ->
  takes_line con DEBUG (TryingCamera cam_id) ->
  print_raises SUCCESS line = Some e0 -> fallback_raises line = Some e ->
  takes_line con ERROR (write_error_message e) ->
  exists s' seg,
    cycle self c cam_id s = (Returns Continue, s')
    /\ trace s' = trace s ++ seg
    /\ In (Imwrite cam_id) seg
    /\ In (Log SUCCESS line) seg
    /\ In (Log ERROR (write_error_message e)) seg
    /\ count_releases cam_id seg = 2.
Proof.
  intros line [Hvc [Hio [Hset [Hf [Hg [Hw [Hex [Hsz [Hn [Hr0 [Hd Hfin]]]]]]]]]]]
    Htry Hp Hfb Herr.
  apply Nat.ltb_lt in Hn. subst line.
  assert (Hrun : forall r, cycle self c cam_id s = r ->
            fst r = Returns Continue
            /\ exists seg,
                 trace (snd r) = trace s ++ seg
                 /\ In (Imwrite cam_id) seg
                 /\ In (Log SUCCESS
                          (Captured (Filename._generate_filename_safe
                                       (hostname self) (mac self) (username self)
                                       (clock_now c)) n)) seg
                 /\ In (Log ERROR (write_error_message e)) seg
                 /\ count_releases cam_id seg = 2).
  { intros r.
    destruct e; cbn [write_error_message] in Herr; exec; intros <-; cbn;
      (split; [reflexivity|]);
      repeat (progress (repeat rewrite <- app_assoc; cbn [app]));
      (eexists; split; [reflexivity|]);
      (split; [in_trace | split; [in_trace | split; [in_trace | count_trace]]]). }
  destruct (Hrun _ eq_refl) as [Hfst [seg Hseg]].
  destruct (cycle self c cam_id s) as [r s'].
  cbn [fst snd] in Hfst, Hseg. subst r. exists s', seg. split; [reflexivity | exact Hseg].
Qed.

End RefusedSuccess.

(** X6. With OpenCV available, when the indices below [k] do not open and
    the device at index [k < 5] opens, validates, delivers a frame and
    leaves a verified file, then on a console that takes every log line
    [capture] returns [True]; it has attempted to open exactly the indices
    [0 .. k], the pass on [k] is the last thing in the trace, and no later
    index is probed.  On a console that refuses the SUCCESS line of that
    file twice, the pass on [k] does not return: the file is written, the
    handlers of the write block log an error, [release] is called twice
    and the loop goes on with the next index. *)
Theorem first_working_camera_wins {con : console} {Hcon : takes_every_line con}
    self w k f g n :
  modules_available_cv2 self = true -> cv2_is_not_None self = true ->
  k < 5 ->
  none_opens_below w k ->
  delivers (w k) f g n ->
  (exists s' before,
     capture self w initial = (Returns true, s')
     /\ trace s' = Log INFO StartingCapture :: before
                   ++ success_events self (w k) k f g n
     /\ open_attempts before = seq 0 k
     /\ open_attempts (trace s') = seq 0 (S k))
  /\ (forall (any : console) s e0 e,
        let line :=
          Captured (Filename._generate_filename_safe
                      (hostname self) (mac self) (username self)
                      (clock_now (w k))) n in
        takes_line any DEBUG (TryingCamera k) ->
        print_raises (console := any) SUCCESS line = Some e0 ->
        fallback_raises (console := any) line = Some e ->
        takes_line any ERROR (write_error_message e) ->
        exists s' seg,
          cycle (con := any) self (w k) k s = (Returns Continue, s')
          /\ trace s' = trace s ++ seg
          /\ In (Imwrite k) seg
          /\ In (Log SUCCESS line) seg
          /\ In (Log ERROR (write_error_message e)) seg
          /\ count_releases k seg = 2).
Proof.
  intros Hm Hcv Hk Hbelow Hdel. split.
  - destruct (@capture_success_trace con Hcon self w k f g n Hm Hcv Hk Hbelow Hdel)
      as [s' [before [Hrun [Ht Ha]]]].
    exists s', before. split; [exact Hrun|]. split; [exact Ht|]. split; [exact Ha|].
    rewrite Ht, seq_S. cbn [open_attempts Nat.add]. rewrite open_attempts_app, Ha.
    unfold success_events, until_return.
    repeat rewrite open_attempts_app. repeat rewrite open_attempts_failed.
    reflexivity.
  - intros any s e0 e line Htry Hp Hfb Herr.
    exact (@cycle_refused_success any self (w k) k s f g n e0 e Hdel Htry Hp Hfb Herr).
Qed.

Lemma first_working_camera_wins_witness :
  (exists s' before,
     capture (con := plain_console) Scenario.me (Scenario.only 2 Scenario.working)
             initial = (Returns true, s')
     /\ trace s' = Log INFO StartingCapture :: before
                   ++ success_events Scenario.me Scenario.working 2 0 0 (15 * 1024)
     /\ open_attempts before = [0; 1]
     /\ open_attempts (trace s') = [0; 1; 2])
  /\ (exists s' seg,
        cycle (con := narrow_console) Scenario.me Scenario.working 2 initial
        = (Returns Continue, s')
        /\ trace s' = seg
        /\ In (Imwrite 2) seg
        /\ In (Log ERROR FileSaveError) seg
        /\ count_releases 2 seg = 2)
  /\ fst (capture (con := narrow_console) Scenario.me (fun _ => Scenario.working)
                  initial) = Returns false.
Proof.
  assert (Hw : none_opens_below (Scenario.only 2 Scenario.working) 2).
  { intros j Hj. assert (Hj2 : (j =? 2) = false) by (apply Nat.eqb_neq; lia).
    unfold Scenario.only. rewrite Hj2. split; [discriminate|].
    unfold abort_free. cbn.
    split; [discriminate|]. split; [discriminate|]. split; [discriminate|].
    intros i. discriminate. }
  assert (Hd : delivers (Scenario.only 2 Scenario.working 2) 0 0 (15 * 1024)).
  { unfold delivers. cbn.
    repeat split; try reflexivity; try (intros j Hj; lia); try lia. }
  destruct (@first_working_camera_wins plain_console _ Scenario.me
              (Scenario.only 2 Scenario.working) 2 0 0 (15 * 1024)
              eq_refl eq_refl ltac:(lia) Hw Hd) as [Hwins Hrefused].
  split; [exact Hwins|]. split; [|vm_compute; reflexivity].
  destruct (Hrefused narrow_console initial OtherException OtherException)
    as [s' [seg [Hrun [Ht [Hi [_ [He Hc]]]]]]].
  - left. reflexivity.
  - reflexivity.
  - reflexivity.
  - left. reflexivity.
  - exists s', seg. split; [exact Hrun|]. split; [exact Ht|].
    split; [exact Hi|]. split; [exact He | exact Hc].
Defined.

(** X7. With OpenCV available, when the indices below [k] do not open and
    the pass on index [k < 5] runs out of memory before its read loops (in
    the constructor, in [isOpened], in [set], or in the [release] of an
    unopened handle), [capture] logs the memory error for camera [k] and
    returns [False] at once: the open attempts are exactly those on
    [0 .. k]. *)
Theorem memory_error_before_reads_aborts {con : console} {Hcon : takes_every_line con} self w k :
  modules_available_cv2 self = true -> cv2_is_not_None self = true ->
  k < 5 ->
  none_opens_below w k ->
  exhausted_early (w k) ->
  exists s',
    capture self w initial = (Returns false, s')
    /\ open_attempts (trace s') = seq 0 (S k)
    /\ In (Log ERROR (MemoryErrorMsg k)) (trace s').
Proof.
  intros Hm Hcv Hk Hbelow Hexh.
  assert (Hlast : forall s0, exists s1 : state,
             cycle self (w k) k s0 = (Returns (Return false), s1)).
  { intros s0.
    destruct (@cycle_early_raise con Hcon self (w k) k s0 MemoryError Hexh) as [s1 [Hrun _]].
    now exists s1. }
  destruct (@capture_stops_at con Hcon self w k false Hm Hcv Hk Hbelow Hlast)
    as [s0 [s' [seg0 [Hrun [Hc [Ht0 Ha0]]]]]].
  exists s'. split; [exact Hrun|]. split.
  - destruct (cycle_one_attempt self (w k) k s0) as [r [s1 [seg [Hc1 [Ht1 Ha1]]]]].
    rewrite Hc in Hc1. injection Hc1 as _ <-.
    rewrite Ht1, Ht0, seq_S. cbn [app open_attempts Nat.add].
    rewrite open_attempts_app, Ha0, Ha1. reflexivity.
  - destruct (@cycle_early_raise con Hcon self (w k) k s0 MemoryError Hexh) as [s1 [Hc1 Hlog]].
    cbn [handler_result] in Hc1. rewrite Hc in Hc1. injection Hc1 as <-.
    exact Hlog.
Qed.

Lemma memory_error_before_reads_aborts_witness :
  exists s',
    capture (con := plain_console) Scenario.me
            (Scenario.only 1 Scenario.exhausted_at_open) initial
      = (Returns false, s')
    /\ open_attempts (trace s') = [0; 1]
    /\ In (Log ERROR (MemoryErrorMsg 1)) (trace s').
Proof.
  apply (@memory_error_before_reads_aborts plain_console _ Scenario.me
           (Scenario.only 1 Scenario.exhausted_at_open) 1).
  - reflexivity.
  - reflexivity.
  - lia.
  - intros j Hj. assert (Hj1 : (j =? 1) = false) by (apply Nat.eqb_neq; lia).
    unfold Scenario.only. rewrite Hj1. split; [discriminate|].
    unfold abort_free. cbn.
    split; [discriminate|]. split; [discriminate|]. split; [discriminate|].
    intros i. discriminate.
  - left. reflexivity.
Defined.

Lemma count_imwrites_app t1 t2 :
  count_imwrites (t1 ++ t2) = count_imwrites t1 + count_imwrites t2.
Proof.
  induction t1 as [|ev t1 IH]; simpl; [reflexivity|].
  destruct ev; simpl; rewrite ?IH; reflexivity.
Qed.

Lemma count_imwrites_failed cam_id ms n :
  count_imwrites (failed_attempts cam_id ms n) = 0.
Proof. induction n; simpl; auto. Qed.

Lemma writes_to_app j t1 t2 :
  writes_to j (t1 ++ t2) = writes_to j t1 + writes_to j t2.
Proof.
  induction t1 as [|ev t1 IH]; simpl; [reflexivity|].
  destruct ev; simpl; rewrite ?IH; lia.
Qed.

Lemma writes_to_failed j cam_id ms n :
  writes_to j (failed_attempts cam_id ms n) = 0.
Proof. induction n; simpl; auto. Qed.

Lemma writes_to_positive j t : In (Imwrite j) t -> 0 < writes_to j t.
Proof.
  induction t as [|ev t IH]; intros H; [contradiction|].
  destruct H as [-> | H].
  - cbn. rewrite Nat.eqb_refl. lia.
  - specialize (IH H). destruct ev; cbn; lia.
Qed.

Section CycleCounts.

Context {con : console} {Hcon : takes_every_line con}.
Variable self : capture_object.
Variable c : camera.
Variable cam_id : nat.

(** One pass calls [cap.read()] at most six times. *)
Lemma cycle_reads s :
  forall r, cycle self c cam_id s = r ->
            count_reads (trace (snd r)) <= count_reads (trace s) + 6.
Proof.
  intros r; exec; intros <-; cbn [snd trace];
    repeat match goal with H : _ /\ _ |- _ => destruct H end;
    repeat rewrite count_reads_app; repeat rewrite count_reads_failed;
    cbn [count_reads]; lia.
Qed.

(** One pass calls [cv2.imwrite] at most once. *)
Lemma cycle_imwrites s :
  forall r, cycle self c cam_id s = r ->
            count_imwrites (trace (snd r)) <= count_imwrites (trace s) + 1.
Proof.
  intros r; exec; intros <-; cbn [snd trace];
    repeat rewrite count_imwrites_app; repeat rewrite count_imwrites_failed;
    cbn [count_imwrites]; lia.
Qed.

(** A pass writes only for its own index, and only when the device got as
    far as the write. *)
Lemma cycle_writes_to s j :
  forall r, cycle self c cam_id s = r ->
            writes_to j (trace (snd r)) = writes_to j (trace s)
            \/ (j = cam_id /\ reaches_write c).
Proof.
  intros r; exec; intros <-; cbn [snd trace];
    repeat rewrite writes_to_app; repeat rewrite writes_to_failed;
    cbn [writes_to];
    first
      [ left; lia
      | destruct (Nat.eqb_spec cam_id j) as [<- | Hne]; [right | left; lia];
        (split; [reflexivity|]);
        unfold reaches_write;
        repeat match goal with |- _ /\ _ => split end; try assumption;
        exists f, g; split; [exact Hvalid | exact Hcapt] ].
Qed.

End CycleCounts.

Lemma firstn_of_seq k : forall a n, k <= n -> firstn k (seq a n) = seq a k.
Proof.
  induction k as [|k IH]; intros a n Hk; [reflexivity|].
  destruct n as [|n]; [lia|]. cbn. f_equal. apply IH. lia.
Qed.

Section RunCounts.

Context {con : console} {Hcon : takes_every_line con}.
Variable self : capture_object.
Variable w : world.

(** What the loop adds to a trace: at most one open attempt, six reads and
    one write per index, and writes only for devices that got that far. *)
Lemma for_cam_id_counts cam_ids : forall cameras_tried s,
  exists b s' seg k,
    for_cam_id self w cam_ids cameras_tried s = (Returns b, s')
    /\ trace s' = trace s ++ seg
    /\ k <= length cam_ids
    /\ open_attempts seg = firstn k cam_ids
    /\ count_reads (trace s') <= count_reads (trace s) + 6 * k
    /\ count_imwrites (trace s') <= count_imwrites (trace s) + k
    /\ (forall j, writes_to j (trace s') = writes_to j (trace s)
                  \/ (In j cam_ids /\ reaches_write (w j))).
Proof.
  induction cam_ids as [|cam_id rest IH]; intros n s.
  - exists false. eexists. exists [Log WARNING (NoCamerasAvailable n)], 0.
    cbn [for_cam_id]. rewrite log_event_emit.
    split; [reflexivity|]. split; [reflexivity|]. cbn [trace].
    rewrite count_reads_app, count_imwrites_app. cbn.
    repeat split; try lia.
    intros j. left. rewrite writes_to_app. cbn. lia.
  - destruct (cycle_one_attempt self (w cam_id) cam_id s)
      as [r [s1 [seg1 [Hrun [Ht1 Ha1]]]]].
    pose proof (cycle_reads self (w cam_id) cam_id s Hrun) as Hr.
    pose proof (cycle_imwrites self (w cam_id) cam_id s Hrun) as Hi.
    assert (Hin : forall j, writes_to j (trace s1) = writes_to j (trace s)
                            \/ (j = cam_id /\ reaches_write (w cam_id))).
    { intros j. exact (cycle_writes_to self (w cam_id) cam_id s j Hrun). }
    cbn [snd] in Hr, Hi.
    cbn [for_cam_id]. unfold bind at 1. rewrite Hrun.
    destruct r as [|b].
    + destruct (IH (n + 1) s1)
        as [b [s2 [seg2 [k [Hrun2 [Ht2 [Hk [Ha2 [Hr2 [Hi2 Hin2]]]]]]]]]].
      exists b, s2, (seg1 ++ seg2), (S k).
      split; [exact Hrun2|].
      split; [rewrite Ht2, Ht1, app_assoc; reflexivity|].
      split; [cbn; lia|].
      split; [rewrite open_attempts_app, Ha1, Ha2; reflexivity|].
      split; [lia|]. split; [lia|].
      intros j. destruct (Hin2 j) as [Hold | [Hrest Hreach]].
      * destruct (Hin j) as [Hs | [-> Hreach]]; [left; congruence|].
        right. split; [now left | exact Hreach].
      * right. split; [now right | exact Hreach].
    + exists b, s1, seg1, 1.
      split; [reflexivity|]. split; [exact Ht1|].
      split; [cbn; lia|]. split; [exact Ha1|].
      split; [lia|]. split; [lia|].
      intros j. destruct (Hin j) as [Hs | [-> Hreach]]; [now left|].
      right. split; [now left | exact Hreach].
Qed.

(** A run that returns [True] does so from the pass of an index below 5. *)
Lemma capture_true_from_pass s :
  fst (capture self w s) = Returns true ->
  exists cam_id s0,
    cam_id < 5 /\ fst (cycle self (w cam_id) cam_id s0) = Returns (Return true).
Proof.
  intros H. unfold capture, capture_upto in H.
  repeat rewrite log_event_emit in H. unfold bind at 1 in H.
  cbn [emit] in H.
  destruct (negb (modules_available_cv2 self) || negb (cv2_is_not_None self));
    [discriminate H|].
  apply for_cam_id_true in H. destruct H as [cam_id [s0 [Hin Hc]]].
  apply in_seq in Hin. unfold max_cameras in Hin.
  exists cam_id, s0. split; [lia | exact Hc].
Qed.

End RunCounts.

(** X8. On a console that takes every log line, whatever the camera
    library, the file system and the clock do, [capture] returns a boolean
    after open attempts on an initial stretch [0 .. k-1] of the five
    indices, with at most six [cap.read()] calls and one [cv2.imwrite] call
    per attempted index.  On any console, what leaves [capture] is an
    exception that the console raised from both [print] calls of one log
    line; when that line is the first one, [capture] raises before any
    device is touched. *)
Theorem probing_is_bounded {con : console} {Hcon : takes_every_line con} self w :
  (exists b s' k,
     capture self w initial = (Returns b, s')
     /\ k <= 5
     /\ open_attempts (trace s') = seq 0 k
     /\ count_reads (trace s') <= 6 * k
     /\ count_imwrites (trace s') <= k)
  /\ (forall (any : console) s e s',
        capture (con := any) self w s = (Raises e, s') ->
        refused_line (con := any) e)
  /\ (forall (any : console) e0 e,
        print_raises (console := any) INFO StartingCapture = Some e0 ->
        fallback_raises (console := any) StartingCapture = Some e ->
        capture (con := any) self w initial
        = (Raises e, mkState [Log INFO StartingCapture] None 0 0)).
Proof.
  split; [|split].
  - unfold capture, capture_upto. repeat rewrite log_event_emit.
    unfold bind at 1.
    cbn [emit initial trace cap reads releases app].
    destruct (negb (modules_available_cv2 self) || negb (cv2_is_not_None self)).
    + exists false. eexists. exists 0. split; [reflexivity|]. cbn.
      repeat split; lia.
    + destruct (for_cam_id_counts self w (seq 0 max_cameras) 0
                  (mkState [Log INFO StartingCapture] None 0 0))
        as [b [s' [seg [k [Hrun [Ht [Hk [Ha [Hr [Hi _]]]]]]]]]].
      rewrite length_seq in Hk. unfold max_cameras in *.
      exists b, s', k. split; [exact Hrun|]. split; [exact Hk|].
      cbn [trace count_reads count_imwrites] in Hr, Hi.
      split; [|split; [lia | lia]].
      rewrite Ht. cbn [trace app open_attempts]. rewrite Ha.
      now rewrite firstn_of_seq.
  - intros any s e s' Hrun. exact (capture_upto_raises self _ w s Hrun).
  - intros any e0 e Hp Hf. unfold capture, capture_upto.
    unfold bind at 1. unfold _log_event, bind, try_except, emit, raise.
    rewrite Hp, Hf. reflexivity.
Qed.

Lemma probing_is_bounded_witness :
  exists b s' k,
    capture (con := plain_console) Scenario.me (Scenario.only 1 Scenario.goes_dark)
            initial = (Returns b, s')
    /\ k <= 5
    /\ open_attempts (trace s') = seq 0 k
    /\ count_reads (trace s') <= 6 * k
    /\ count_imwrites (trace s') <= k.
Proof.
  exact (proj1 (@probing_is_bounded plain_console _ Scenario.me
                  (Scenario.only 1 Scenario.goes_dark))).
Defined.

(** X9. [capture] calls [cv2.imwrite] only for an index below 5 whose
    device opened, let [set] return, passed the validation and delivered an
    accepted authoritative frame; when no device gets that far, nothing is
    written. *)
Theorem writes_need_a_frame {con : console} {Hcon : takes_every_line con} self w :
  let t := trace (snd (capture self w initial)) in
  (forall j, In (Imwrite j) t -> j < 5 /\ reaches_write (w j))
  /\ ((forall j, j < 5 -> ~ reaches_write (w j)) -> count_imwrites t = 0).
Proof.
  assert (Hin : forall j,
            In (Imwrite j) (trace (snd (capture self w initial))) ->
            j < 5 /\ reaches_write (w j)).
  { intros j. unfold capture, capture_upto. repeat rewrite log_event_emit.
    unfold bind at 1.
    cbn [emit initial trace cap reads releases app].
    destruct (negb (modules_available_cv2 self) || negb (cv2_is_not_None self)).
    - cbn. intros [H | [H | [H | []]]]; discriminate H.
    - destruct (for_cam_id_counts self w (seq 0 max_cameras) 0
                  (mkState [Log INFO StartingCapture] None 0 0))
        as [b [s' [seg [k [Hrun [_ [_ [_ [_ [_ Hw]]]]]]]]]].
      rewrite Hrun. cbn [snd]. intros Hj. apply writes_to_positive in Hj.
      destruct (Hw j) as [H | [Hjin Hreach]]; [cbn in H; lia|].
      apply in_seq in Hjin. unfold max_cameras in Hjin. split; [lia | exact Hreach]. }
  cbv zeta. split; [exact Hin|].
  intros Hnone.
  assert (Hno : forall t, (forall j, ~ In (Imwrite j) t) -> count_imwrites t = 0).
  { induction t as [|ev t IH]; intros H; [reflexivity|].
    destruct ev; cbn; try (apply IH; intros j Hj; apply (H j); now right).
    exfalso. apply (H cam_id). now left. }
  apply Hno. intros j Hj. destruct (Hin j Hj) as [Hlt Hreach].
  exact (Hnone j Hlt Hreach).
Qed.

Lemma writes_need_a_frame_witness :
  count_imwrites
    (trace (snd (capture (con := plain_console) Scenario.me
                         (Scenario.only 1 Scenario.goes_dark) initial))) = 0.
Proof.
  apply (proj2 (writes_need_a_frame (con := plain_console) Scenario.me
                  (Scenario.only 1 Scenario.goes_dark))).
  intros j Hj [Hvc [_ [_ [f [g [Hf [_ [_ Hg]]]]]]]].
  unfold Scenario.only in *. destruct (j =? 1); [|discriminate Hvc].
  destruct Hf as [Hf3 _].
  assert (Hfg : f + 1 + g <> 0) by lia.
  unfold accepted, Scenario.goes_dark, Scenario.camera_with in Hg. cbn in Hg.
  destruct (f + 1 + g) as [|m]; [lia|]. cbn in Hg. discriminate Hg.
Defined.

(** X10. [capture] returns [True] only from a pass in which the explicit
    [cap.release()] and [cv2.destroyAllWindows()] both returned normally.
    So when [destroyAllWindows] raises for every index, [capture] returns
    [False], whatever was written and verified before. *)
Theorem gui_call_decides_success {con : console} {Hcon : takes_every_line con} self w s :
  (fst (capture self w s) = Returns true ->
   exists cam_id,
     cam_id < 5 /\ release (w cam_id) 0 = None /\ destroy_raises (w cam_id) = None)
  /\ ((forall cam_id, cam_id < 5 -> destroy_raises (w cam_id) <> None) ->
      fst (capture self w s) = Returns false).
Proof.
  assert (Hinv : fst (capture self w s) = Returns true ->
    exists cam_id,
      cam_id < 5 /\ release (w cam_id) 0 = None /\ destroy_raises (w cam_id) = None).
  { intros H. destruct (capture_true_from_pass self w s H) as [cam_id [s0 [Hlt Hc]]].
    destruct (cycle_success_inv _ _ _ _ Hc)
      as [_ [_ [_ [_ [_ [_ [_ [Hr0 [Hd _]]]]]]]]].
    exists cam_id. auto. }
  split; [exact Hinv|].
  intros Hall.
  destruct (capture_upto_disciplined self w max_cameras s) as [b [s' [seg [Hrun _]]]].
  unfold capture in *. rewrite Hrun in *. cbn [fst] in *.
  destruct b; [|reflexivity].
  destruct (Hinv eq_refl) as [cam_id [Hlt [_ Hd]]].
  exfalso. exact (Hall cam_id Hlt Hd).
Qed.

Lemma gui_call_decides_success_witness :
  fst (capture (con := plain_console) Scenario.me
               (fun _ => MoreScenarios.headless) initial) = Returns false
  /\ count_imwrites
       (trace (snd (capture (con := plain_console) Scenario.me
                            (fun _ => MoreScenarios.headless) initial))) = 5.
Proof.
  split.
  - apply (proj2 (gui_call_decides_success (con := plain_console) Scenario.me
                    (fun _ => MoreScenarios.headless) initial)).
    intros cam_id _. discriminate.
  - vm_compute. reflexivity.
Defined.

(** ** [main] *)

Lemma capture_returns_true {con : console} {Hcon : takes_every_line con}
    self w k f g n :
  modules_available_cv2 self = true -> cv2_is_not_None self = true ->
  k < max_cameras ->
  none_opens_below w k ->
  delivers (w k) f g n ->
  fst (capture self w initial) = Returns true.
Proof.
  intros Hm Hcv Hk Hbelow Hdel.
  destruct (@capture_success_trace con Hcon self w k f g n Hm Hcv Hk Hbelow Hdel)
    as [s' [before [Hrun _]]].
  now rewrite Hrun.
Qed.

Section EntryFacts.

Import Entry.

Variable p : process.

(** The [finally] block decides: its [return] replaces whatever the [try]
    block and the handlers left, and so does what its [print] raises. *)
Lemma main_finally_wins body success :
  try_except_finally body (main_handlers p) (main_finally p success)
  = main_finally p success.
Proof.
  unfold try_except_finally, Control.try_finally, main_finally, print_and_return,
    print.
  destruct success;
    [destruct (print_fails p Succeeded) | destruct (print_fails p Failed)];
    reflexivity.
Qed.

Lemma main_body_success : fst (main_body p) = true <-> captured p.
Proof.
  unfold main_body, captured. split.
  - destruct (before_capture p) as [r | self]; [discriminate|].
    destruct (call_capture p self) as [r | b] eqn:Hc; [discriminate|].
    cbn [fst]. intros ->. exists self. auto.
  - intros [self [-> ->]]. reflexivity.
Qed.

Lemma main_value :
  main p = if print_fails p Banner then Control.Raise (Exception OtherException)
           else main_finally p (fst (main_body p)).
Proof.
  unfold main, print. destruct (print_fails p Banner); [reflexivity|].
  destruct (main_body p) as [success body]. apply main_finally_wins.
Qed.

Lemma main_finally_value success :
  main_finally p success
  = if success then
      if print_fails p Succeeded then Control.Raise (Exception OtherException)
      else Control.Return 0
    else
      if print_fails p Failed then Control.Raise (Exception OtherException)
      else Control.Return 1.
Proof.
  unfold main_finally, print_and_return, print.
  destruct success;
    [destruct (print_fails p Succeeded) | destruct (print_fails p Failed)];
    reflexivity.
Qed.

(** The statements before the capture, when their lines are printed. *)
Lemma before_capture_through self :
  prints_through p self ->
  construct p (parsed_output_dir p) = inr self ->
  abspath_raises p = None ->
  before_capture p = inr self.
Proof.
  intros [_ [Hi [Hs [Hh [Hm [Hu [Ho Hr]]]]]]] Hc Ha.
  unfold before_capture, print. rewrite Hi, Hc, Hs, Hh, Hm, Hu, Ha, Ho, Hr.
  reflexivity.
Qed.

(** A line of the system information that is not printed ends the [try]
    block before the capture. *)
Lemma before_capture_stops self :
  construct p (parsed_output_dir p) = inr self ->
  print_fails p (Hostname (hostname self)) = true
  \/ print_fails p (Mac (mac self)) = true
  \/ print_fails p (User (username self)) = true ->
  exists r, before_capture p = inl r.
Proof.
  intros Hc Hline. unfold before_capture, print. rewrite Hc.
  destruct (print_fails p Initializing); [eexists; reflexivity|].
  destruct (print_fails p SystemInformation); [eexists; reflexivity|].
  destruct (print_fails p (Hostname (hostname self))); [eexists; reflexivity|].
  destruct (print_fails p (Mac (mac self))); [eexists; reflexivity|].
  destruct (print_fails p (User (username self))); [eexists; reflexivity|].
  destruct Hline as [H | [H | H]]; discriminate H.
Qed.

End EntryFacts.

(** X11. The value of [main] is decided by its [finally] block alone.
    When the banner and the closing lines are printed, it is 0 when
    [capture.capture()] was reached and returned [True], and 1 on every
    other path, and no exception leaves [main]: the [return 130] of the
    [KeyboardInterrupt] clause and the [return 137] of the [MemoryError]
    clause are replaced by the [return 1] of the [finally] block, and so
    is the re-raised [SystemExit].  On any console [main] returns neither
    130 nor 137, and what leaves it is what the [print] of the banner or
    of the closing lines raised. *)
Theorem main_returns_zero_or_one (p : Entry.process) :
  (Entry.print_fails p Entry.Banner = false ->
   Entry.print_fails p Entry.Succeeded = false ->
   Entry.print_fails p Entry.Failed = false ->
   (Entry.captured p -> Entry.main p = Control.Return 0)
   /\ (~ Entry.captured p -> Entry.main p = Control.Return 1)
   /\ forall r, Entry.main p <> Control.Raise r)
  /\ Entry.main p <> Control.Return 130
  /\ Entry.main p <> Control.Return 137
  /\ (forall r,
        Entry.main p = Control.Raise r ->
        r = Entry.Exception OtherException
        /\ (Entry.print_fails p Entry.Banner = true
            \/ (Entry.captured p /\ Entry.print_fails p Entry.Succeeded = true)
            \/ (~ Entry.captured p /\ Entry.print_fails p Entry.Failed = true))).
Proof.
  pose proof (main_value p) as Hv. pose proof (main_body_success p) as Hs.
  rewrite main_finally_value in Hv.
  assert (Hnot : fst (Entry.main_body p) = false -> ~ Entry.captured p).
  { intros Hf Hc. apply Hs in Hc. rewrite Hf in Hc. discriminate Hc. }
  split; [|split; [|split]].
  - intros Hb Hsu Hfa. rewrite Hv, Hb.
    destruct (fst (Entry.main_body p)).
    + rewrite Hsu. split; [reflexivity|]. split; [|discriminate].
      intros Hc. elim Hc. now apply Hs.
    + rewrite Hfa. split; [|split; [reflexivity | discriminate]].
      intros Hc. elim (Hnot eq_refl Hc).
  - rewrite Hv. destruct (Entry.print_fails p Entry.Banner); [discriminate|].
    destruct (fst (Entry.main_body p));
      [destruct (Entry.print_fails p Entry.Succeeded)
      |destruct (Entry.print_fails p Entry.Failed)]; discriminate.
  - rewrite Hv. destruct (Entry.print_fails p Entry.Banner); [discriminate|].
    destruct (fst (Entry.main_body p));
      [destruct (Entry.print_fails p Entry.Succeeded)
      |destruct (Entry.print_fails p Entry.Failed)]; discriminate.
  - intros r. rewrite Hv.
    destruct (Entry.print_fails p Entry.Banner).
    { intros Hr. injection Hr as <-. split; [reflexivity | now left]. }
    destruct (fst (Entry.main_body p)).
    + destruct (Entry.print_fails p Entry.Succeeded); intros Hr;
        [|discriminate Hr].
      injection Hr as <-. split; [reflexivity|]. right. left.
      split; [now apply Hs | reflexivity].
    + destruct (Entry.print_fails p Entry.Failed); intros Hr;
        [|discriminate Hr].
      injection Hr as <-. split; [reflexivity|]. right. right.
      split; [now apply Hnot | reflexivity].
Qed.

Lemma main_returns_zero_or_one_witness :
  Entry.main (MoreScenarios.interrupted Scenario.me (Scenario.only 2 Scenario.working))
  = Control.Return 1.
Proof.
  apply (proj1 (proj2 (proj1 (main_returns_zero_or_one
           (MoreScenarios.interrupted Scenario.me (Scenario.only 2 Scenario.working)))
           eq_refl eq_refl eq_refl))).
  intros [self [_ Hc]]. discriminate Hc.
Defined.




(** ** Installing and loading OpenCV *)

Section InstallFacts.

Import Install.

Variable h : host.

Lemma settles_attempt i r : settles h i r -> attempt h i = Control.Return r.
Proof.
  unfold settles, launches, attempt, method_body, run_method, restore_handler.
  intros [Hl [Hrun Hfin]].
  destruct (import_signal h i); [discriminate|].
  destruct (arm h i) as [e | old]; [discriminate|].
  destruct Hrun as [[-> ->] | [-> ->]]; cbn;
    (destruct Hfin as [Hold | ->]; [injection Hold as -> |]; [reflexivity|]);
    now destruct old.
Qed.

(** A pass ends with [return] exactly when its method settles; otherwise
    it goes on with the next method, unless the [print] of its
    [except Exception] clause raises. *)
Lemma attempt_shape i :
  (exists r, attempt h i = Control.Return r /\ settles h i r)
  \/ ((attempt h i = Control.Continue \/ attempt h i = Control.Falls
       \/ (attempt h i = Control.Raise OtherError
           /\ print_fails h (AttemptFailed i) = true))
      /\ forall r, ~ settles h i r).
Proof.
  unfold settles, launches, attempt, attempt_handler, method_body, run_method,
    restore_handler, print.
  destruct (print_fails h (AttemptFailed i)) eqn:Hp;
    (destruct (import_signal h i) as [e|];
     [right; split; [cbn; auto | intros r [Hl _]; discriminate]|]);
    (destruct (arm h i) as [e | old];
     [right; split; [cbn; auto | intros r [Hl _]; discriminate]|]);
    destruct (run h i) as [[| |] | [|n]]; cbn;
    try destruct (print_fails h (MethodFailed i)); cbn;
    (destruct old; [destruct (disarm h i) eqn:Hd|]); cbn;
    first
      [ left; eexists; split; [reflexivity|]; solve [auto]
      | right; split; [solve [auto]|];
        first [ intros r [_ [_ [Ho | Ho]]]; discriminate
              | intros r [_ [[[Hr _] | [Hr _]] _]]; discriminate ] ].
Qed.

Lemma attempt_goes_on i :
  print_fails h (AttemptFailed i) = false ->
  (forall r, ~ settles h i r) ->
  attempt h i = Control.Continue \/ attempt h i = Control.Falls.
Proof.
  intros Hp Hno.
  destruct (attempt_shape i) as [[r [_ Hr]] | [[H | [H | [_ H]]] _]].
  - elim (Hno r Hr).
  - now left.
  - now right.
  - rewrite Hp in H. discriminate H.
Qed.

Lemma for_method_prefix before : forall i after r,
  (forall j, In j before ->
     print_fails h (AttemptFailed j) = false /\ forall r', ~ settles h j r') ->
  settles h i r ->
  for_method h (before ++ i :: after)
  = (filter (launches h) (before ++ [i]), Control.Return r).
Proof.
  induction before as [|j before IH]; intros i after r Hbefore Hi.
  - cbn [app for_method filter]. rewrite (settles_attempt Hi).
    destruct Hi as [-> _]. reflexivity.
  - cbn [app for_method filter].
    rewrite (IH i after r); [|intros k Hk; apply Hbefore; now right | exact Hi].
    destruct (Hbefore j (or_introl eq_refl)) as [Hp Hno].
    destruct (@attempt_goes_on j Hp Hno) as [-> | ->];
      now destruct (launches h j).
Qed.

Lemma for_method_exhausts methods :
  (forall j, In j methods ->
     print_fails h (AttemptFailed j) = false /\ forall r, ~ settles h j r) ->
  for_method h methods = (filter (launches h) methods, Control.Falls).
Proof.
  induction methods as [|j methods IH]; intros Hall; [reflexivity|].
  cbn [for_method filter]. rewrite IH; [|intros k Hk; apply Hall; now right].
  destruct (Hall j (or_introl eq_refl)) as [Hp Hno].
  destruct (@attempt_goes_on j Hp Hno) as [-> | ->];
    now destruct (launches h j).
Qed.

(** Either no method settles, or there is a first one that does. *)
Lemma first_settled methods :
  (forall j, In j methods -> forall r, ~ settles h j r)
  \/ exists before i after r,
       methods = before ++ i :: after
       /\ (forall j, In j before -> forall r', ~ settles h j r')
       /\ settles h i r.
Proof.
  induction methods as [|j methods IH]; [left; intros j []|].
  destruct (attempt_shape j) as [[r [_ Hr]] | [_ Hj]].
  - right. exists [], j, methods, r. split; [reflexivity|]. split; [intros k []|exact Hr].
  - destruct IH as [Hall | [before [i [after [r [-> [Hb Hi]]]]]]].
    + left. intros k [<- | Hk]; [exact Hj | now apply Hall].
    + right. exists (j :: before), i, after, r. split; [reflexivity|].
      split; [|exact Hi]. intros k [<- | Hk]; [exact Hj | now apply Hb].
Qed.

(** What leaves the loop was raised by the [print] of the handler of one
    of its passes. *)
Lemma for_method_raises methods : forall ran e,
  for_method h methods = (ran, Control.Raise e) ->
  e = OtherError
  /\ exists i, In i methods /\ print_fails h (AttemptFailed i) = true.
Proof.
  induction methods as [|j methods IH]; intros ran e H; [discriminate H|].
  cbn [for_method] in H.
  destruct (for_method h methods) as [more c] eqn:Hrest.
  destruct (attempt_shape j) as [[r [Hr _]] | [[Ha | [Ha | [Ha Hp]]] _]];
    rewrite Ha in H || rewrite Hr in H.
  - discriminate H.
  - injection H as _ ->.
    destruct (IH more e eq_refl) as [He [i [Hi Hp]]].
    split; [exact He|]. exists i. split; [now right | exact Hp].
  - injection H as _ ->.
    destruct (IH more e eq_refl) as [He [i [Hi Hp]]].
    split; [exact He|]. exists i. split; [now right | exact Hp].
  - injection H as _ <-. split; [reflexivity|].
    exists j. split; [now left | exact Hp].
Qed.

Lemma seq_split n before i after :
  seq 0 n = before ++ i :: after -> before = seq 0 i /\ i < n.
Proof.
  intros H.
  assert (Hlen : length before < n).
  { rewrite <- (length_seq n 0), H, length_app. cbn. lia. }
  assert (Hi : i = length before).
  { assert (Hn : nth (length before) (seq 0 n) 0 = i).
    { rewrite H, app_nth2, Nat.sub_diag; [reflexivity | lia]. }
    rewrite seq_nth in Hn by exact Hlen. now rewrite <- Hn. }
  split; [|lia].
  assert (Hf : firstn (length before) (seq 0 n) = before).
  { rewrite H, firstn_app, Nat.sub_diag, firstn_all. cbn. apply app_nil_r. }
  rewrite <- Hf, Hi. apply firstn_of_seq. lia.
Qed.

(** When the announcement and the reports of the handlers get through,
    [safe_install_module] returns its pair. *)
Lemma safe_install_module_returns :
  reports_through h 5 ->
  exists ran ok msg, safe_install_module h = (ran, inr (ok, msg)).
Proof.
  intros [Hann Hrep].
  unfold safe_install_module. destruct (subprocess_is_None h); [eauto|].
  unfold print. rewrite Hann.
  assert (Hin : forall j, In j installation_methods ->
                          print_fails h (AttemptFailed j) = false).
  { intros j Hj. apply in_seq in Hj. apply Hrep. lia. }
  destruct (first_settled installation_methods)
    as [Hall | [before [i [after [[ok msg] [Hsplit [Hb Hi]]]]]]].
  - rewrite (@for_method_exhausts installation_methods); [eauto|].
    intros j Hj. split; [now apply Hin | now apply Hall].
  - rewrite Hsplit, (@for_method_prefix before i after (ok, msg)); [eauto| |exact Hi].
    intros j Hj. split; [|now apply Hb].
    apply Hin. rewrite Hsplit. apply in_or_app. now left.
Qed.

(** What leaves [safe_install_module] was raised by the announcement or
    by the report of a handler. *)
Lemma safe_install_module_raises ran e :
  safe_install_module h = (ran, inl e) ->
  e = OtherError
  /\ subprocess_is_None h = false
  /\ (print_fails h Attempting = true
      \/ exists i, i < 5 /\ print_fails h (AttemptFailed i) = true).
Proof.
  unfold safe_install_module.
  destruct (subprocess_is_None h); [discriminate|].
  unfold print. destruct (print_fails h Attempting).
  - intros H. injection H as _ <-. auto.
  - destruct (for_method h installation_methods) as [ran' c] eqn:Hloop.
    destruct c; try discriminate. intros H. injection H as _ ->.
    destruct (for_method_raises _ Hloop) as [He [i [Hi Hp]]].
    split; [exact He|]. split; [reflexivity|]. right.
    exists i. apply in_seq in Hi. split; [lia | exact Hp].
Qed.

End InstallFacts.

(** X14. [safe_install_module] returns its pair whenever its announcement
    and the reports of its [except Exception] clause are printed, whatever
    the calls into the system do.  It then has probed an initial segment
    of the five methods, running [subprocess.run] for those among them
    whose alarm could be armed, and it reports success exactly with the
    message of success; success means that the last method probed was run
    and returned the exit status 0.  What the function raises otherwise is
    what one of these [print] calls raised: the announcement stands
    outside every [try], and the report of the clause in a handler. *)
Theorem installation_always_reports (h : Install.host) :
  (Install.reports_through h 5 ->
   exists ran ok msg k,
     Install.safe_install_module h = (ran, inr (ok, msg))
     /\ k <= 5
     /\ ran = filter (Install.launches h) (seq 0 k)
     /\ (ok = true <-> msg = Install.Installed)
     /\ (ok = true -> 0 < k /\ Install.run h (k - 1) = inr 0 /\ In (k - 1) ran))
  /\ (forall ran e,
        Install.safe_install_module h = (ran, inl e) ->
        e = Install.OtherError
        /\ Install.subprocess_is_None h = false
        /\ (Install.print_fails h Install.Attempting = true
            \/ exists i, i < 5
                 /\ Install.print_fails h (Install.AttemptFailed i) = true))
  /\ (Install.subprocess_is_None h = false ->
      Install.print_fails h Install.Attempting = true ->
      Install.safe_install_module h = ([], inl Install.OtherError)).
Proof.
  split; [|split].
  - intros [Hann Hrep].
    assert (Hin : forall j, In j Install.installation_methods ->
                            Install.print_fails h (Install.AttemptFailed j) = false).
    { intros j Hj. apply in_seq in Hj. apply Hrep. lia. }
    unfold Install.safe_install_module.
    destruct (Install.subprocess_is_None h).
    { exists [], false, Install.SubprocessMissing, 0.
      split; [reflexivity|]. split; [lia|]. split; [reflexivity|].
      split; [split; discriminate | discriminate]. }
    unfold Install.print. rewrite Hann.
    destruct (first_settled h Install.installation_methods)
      as [Hall | [before [i [after [r [Hsplit [Hb Hi]]]]]]].
    + rewrite (@for_method_exhausts h Install.installation_methods).
      * exists (filter (Install.launches h) (seq 0 5)), false, Install.AllFailed, 5.
        split; [reflexivity|]. split; [lia|]. split; [reflexivity|].
        split; [split; discriminate | discriminate].
      * intros j Hj. split; [now apply Hin | now apply Hall].
    + rewrite Hsplit, (@for_method_prefix h before i after r).
      * destruct (@seq_split 5 before i after Hsplit) as [-> Hlt].
        replace (seq 0 i ++ [i]) with (seq 0 (S i)) by (rewrite seq_S; reflexivity).
        destruct r as [ok msg].
        exists (filter (Install.launches h) (seq 0 (S i))), ok, msg, (S i).
        split; [reflexivity|]. split; [lia|]. split; [reflexivity|].
        destruct Hi as [Hl [[[Hrun Hr] | [Hrun Hr]] _]]; injection Hr as -> ->.
        -- split; [split; reflexivity|]. intros _.
           replace (S i - 1) with i by lia. split; [lia|]. split; [exact Hrun|].
           apply filter_In. split; [apply in_seq; lia | exact Hl].
        -- split; [split; discriminate | discriminate].
      * intros j Hj. split; [|now apply Hb].
        apply Hin. rewrite Hsplit. apply in_or_app. now left.
      * exact Hi.
  - intros ran e H. exact (safe_install_module_raises h H).
  - intros Hsub Hann. unfold Install.safe_install_module, Install.print.
    now rewrite Hsub, Hann.
Qed.

Lemma installation_always_reports_witness :
  (exists ran ok msg k,
     Install.safe_install_module StartupScenarios.pip_on_path = (ran, inr (ok, msg))
     /\ k <= 5
     /\ ran = filter (Install.launches StartupScenarios.pip_on_path) (seq 0 k)
     /\ (ok = true <-> msg = Install.Installed)
     /\ (ok = true ->
         0 < k /\ Install.run StartupScenarios.pip_on_path (k - 1) = inr 0
         /\ In (k - 1) ran))
  /\ Install.safe_install_module StartupScenarios.closed_stdout
     = ([], inl Install.OtherError).
Proof.
  split.
  - apply (proj1 (installation_always_reports StartupScenarios.pip_on_path)).
    split; [reflexivity | intros i _; reflexivity].
  - apply (proj2 (proj2 (installation_always_reports StartupScenarios.closed_stdout)));
      reflexivity.
Defined.

(** X15. Where the alarm cannot be armed (no [SIGALRM], or not in the
    main thread), the installation cannot succeed: every pass is left
    before [subprocess.run] is called, no installer is run, and, the
    announcement and the report of each pass being printed, the result is
    the failure of all methods. *)
Theorem no_alarm_no_installation (h : Install.host) :
  Install.subprocess_is_None h = false ->
  (forall i, i < 5 -> exists e, Install.arm h i = inl e) ->
  Install.reports_through h 5 ->
  Install.safe_install_module h = ([], inr (false, Install.AllFailed)).
Proof.
  intros Hsub Harm [Hann Hrep]. unfold Install.safe_install_module, Install.print.
  rewrite Hsub, Hann.
  assert (Hl : forall j, In j Install.installation_methods -> Install.launches h j = false).
  { intros j Hj. apply in_seq in Hj. destruct (Harm j) as [e He]; [lia|].
    unfold Install.launches. rewrite He. now destruct (Install.import_signal h j). }
  rewrite for_method_exhausts.
  - assert (Hf : filter (Install.launches h) Install.installation_methods = []).
    { induction Install.installation_methods as [|j l IH]; [reflexivity|].
      cbn [filter]. rewrite (Hl j (or_introl eq_refl)). apply IH.
      intros k Hk. apply Hl. now right. }
    now rewrite Hf.
  - intros j Hj. split.
    + apply in_seq in Hj. apply Hrep. lia.
    + intros r [Hlj _]. rewrite (Hl j Hj) in Hlj. discriminate.
Qed.

Lemma no_alarm_no_installation_witness :
  Install.safe_install_module StartupScenarios.no_sigalrm
  = ([], inr (false, Install.AllFailed)).
Proof.
  apply (@no_alarm_no_installation StartupScenarios.no_sigalrm).
  - reflexivity.
  - intros i _. exists Install.OtherError. reflexivity.
  - split; [reflexivity | intros i _; reflexivity].
Defined.

(** X16. The first method that settles decides.  If no method before [i]
    settles (each is not found, fails, or is left early, and the
    announcement and the reports of these passes are printed) and method
    [i] is run and returns 0, or times out, with the handler restored, then
    that is the result, and no method after [i] is run. *)
Theorem first_settled_method_decides (h : Install.host) (i : nat) (r : bool * Install.message) :
  Install.subprocess_is_None h = false ->
  i < 5 ->
  Install.reports_through h i ->
  (forall j, j < i -> forall r', ~ Install.settles h j r') ->
  Install.settles h i r ->
  Install.safe_install_module h
  = (filter (Install.launches h) (seq 0 (S i)), inr r).
Proof.
  intros Hsub Hi [Hann Hrep] Hbefore Hset.
  unfold Install.safe_install_module, Install.print. rewrite Hsub, Hann.
  assert (Hsplit : Install.installation_methods = seq 0 i ++ i :: seq (S i) (5 - S i)).
  { unfold Install.installation_methods.
    replace 5 with (i + S (5 - S i)) at 1 by lia. now rewrite seq_app. }
  rewrite Hsplit, (@for_method_prefix h (seq 0 i) i (seq (S i) (5 - S i)) r).
  - now rewrite seq_S.
  - intros j Hj. apply in_seq in Hj. split; [apply Hrep | apply Hbefore]; lia.
  - exact Hset.
Qed.

Lemma first_settled_method_decides_witness :
  Install.safe_install_module StartupScenarios.pip_on_path
  = ([0; 1], inr (true, Install.Installed)).
Proof.
  apply (@first_settled_method_decides StartupScenarios.pip_on_path 1
           (true, Install.Installed)).
  - reflexivity.
  - lia.
  - split; [reflexivity | intros i _; reflexivity].
  - intros j Hj r' [_ [[[Hrun _] | [Hrun _]] _]];
      assert (j = 0) by lia; subst j; discriminate Hrun.
  - split; [reflexivity|]. split; [left; split; reflexivity | right; reflexivity].
Defined.

(** X17. A [return] in the [try] block does not survive a [finally] block
    that raises.  If every method installs the package (exit status 0) and
    restoring the signal handler raises each time, all five methods are
    run and, the announcement and the report of each pass being printed,
    the result is the failure of all methods. *)
Theorem failed_restore_discards_success (h : Install.host) :
  Install.subprocess_is_None h = false ->
  (forall i, i < 5 ->
     Install.import_signal h i = None /\ Install.arm h i = inr true
     /\ Install.run h i = inr 0 /\ Install.disarm h i <> None) ->
  Install.reports_through h 5 ->
  Install.safe_install_module h = (seq 0 5, inr (false, Install.AllFailed)).
Proof.
  intros Hsub Hall [Hann Hrep].
  unfold Install.safe_install_module, Install.print. rewrite Hsub, Hann.
  rewrite for_method_exhausts.
  - assert (Hf : forall l, (forall j, In j l -> j < 5) ->
                           filter (Install.launches h) l = l).
    { induction l as [|j l IH]; intros Hl; [reflexivity|].
      cbn [filter]. destruct (Hall j (Hl j (or_introl eq_refl))) as [Hi [Ha _]].
      unfold Install.launches at 1. rewrite Hi, Ha. f_equal. apply IH.
      intros k Hk. apply Hl. now right. }
    unfold Install.installation_methods. rewrite Hf; [reflexivity|].
    intros j Hj. apply in_seq in Hj. lia.
  - intros j Hj. apply in_seq in Hj. split; [apply Hrep; lia|].
    intros r [_ [_ [Ho | Ho]]];
      destruct (Hall j ltac:(lia)) as [_ [Ha [_ Hd]]]; [|contradiction].
    rewrite Ha in Ho. discriminate Ho.
Qed.

Lemma failed_restore_discards_success_witness :
  Install.safe_install_module StartupScenarios.restore_raises
  = ([0; 1; 2; 3; 4], inr (false, Install.AllFailed)).
Proof.
  apply (@failed_restore_discards_success StartupScenarios.restore_raises).
  - reflexivity.
  - intros i _. repeat split; discriminate.
  - split; [reflexivity | intros i _; reflexivity].
Defined.

Section ModulesFacts.

Import Modules.

Variable env : environment.

(** One pass of the import loop. *)
Lemma for_attempt_cons a rest set :
  for_attempt env (a :: rest) set
  = match probe env a with
    | None =>
      if print_fails env Initialized then
        if print_fails env (InitializationError a) then
          mkOutcome [ImportCv2 a] true (Some OtherError)
        else
          let o := for_attempt env rest true in
          mkOutcome (ImportCv2 a :: (if a <? 2 then [Sleep] else []) ++ actions o)
                    (cv2_success o) (raised o)
      else mkOutcome [ImportCv2 a] true None
    | Some ImportError =>
      if (a =? 0) && subprocess_truthy env then
        match snd (Install.safe_install_module (installer env)) with
        | inl e => mkOutcome [ImportCv2 a; InstallOpenCV] set (Some OtherError)
        | inr (success, msg) =>
          if success then
            let o := for_attempt env rest set in
            mkOutcome (ImportCv2 a :: InstallOpenCV :: actions o)
                      (cv2_success o) (raised o)
          else print_and_break env NotInstalled [ImportCv2 a; InstallOpenCV] set
        end
      else print_and_break env NotAvailable [ImportCv2 a] set
    | Some OtherError =>
      if print_fails env (InitializationError a) then
        mkOutcome [ImportCv2 a] set (Some OtherError)
      else
        let o := for_attempt env rest set in
        mkOutcome (ImportCv2 a :: (if a <? 2 then [Sleep] else []) ++ actions o)
                  (cv2_success o) (raised o)
    end.
Proof. reflexivity. Qed.

(** The installer is called by the first attempt only. *)
Lemma for_attempt_installs attempts : forall set,
  ~ In 0 attempts -> count_installs (actions (for_attempt env attempts set)) = 0.
Proof.
  induction attempts as [|a rest IH]; intros set Hno; [reflexivity|].
  assert (Ha : (a =? 0) = false)
    by (apply Nat.eqb_neq; intros ->; apply Hno; now left).
  assert (Hrest : ~ In 0 rest) by (intros H; apply Hno; now right).
  cbn [for_attempt]. rewrite Ha. cbn [andb]. unfold print_and_break.
  destruct (probe env a) as [[|]|];
    repeat match goal with
           | |- context [if print_fails env ?l then _ else _] =>
               destruct (print_fails env l)
           end;
    cbn [actions count_installs count_imports app];
    try reflexivity;
    destruct (a <? 2); cbn [app count_installs]; now apply IH.
Qed.

Lemma for_attempt_imports attempts : forall set,
  count_imports (actions (for_attempt env attempts set)) <= length attempts.
Proof.
  induction attempts as [|a rest IH]; intros set; [cbn; lia|].
  cbn [for_attempt length]. unfold print_and_break.
  destruct (probe env a) as [[|]|];
    repeat match goal with
           | |- context [if print_fails env ?l then _ else _] =>
               destruct (print_fails env l)
           | |- context [if ?b && subprocess_truthy env then _ else _] =>
               destruct (b && subprocess_truthy env)
           | |- context [snd (Install.safe_install_module ?h)] =>
               destruct (snd (Install.safe_install_module h)) as [e | [[|] msg]]
           end;
    cbn [actions count_imports app]; try lia;
    try (destruct (a <? 2); cbn [app count_imports]);
    match goal with
    | |- context [for_attempt env rest ?b] => specialize (IH b); lia
    end.
Qed.

(** [cv2_success] is set by a pass whose import, test capture and release
    all returned. *)
Lemma for_attempt_success attempts : forall set,
  cv2_success (for_attempt env attempts set) = true ->
  set = true \/ exists a, In a attempts /\ probe env a = None.
Proof.
  induction attempts as [|a rest IH]; intros set; [cbn; auto|].
  cbn [for_attempt]. unfold print_and_break.
  destruct (probe env a) as [[|]|] eqn:Hp;
    repeat match goal with
           | |- context [if print_fails env ?l then _ else _] =>
               destruct (print_fails env l)
           | |- context [if ?b && subprocess_truthy env then _ else _] =>
               destruct (b && subprocess_truthy env)
           | |- context [snd (Install.safe_install_module ?h)] =>
               destruct (snd (Install.safe_install_module h)) as [e | [[|] msg]]
           end;
    cbn [cv2_success]; auto;
    try (intros _; right; exists a; split; [now left | exact Hp]);
    intros H; apply IH in H; destruct H as [H | [b [Hb Hpb]]]; auto;
    right; exists b; (split; [now right | exact Hpb]).
Qed.

(** What leaves the import loop left the installer or was raised by the
    [print] of a handler. *)
Lemma for_attempt_raises attempts : forall set,
  raised (for_attempt env attempts set) <> None ->
  (exists ran e, Install.safe_install_module (installer env) = (ran, inl e))
  \/ print_fails env NotInstalled = true
  \/ print_fails env NotAvailable = true
  \/ exists a, In a attempts /\ print_fails env (InitializationError a) = true.
Proof.
  induction attempts as [|a rest IH]; intros set; [cbn; congruence|].
  assert (Hrest : forall b,
            raised (for_attempt env rest b) <> None ->
            (exists ran e, Install.safe_install_module (installer env) = (ran, inl e))
            \/ print_fails env NotInstalled = true
            \/ print_fails env NotAvailable = true
            \/ exists a', In a' (a :: rest)
                          /\ print_fails env (InitializationError a') = true).
  { intros b H. destruct (IH b H) as [H1 | [H1 | [H1 | [a' [Ha' H1]]]]]; auto.
    right. right. right. exists a'. split; [now right | exact H1]. }
  cbn [for_attempt]. unfold print_and_break.
  destruct (probe env a) as [[|]|];
    repeat match goal with
           | |- context [if print_fails env ?l then _ else _] =>
               destruct (print_fails env l) eqn:?
           | |- context [if ?b && subprocess_truthy env then _ else _] =>
               destruct (b && subprocess_truthy env)
           | |- context [snd (Install.safe_install_module ?h)] =>
               destruct (Install.safe_install_module h) as [ran [e | [[|] msg]]] eqn:?;
               cbn [snd]
           end;
    cbn [raised]; try congruence; auto;
    try (intros _; left; eexists; eexists; reflexivity);
    try (intros _; right; right; right; exists a; split; [now left | assumption]);
    apply Hrest.
Qed.

End ModulesFacts.

(** X18. The import loop imports OpenCV at most three times and calls
    the installer at most once, and only after the first import raised
    [ImportError] with [subprocess] at hand; [cv2_success] and the two
    attributes are set only by a pass in which the import, the test
    capture and its release all returned.  The loop ends without raising
    whenever the installer returns and the reports of its handlers are
    printed.  What it raises otherwise left the installer or was raised by
    the [print] of a handler: a success line that is not printed sets the
    attributes all the same and sends the pass to the
    [except Exception] clause. *)
Theorem opencv_loading_is_bounded (env : Modules.environment) :
  let o := Modules.initialize_cv2 env in
  Modules.count_imports (Modules.actions o) <= 3
  /\ Modules.count_installs (Modules.actions o) <= 1
  /\ (Modules.count_installs (Modules.actions o) = 1 ->
      Modules.probe env 0 = Some Modules.ImportError
      /\ Modules.subprocess_truthy env = true)
  /\ (Modules.cv2_success o = true ->
      exists attempt, attempt < 3 /\ Modules.probe env attempt = None)
  /\ (Modules.raised o <> None ->
      (exists ran e,
         Install.safe_install_module (Modules.installer env) = (ran, inl e))
      \/ Modules.print_fails env Modules.NotInstalled = true
      \/ Modules.print_fails env Modules.NotAvailable = true
      \/ exists attempt,
           attempt < 3
           /\ Modules.print_fails env (Modules.InitializationError attempt) = true)
  /\ (Install.reports_through (Modules.installer env) 5 ->
      Modules.reports_through env ->
      Modules.raised o = None)
  /\ (Modules.probe env 0 = None ->
      Modules.print_fails env Modules.Initialized = true ->
      Modules.print_fails env (Modules.InitializationError 0) = true ->
      o = Modules.mkOutcome [Modules.ImportCv2 0] true (Some Modules.OtherError)).
Proof.
  cbv zeta.
  assert (Hraises : Modules.raised (Modules.initialize_cv2 env) <> None ->
      (exists ran e,
         Install.safe_install_module (Modules.installer env) = (ran, inl e))
      \/ Modules.print_fails env Modules.NotInstalled = true
      \/ Modules.print_fails env Modules.NotAvailable = true
      \/ exists attempt,
           attempt < 3
           /\ Modules.print_fails env (Modules.InitializationError attempt) = true).
  { intros H. apply for_attempt_raises in H.
    destruct H as [H | [H | [H | [a [Ha H]]]]]; auto.
    right. right. right. exists a. apply in_seq in Ha. split; [lia | exact H]. }
  assert (Hno : ~ In 0 [1; 2]) by (cbn; lia).
  split; [|split; [|split; [|split; [|split; [|split]]]]].
  - exact (for_attempt_imports env (seq 0 3) false).
  - unfold Modules.initialize_cv2. change (seq 0 3) with [0; 1; 2].
    rewrite for_attempt_cons. cbv zeta. cbn [Nat.eqb andb].
    unfold Modules.print_and_break.
    destruct (Modules.probe env 0) as [[|]|];
      repeat match goal with
             | |- context [if Modules.print_fails env ?l then _ else _] =>
                 destruct (Modules.print_fails env l)
             | |- context [if Modules.subprocess_truthy env then _ else _] =>
                 destruct (Modules.subprocess_truthy env)
             | |- context [snd (Install.safe_install_module ?h)] =>
                 destruct (snd (Install.safe_install_module h)) as [e | [[|] msg]]
             end;
      cbn [Modules.actions Modules.count_installs app Nat.ltb Nat.leb];
      try lia;
      match goal with
      | |- context [Modules.for_attempt env [1; 2] ?b] =>
          rewrite (@for_attempt_installs env [1; 2] b Hno); lia
      end.
  - unfold Modules.initialize_cv2. change (seq 0 3) with [0; 1; 2].
    rewrite for_attempt_cons. cbv zeta. cbn [Nat.eqb andb].
    unfold Modules.print_and_break.
    destruct (Modules.probe env 0) as [[|]|];
      repeat match goal with
             | |- context [if Modules.print_fails env ?l then _ else _] =>
                 destruct (Modules.print_fails env l)
             | |- context [if Modules.subprocess_truthy env then _ else _] =>
                 destruct (Modules.subprocess_truthy env)
             | |- context [snd (Install.safe_install_module ?h)] =>
                 destruct (snd (Install.safe_install_module h)) as [e | [[|] msg]]
             end;
      cbn [Modules.actions Modules.count_installs app Nat.ltb Nat.leb];
      try (intros _; split; reflexivity);
      try discriminate;
      match goal with
      | |- context [Modules.for_attempt env [1; 2] ?b] =>
          rewrite (@for_attempt_installs env [1; 2] b Hno); discriminate
      end.
  - intros H. apply for_attempt_success in H.
    destruct H as [H | [a [Ha Hp]]]; [discriminate H|].
    exists a. apply in_seq in Ha. split; [lia | exact Hp].
  - exact Hraises.
  - intros Hinst [Hni [Hna Hie]].
    destruct (Modules.raised (Modules.initialize_cv2 env)) eqn:Hr; [|reflexivity].
    exfalso.
    destruct (Hraises ltac:(discriminate)) as [[ran [e H]] | [H | [H | [a [Ha H]]]]];
      [ | congruence | congruence | rewrite (Hie a Ha) in H; discriminate H].
    destruct (@safe_install_module_returns (Modules.installer env) Hinst)
      as [ran' [ok [msg H']]].
    rewrite H in H'. discriminate H'.
  - intros Hp Hi He. unfold Modules.initialize_cv2.
    cbn [seq Modules.for_attempt]. now rewrite Hp, Hi, He.
Qed.

Lemma opencv_loading_is_bounded_witness :
  Modules.raised (Modules.initialize_cv2 StartupScenarios.opencv_on_demand) = None
  /\ Modules.initialize_cv2 StartupScenarios.ascii_stdout
     = Modules.mkOutcome [Modules.ImportCv2 0] true (Some Modules.OtherError).
Proof.
  split.
  - apply (proj1 (proj2 (proj2 (proj2 (proj2 (proj2
             (opencv_loading_is_bounded StartupScenarios.opencv_on_demand))))))).
    + split; [reflexivity | intros i _; reflexivity].
    + split; [reflexivity|]. split; [reflexivity | intros a _; reflexivity].
  - apply (proj2 (proj2 (proj2 (proj2 (proj2 (proj2
             (opencv_loading_is_bounded StartupScenarios.ascii_stdout)))))));
      reflexivity.
Defined.

(** X19. Without OpenCV nothing is captured.  If the first import raises
    [ImportError] and the installation is refused or fails, the loop is
    left after that one import, by [break] or by what the [print] of the
    handler raises, and both attributes that [capture] tests stay unset;
    on a console that takes every log line [capture] then returns [False]
    after three log lines without opening any device. *)
Theorem missing_opencv_is_final {con : console} {Hcon : takes_every_line con}
    (env : Modules.environment) (hostname mac username : pystr) (w : world) :
  Modules.probe env 0 = Some Modules.ImportError ->
  Modules.subprocess_truthy env = false
  \/ (exists msg, snd (Install.safe_install_module (Modules.installer env))
                  = inr (false, msg)) ->
  Modules.count_imports (Modules.actions (Modules.initialize_cv2 env)) = 1
  /\ Modules.loaded env = false
  /\ capture (Modules.object_after env hostname mac username) w initial
     = (Returns false,
        mkState [Log INFO StartingCapture; Log ERROR OpenCVNotAvailable;
                 Log INFO InstallHint] None 0 0).
Proof.
  intros H0 Hfail.
  assert (Hrun : Modules.count_imports
                   (Modules.actions (Modules.initialize_cv2 env)) = 1
                 /\ Modules.cv2_success (Modules.initialize_cv2 env) = false).
  { unfold Modules.initialize_cv2. cbn [seq Modules.for_attempt Nat.eqb andb].
    rewrite H0. destruct Hfail as [-> | [msg ->]].
    - split; reflexivity.
    - destruct (Modules.subprocess_truthy env); split; reflexivity. }
  destruct Hrun as [Hcount Hl].
  split; [exact Hcount|]. split; [exact Hl|].
  unfold capture, capture_upto, Modules.object_after, Modules.loaded. rewrite Hl.
  cbn [modules_available_cv2 cv2_is_not_None negb orb].
  repeat rewrite log_event_emit. reflexivity.
Qed.

Lemma missing_opencv_is_final_witness :
  capture (con := plain_console)
          (Modules.object_after StartupScenarios.no_opencv
             (str "host") (str "aa-bb-cc-dd-ee-ff") (str "alice"))
          (Scenario.only 0 Scenario.working) initial
  = (Returns false,
     mkState [Log INFO StartingCapture; Log ERROR OpenCVNotAvailable;
              Log INFO InstallHint] None 0 0).
Proof.
  apply (@missing_opencv_is_final plain_console _ StartupScenarios.no_opencv
           (str "host") (str "aa-bb-cc-dd-ee-ff") (str "alice")
           (Scenario.only 0 Scenario.working)).
  - reflexivity.
  - right. exists Install.AllFailed. reflexivity.
Defined.

(** X20. After a successful installation the import is tried exactly once
    more.  If the first import raises [ImportError], [subprocess] is at
    hand and the installer reports success, then a second import that
    works loads OpenCV (and ends the loop, its success line being
    printed), and a second [ImportError] gives up: no third import and no
    second installation. *)
Theorem import_is_retried_once_after_installation (env : Modules.environment) :
  Modules.probe env 0 = Some Modules.ImportError ->
  Modules.subprocess_truthy env = true ->
  (exists msg, snd (Install.safe_install_module (Modules.installer env))
               = inr (true, msg)) ->
  (Modules.probe env 1 = None ->
   Modules.print_fails env Modules.Initialized = false ->
   Modules.initialize_cv2 env
   = Modules.mkOutcome
       [Modules.ImportCv2 0; Modules.InstallOpenCV; Modules.ImportCv2 1] true None)
  /\ (Modules.probe env 1 = Some Modules.ImportError ->
      Modules.initialize_cv2 env
      = Modules.mkOutcome
          [Modules.ImportCv2 0; Modules.InstallOpenCV; Modules.ImportCv2 1] false
          (if Modules.print_fails env Modules.NotAvailable
           then Some Modules.OtherError else None)).
Proof.
  intros H0 Hsub [msg Hinst].
  unfold Modules.initialize_cv2. cbn [seq Modules.for_attempt Nat.eqb andb].
  rewrite H0, Hsub, Hinst. split.
  - intros -> ->. reflexivity.
  - intros ->. reflexivity.
Qed.

Lemma import_is_retried_once_after_installation_witness :
  Modules.initialize_cv2 StartupScenarios.opencv_on_demand
  = Modules.mkOutcome
      [Modules.ImportCv2 0; Modules.InstallOpenCV; Modules.ImportCv2 1] true None.
Proof.
  apply (proj1 (@import_is_retried_once_after_installation
                  StartupScenarios.opencv_on_demand eq_refl eq_refl
                  (ex_intro _ Install.Installed eq_refl))).
  - reflexivity.
  - reflexivity.
Defined.

(** ** System information *)

Section SystemInfoFacts.

Import SystemInfo.

Lemma truthy_nonempty s : Filename.truthy s = true <-> s <> [].
Proof. destruct s; cbn; split; intros H; congruence. Qed.

Lemma replace_removes old new s : old <> new -> ~ In old (replace old new s).
Proof.
  intros Hne Hin. apply in_map_iff in Hin. destruct Hin as [x [Hx _]].
  destruct (Ascii.eqb x old) eqn:E; [congruence|].
  apply Ascii.eqb_neq in E. congruence.
Qed.

Lemma replace_keeps_out x old new s :
  x <> new -> ~ In x s -> ~ In x (replace old new s).
Proof.
  intros Hne Hs Hin. apply in_map_iff in Hin. destruct Hin as [y [Hy Hin]].
  destruct (Ascii.eqb y old); [congruence|]. rewrite Hy in Hin. contradiction.
Qed.

Lemma slice_to_nonempty n s : 0 < n -> s <> [] -> Filename.slice_to n s <> [].
Proof. destruct n, s; cbn; intros; (lia || congruence). Qed.

Lemma tidy_tidied s : Filename.truthy s = true -> tidied (tidy s).
Proof.
  intros Hs. apply truthy_nonempty in Hs. unfold tidied, tidy. split; [|split].
  - apply slice_to_nonempty; [lia|]. destruct s; [congruence | discriminate].
  - apply firstn_le_length.
  - intros Hin. apply slice_to_In in Hin. revert Hin.
    apply replace_keeps_out; [discriminate|].
    apply replace_removes. discriminate.
Qed.

Lemma tidy_spaces_tidied s : Filename.truthy s = true -> tidied (tidy_spaces s).
Proof.
  intros Hs. apply truthy_nonempty in Hs. unfold tidied, tidy_spaces. split; [|split].
  - apply slice_to_nonempty; [lia|]. destruct s; [congruence | discriminate].
  - apply firstn_le_length.
  - intros Hin. apply slice_to_In in Hin. revert Hin.
    apply replace_removes. discriminate.
Qed.

Lemma truthy_value_string a :
  truthy_value a = true -> Filename.truthy (string_of a) = true.
Proof. destruct a; [trivial | discriminate]. Qed.

Lemma unknown_host_tidied : tidied (str "unknown_host").
Proof.
  split; [discriminate|]. split; [cbn; lia|].
  cbn. intuition discriminate.
Qed.

Lemma unknown_user_tidied : tidied (str "unknown_user").
Proof.
  split; [discriminate|]. split; [cbn; lia|].
  cbn. intuition discriminate.
Qed.

Variable e : system.

Lemma get_hostname_tidied : tidied (get_hostname e).
Proof.
  unfold get_hostname, hostname_from_socket, hostname_from_file.
  destruct (gethostname e) as [h|].
  - destruct (Filename.truthy h) eqn:Hh; cbn [andb];
      [destruct (Filename.truthy (strip h)); [now apply tidy_tidied|]|];
      (destruct (truthy_value _) eqn:Hv;
       [apply tidy_spaces_tidied, truthy_value_string, Hv|]);
      (destruct (etc_hostname_exists e); [|apply unknown_host_tidied]);
      (destruct (read_etc_hostname e) as [c|]; [|apply unknown_host_tidied]);
      cbv zeta;
      (destruct (Filename.truthy (strip c)) eqn:Hc;
       [now apply tidy_spaces_tidied | apply unknown_host_tidied]).
  - destruct (truthy_value _) eqn:Hv;
      [apply tidy_spaces_tidied, truthy_value_string, Hv|].
    destruct (etc_hostname_exists e); [|apply unknown_host_tidied].
    destruct (read_etc_hostname e) as [c|]; [|apply unknown_host_tidied].
    cbv zeta.
    destruct (Filename.truthy (strip c)) eqn:Hc;
      [now apply tidy_spaces_tidied | apply unknown_host_tidied].
Qed.

Lemma get_username_tidied : tidied (get_username e).
Proof.
  assert (Hrest :
    tidied (if truthy_value
                 (or_else (or_else (environ e USERNAME) (environ e USER))
                          (environ e LOGNAME))
            then tidy_spaces
                   (string_of (or_else (or_else (environ e USERNAME) (environ e USER))
                                       (environ e LOGNAME)))
            else match username_from_whoami e with
                 | Some r => r
                 | None => str "unknown_user"
                 end)).
  { destruct (truthy_value _) eqn:Hv;
      [apply tidy_spaces_tidied, truthy_value_string, Hv|].
    unfold username_from_whoami.
    destruct (platform e); try apply unknown_user_tidied.
    destruct (subprocess_at_hand e); [|apply unknown_user_tidied].
    destruct (whoami e) as [[returncode stdout]|]; [|apply unknown_user_tidied].
    destruct (returncode =? 0); [|apply unknown_user_tidied].
    cbv zeta.
    destruct (Filename.truthy (after_last _ _)) eqn:Hu;
      [now apply tidy_spaces_tidied | apply unknown_user_tidied]. }
  unfold get_username, username_from_getpass.
  destruct (getuser e) as [u|]; [|exact Hrest].
  destruct (Filename.truthy u) eqn:Hu; cbn [andb]; [|exact Hrest].
  destruct (Filename.truthy (strip u)); [now apply tidy_tidied | exact Hrest].
Qed.

Lemma hostname_of_tidied : tidied (hostname_of e).
Proof.
  unfold hostname_of.
  destruct (socket_available e); [|apply get_hostname_tidied].
  destruct (self_gethostname e) as [h|]; [|apply get_hostname_tidied].
  cbv zeta. destruct (Filename.truthy (tidy h)) eqn:Ht; cbn [negb orb];
    [|apply get_hostname_tidied].
  destruct (str_eqb (strip (tidy h)) []); [apply get_hostname_tidied|].
  apply truthy_nonempty in Ht. unfold tidied. split; [exact Ht|].
  unfold tidy in *. split; [apply firstn_le_length|].
  intros Hin. apply slice_to_In in Hin. revert Hin.
  apply replace_keeps_out; [discriminate|]. apply replace_removes. discriminate.
Qed.

Lemma username_of_tidied : tidied (username_of e).
Proof.
  unfold username_of.
  destruct (getpass_available e); [|apply get_username_tidied].
  destruct (self_getuser e) as [u|]; [|apply get_username_tidied].
  cbv zeta. destruct (Filename.truthy (tidy u)) eqn:Ht; cbn [negb orb];
    [|apply get_username_tidied].
  destruct (str_eqb (strip (tidy u)) []); [apply get_username_tidied|].
  apply truthy_nonempty in Ht. unfold tidied. split; [exact Ht|].
  unfold tidy in *. split; [apply firstn_le_length|].
  intros Hin. apply slice_to_In in Hin. revert Hin.
  apply replace_keeps_out; [discriminate|]. apply replace_removes. discriminate.
Qed.

End SystemInfoFacts.

Section MacFacts.

Import SystemInfo.

Lemma str_eqb_eq a : forall b, str_eqb a b = true -> a = b.
Proof.
  induction a as [|x a IH]; intros [|y b] H; cbn in H; try discriminate; [reflexivity|].
  apply andb_true_iff in H. destruct H as [Hxy Hab].
  apply Ascii.eqb_eq in Hxy. rewrite Hxy, (IH b Hab). reflexivity.
Qed.

Lemma hex_aux_acc w : forall n acc, hex_aux w n acc = hex_aux w n [] ++ acc.
Proof.
  induction w as [|w IH]; intros n acc; cbn [hex_aux]; [reflexivity|].
  rewrite IH, (IH _ [_]), <- app_assoc. reflexivity.
Qed.

Lemma hex_aux_S w n :
  hex_aux (S w) n [] = hex_aux w (n / 16)%N [] ++ [hex_digit (n mod 16)%N].
Proof. cbn [hex_aux]. apply hex_aux_acc. Qed.

Lemma hex_aux_length w : forall n, length (hex_aux w n []) = w.
Proof.
  induction w as [|w IH]; intros n; [reflexivity|].
  rewrite hex_aux_S, length_app, IH. cbn. lia.
Qed.

Lemma hex_aux_split b : forall a n,
  exists m, hex_aux (a + b) n [] = hex_aux a m [] ++ hex_aux b n [].
Proof.
  induction b as [|b IH]; intros a n.
  - exists n. rewrite Nat.add_0_r. cbn [hex_aux]. now rewrite app_nil_r.
  - replace (a + S b) with (S (a + b)) by lia.
    rewrite !hex_aux_S. destruct (IH a (n / 16)%N) as [m ->].
    exists m. now rewrite app_assoc.
Qed.

Lemma hex_aux_last n : last_chars 12 (hex_aux 32 n []) = hex_aux 12 n [].
Proof.
  unfold last_chars. rewrite hex_aux_length.
  destruct (hex_aux_split 12 20 n) as [m Hm].
  change (20 + 12) with 32 in Hm. rewrite Hm.
  change (32 - 12) with 20.
  rewrite skipn_app, hex_aux_length, Nat.sub_diag.
  rewrite skipn_all2 by (rewrite hex_aux_length; lia). reflexivity.
Qed.

Lemma hex_digit_injective d1 d2 :
  (d1 < 16)%N -> (d2 < 16)%N -> hex_digit d1 = hex_digit d2 -> d1 = d2.
Proof.
  intros H1 H2 H. apply N2Nat.inj.
  assert (Ha : N.to_nat d1 < 16) by lia.
  assert (Hb : N.to_nat d2 < 16) by lia.
  unfold hex_digit in H. revert Ha Hb H.
  generalize (N.to_nat d1) (N.to_nat d2). intros a b Ha Hb H.
  do 16 (destruct a as [|a]; [do 16 (destruct b as [|b]; [first [reflexivity | discriminate H]|]); lia|]).
  lia.
Qed.

Lemma hex_aux_injective w : forall n m,
  hex_aux w n [] = hex_aux w m [] ->
  (n mod 16 ^ N.of_nat w = m mod 16 ^ N.of_nat w)%N.
Proof.
  induction w as [|w IH]; intros n m H.
  - cbn. now rewrite !N.mod_1_r.
  - rewrite !hex_aux_S in H. apply app_inj_tail in H. destruct H as [Hhigh Hlow].
    apply IH in Hhigh.
    apply hex_digit_injective in Hlow; try (apply N.mod_lt; discriminate).
    rewrite Nat2N.inj_succ, N.pow_succ_r'.
    rewrite !N.Div0.mod_mul_r. now rewrite Hhigh, Hlow.
Qed.

Lemma dashed_length l : length l = 12 -> length (dashed l) = 17.
Proof.
  intros H. do 13 (destruct l as [|? l]; try discriminate H). reflexivity.
Qed.

Lemma dashed_chars l x :
  length l = 12 -> In x (dashed l) -> In x l \/ x = "-"%char.
Proof.
  intros H. do 13 (destruct l as [|? l]; try discriminate H).
  cbn. intuition auto.
Qed.

Lemma dashed_injective l1 l2 :
  length l1 = 12 -> length l2 = 12 -> dashed l1 = dashed l2 -> l1 = l2.
Proof.
  intros H1 H2 H.
  do 13 (destruct l1 as [|? l1]; try discriminate H1).
  do 13 (destruct l2 as [|? l2]; try discriminate H2).
  cbn in H. injection H. intros. subst. reflexivity.
Qed.

Lemma hex_aux_chars w : forall n x,
  In x (hex_aux w n []) -> In x (str "0123456789abcdef").
Proof.
  induction w as [|w IH]; intros n x H; [destruct H|].
  rewrite hex_aux_S in H. apply in_app_iff in H. destruct H as [H | [<- | []]].
  - exact (IH _ _ H).
  - assert (Hd : N.to_nat (n mod 16)%N < 16).
    { pose proof (N.mod_lt n 16 ltac:(discriminate)). lia. }
    unfold hex_digit. revert Hd. generalize (N.to_nat (n mod 16)%N). intros d Hd.
    do 16 (destruct d as [|d]; [cbn; tauto|]). lia.
Qed.

Lemma hex_dash_plain x : In x (str "0123456789abcdef-") -> ~ In x Filename.invalid_chars.
Proof.
  cbn. intros H.
  repeat (destruct H as [<- | H]; [vm_compute; intuition discriminate|]).
  destruct H.
Qed.

(** The twelve digits of a node number that is written out are not all
    zero. *)
Lemma printed_not_zero n :
  printed n -> str_eqb (hex_aux 12 n []) (str "000000000000") = false.
Proof.
  intros [Hlt [Hnz _]].
  destruct (str_eqb (hex_aux 12 n []) (str "000000000000")) eqn:E; [|reflexivity].
  apply str_eqb_eq in E.
  change (str "000000000000") with (hex_aux 12 0 []) in E.
  apply hex_aux_injective in E.
  change (16 ^ N.of_nat 12)%N with (2 ^ 48)%N in E.
  rewrite N.mod_small in E by exact Hlt.
  rewrite N.Div0.mod_0_l in E. contradiction.
Qed.

Lemma mac_of_printed e n :
  uuid_available e = true -> self_getnode e = Some n -> printed n ->
  mac_of e = dashed (hex_aux 12 n []).
Proof.
  intros Hu Hn Hp. pose proof (printed_not_zero Hp) as Hz.
  destruct Hp as [Hlt [_ Hbit]].
  unfold mac_of, uuid_hex. rewrite Hu, Hn, Hbit. cbn [negb].
  assert (H128 : (n <? 2 ^ 128)%N = true).
  { apply N.ltb_lt. eapply N.lt_trans; [exact Hlt|]. reflexivity. }
  rewrite H128. cbv zeta. rewrite hex_aux_last, Hz. reflexivity.
Qed.

End MacFacts.

(** X21. The host name and the user name, from whichever lookup they
    come (the module, the environment variables, [/etc/hostname],
    [whoami], or the default), are not empty, have at most 50 characters
    and contain no space. *)
Theorem identity_strings_are_tidy (e : SystemInfo.system) :
  SystemInfo.tidied (SystemInfo.get_hostname e)
  /\ SystemInfo.tidied (SystemInfo.hostname_of e)
  /\ SystemInfo.tidied (SystemInfo.get_username e)
  /\ SystemInfo.tidied (SystemInfo.username_of e).
Proof.
  split; [apply get_hostname_tidied|].
  split; [apply hostname_of_tidied|].
  split; [apply get_username_tidied | apply username_of_tidied].
Qed.

(** X22. The MAC address of a node number that is written out.  With
    [uuid] loaded and a node number below [2 ** 48] that is not zero and
    has the multicast bit clear, [self.mac] is the twelve lower-case
    hexadecimal digits of the number in pairs joined by dashes: 17
    characters, never the default, none of them replaced by the sanitizer
    and all of them kept by the slice [[:20]] of the file name. *)
Theorem mac_address_format (e : SystemInfo.system) (n : N) :
  SystemInfo.uuid_available e = true ->
  SystemInfo.self_getnode e = Some n ->
  SystemInfo.printed n ->
  let mac := SystemInfo.mac_of e in
  mac = SystemInfo.dashed (SystemInfo.hex_aux 12 n [])
  /\ length mac = 17
  /\ Forall (fun x => In x (str "0123456789abcdef-")) mac
  /\ present mac (str "unknown-mac")
  /\ plain mac
  /\ Filename.slice_to 20 mac = mac.
Proof.
  intros Hu Hn Hp. cbv zeta. rewrite (mac_of_printed e Hu Hn Hp).
  pose proof (hex_aux_length 12 n) as Hlen.
  pose proof (dashed_length _ Hlen) as H17.
  assert (Hchars : Forall (fun x => In x (str "0123456789abcdef-"))
                          (SystemInfo.dashed (SystemInfo.hex_aux 12 n []))).
  { apply Forall_forall. intros x Hx.
    destruct (dashed_chars _ x Hlen Hx) as [Hd | ->].
    - apply hex_aux_chars in Hd.
      change (str "0123456789abcdef-") with (str "0123456789abcdef" ++ str "-").
      apply in_or_app. now left.
    - cbn. tauto. }
  split; [reflexivity|]. split; [exact H17|]. split; [exact Hchars|].
  split; [|split].
  - split.
    + apply truthy_nonempty. intros E. rewrite E in H17. discriminate H17.
    + destruct (str_eqb _ (str "unknown-mac")) eqn:E; [|reflexivity].
      apply str_eqb_eq in E. rewrite E in H17. discriminate H17.
  - unfold plain. eapply Forall_impl; [|exact Hchars].
    intros x. apply hex_dash_plain.
  - unfold Filename.slice_to. apply firstn_all2. lia.
Qed.

Lemma mac_address_format_witness :
  SystemInfo.mac_of MachineScenarios.workstation = str "aa-bb-cc-dd-ee-ff".
Proof.
  assert (Hp : SystemInfo.printed 187723572702975%N).
  { split; [reflexivity | split; [discriminate | reflexivity]]. }
  pose proof (@mac_address_format MachineScenarios.workstation
                187723572702975%N eq_refl eq_refl Hp) as H.
  cbv zeta in H. destruct H as [H _]. rewrite H. vm_compute. reflexivity.
Defined.

(** X23. Different interfaces get different names.  Two node numbers
    that are written out give the same [self.mac] only if they are the
    same number. *)
Theorem mac_address_identifies_node (e1 e2 : SystemInfo.system) (n1 n2 : N) :
  SystemInfo.uuid_available e1 = true -> SystemInfo.self_getnode e1 = Some n1 ->
  SystemInfo.printed n1 ->
  SystemInfo.uuid_available e2 = true -> SystemInfo.self_getnode e2 = Some n2 ->
  SystemInfo.printed n2 ->
  SystemInfo.mac_of e1 = SystemInfo.mac_of e2 -> n1 = n2.
Proof.
  intros Hu1 Hn1 Hp1 Hu2 Hn2 Hp2 H.
  rewrite (mac_of_printed e1 Hu1 Hn1 Hp1), (mac_of_printed e2 Hu2 Hn2 Hp2) in H.
  apply dashed_injective in H; try apply hex_aux_length.
  apply hex_aux_injective in H.
  change (16 ^ N.of_nat 12)%N with (2 ^ 48)%N in H.
  destruct Hp1 as [Hlt1 _], Hp2 as [Hlt2 _].
  now rewrite !N.mod_small in H.
Qed.

Lemma mac_address_identifies_node_witness :
  SystemInfo.mac_of MachineScenarios.workstation
  = SystemInfo.mac_of MachineScenarios.workstation
  /\ 187723572702975%N = 187723572702975%N.
Proof.
  split; [reflexivity|].
  apply (@mac_address_identifies_node
           MachineScenarios.workstation MachineScenarios.workstation
           187723572702975%N 187723572702975%N);
    try reflexivity;
    (split; [reflexivity | split; [discriminate | reflexivity]]).
Defined.

(** X24. A node number with the multicast bit set (as the random numbers
    of [uuid] have it) and the number zero are not written out.  When the
    lookup of the fallback returns such a number, [self.mac] is the
    default, and the address files of [/sys/class/net] are not
    consulted. *)
Theorem unusable_node_is_unknown (e : SystemInfo.system) (n : N) :
  SystemInfo.getnode e = Some n ->
  SystemInfo.uuid_available e = false \/ SystemInfo.self_getnode e = Some n ->
  SystemInfo.multicast_bit n = true \/ n = 0%N ->
  SystemInfo.mac_of e = str "unknown-mac"
  /\ SystemInfo.get_mac_address e = str "unknown-mac".
Proof.
  intros Hg Hself Hn.
  assert (Hfb : SystemInfo.get_mac_address e = str "unknown-mac").
  { unfold SystemInfo.get_mac_address, SystemInfo.mac_from_uuid. rewrite Hg.
    destruct Hn as [-> | ->]; reflexivity. }
  split; [|exact Hfb].
  unfold SystemInfo.mac_of.
  destruct Hself as [-> | ->]; [exact Hfb|].
  destruct (SystemInfo.uuid_available e); [|exact Hfb].
  destruct Hn as [-> | ->]; [exact Hfb|]. cbn. exact Hfb.
Qed.

Lemma unusable_node_is_unknown_witness :
  SystemInfo.mac_of MachineScenarios.random_node = str "unknown-mac".
Proof.
  apply (@unusable_node_is_unknown MachineScenarios.random_node
           188823084330751%N eq_refl (or_intror eq_refl) (or_introl eq_refl)).
Defined.

(** X25. From the system to the file name.  With [uuid] loaded, a node
    number that is written out, and a host name and a user name that were
    found (not the default) and contain none of the replaced characters,
    the file name is [hostname[:30]], the full MAC address, [username[:20]]
    and the timestamp, joined by underscores, with [.jpg]. *)
Theorem file_name_of_a_system (e : SystemInfo.system) (n : N) (c : Filename.clock) :
  wall_clock c ->
  SystemInfo.uuid_available e = true ->
  SystemInfo.self_getnode e = Some n ->
  SystemInfo.printed n ->
  plain (SystemInfo.hostname_of e) ->
  str_eqb (SystemInfo.hostname_of e) (str "unknown_host") = false ->
  plain (SystemInfo.username_of e) ->
  str_eqb (SystemInfo.username_of e) (str "unknown_user") = false ->
  Filename._generate_filename_safe
    (SystemInfo.hostname_of e) (SystemInfo.mac_of e) (SystemInfo.username_of e) c
  = Filename.slice_to 30 (SystemInfo.hostname_of e) ++ str "_"
    ++ SystemInfo.dashed (SystemInfo.hex_aux 12 n []) ++ str "_"
    ++ Filename.slice_to 20 (SystemInfo.username_of e) ++ str "_"
    ++ Filename.timestamp c ++ str ".jpg".
Proof.
  intros Hc Hu Hn Hp Hh Hh' Hus Hus'.
  pose proof (hostname_of_tidied e) as [Hhne _].
  pose proof (username_of_tidied e) as [Hune _].
  apply truthy_nonempty in Hhne. apply truthy_nonempty in Hune.
  pose proof (mac_of_printed e Hu Hn Hp) as Hmac.
  pose proof (hex_aux_length 12 n) as Hlen.
  pose proof (dashed_length _ Hlen) as H17.
  assert (Hmp : plain (SystemInfo.dashed (SystemInfo.hex_aux 12 n []))).
  { apply Forall_forall. intros x Hx. apply hex_dash_plain.
    destruct (dashed_chars _ x Hlen Hx) as [Hd | ->].
    - apply hex_aux_chars in Hd.
      change (str "0123456789abcdef-") with (str "0123456789abcdef" ++ str "-").
      apply in_or_app. now left.
    - cbn. tauto. }
  assert (Hmd : str_eqb (SystemInfo.dashed (SystemInfo.hex_aux 12 n []))
                        (str "unknown-mac") = false).
  { destruct (str_eqb _ (str "unknown-mac")) eqn:E; [|reflexivity].
    apply str_eqb_eq in E. rewrite E in H17. discriminate H17. }
  assert (Hmt : Filename.truthy (SystemInfo.dashed (SystemInfo.hex_aux 12 n [])) = true).
  { apply truthy_nonempty. intros E. rewrite E in H17. discriminate H17. }
  assert (E : Filename.components (SystemInfo.hostname_of e) (SystemInfo.mac_of e)
                                  (SystemInfo.username_of e) c
              = [Filename.slice_to 30 (SystemInfo.hostname_of e);
                 SystemInfo.dashed (SystemInfo.hex_aux 12 n []);
                 Filename.slice_to 20 (SystemInfo.username_of e);
                 Filename.timestamp c]).
  { unfold Filename.components. rewrite Hmac, Hhne, Hh', Hune, Hus', Hmt, Hmd.
    cbn [andb negb app]. unfold Filename.slice_to at 2.
    rewrite firstn_all2 by lia. reflexivity. }
  rewrite generated_plain; [| exact Hc |]; rewrite E; cbn [Filename.join].
  - repeat rewrite <- app_assoc. reflexivity.
  - repeat first
      [ apply plain_timestamp | apply plain_str_underscore | exact Hmp
      | apply plain_slice; assumption | apply plain_app ].
Qed.

Lemma file_name_of_a_system_witness :
  Filename._generate_filename_safe
    (SystemInfo.hostname_of MachineScenarios.workstation)
    (SystemInfo.mac_of MachineScenarios.workstation)
    (SystemInfo.username_of MachineScenarios.workstation) Scenario.noon
  = str "host_aa-bb-cc-dd-ee-ff_alice_20240101_120000_000.jpg".
Proof.
  rewrite (@file_name_of_a_system MachineScenarios.workstation
             187723572702975%N Scenario.noon).
  - vm_compute. reflexivity.
  - unfold wall_clock, Scenario.noon. cbn [Filename.year Filename.month Filename.day
      Filename.hour Filename.minute Filename.second Filename.microsecond].
    repeat split; apply Nat.ltb_lt; vm_compute; reflexivity.
  - reflexivity.
  - reflexivity.
  - split; [reflexivity | split; [discriminate | reflexivity]].
  - repeat constructor; vm_compute; intuition discriminate.
  - reflexivity.
  - repeat constructor; vm_compute; intuition discriminate.
  - reflexivity.
Defined.

Section InitFacts.

Variable m : Init.machine.

(** When the four steps and the closing line go through, the constructor
    returns the object with its identity. *)
Lemma init_completes : Init.completes m -> Init.__init__ m = Some (Init.identified m).
Proof.
  intros [H1 [H2 [H4 Hc]]]. unfold Init.__init__. now rewrite H1, H2, H4, Hc.
Qed.

(** The constructor raises only out of its [except Exception] clause. *)
Lemma init_raises :
  Init.__init__ m = None <->
  Init.print_fails m Init.PartialError = true /\ ~ Init.completes m.
Proof.
  unfold Init.__init__, Init.completes, Init.partial.
  destruct (Init._set_output_directory m);
    destruct (Init._initialize_modules_ultra_safe m);
    destruct (Init._initialize_logging_safe m);
    destruct (Init.print_fails m Init.Complete);
    destruct (Init.print_fails m Init.PartialError);
    split; try discriminate; try reflexivity;
    try (intros _; split; [reflexivity|]; intros [H1 [H2 [H3 H4]]]; discriminate);
    try (intros [H _]; discriminate H);
    intros [_ H]; elim H; repeat split.
Qed.

(** What the constructor returns: the object with its identity, or, when
    step 1 or step 2 raised, the object with the default strings. *)
Lemma init_returns self :
  Init.__init__ m = Some self ->
  (Init._set_output_directory m = false
   /\ Init._initialize_modules_ultra_safe m = false
   /\ self = Init.identified m)
  \/ (Init._set_output_directory m = true /\ self = Init.defaults false)
  \/ (Init._set_output_directory m = false
      /\ Init._initialize_modules_ultra_safe m = true
      /\ self = Init.defaults (Modules.loaded (Init.modules m))).
Proof.
  unfold Init.__init__, Init.partial.
  destruct (Init._set_output_directory m);
    destruct (Init._initialize_modules_ultra_safe m);
    destruct (Init._initialize_logging_safe m);
    destruct (Init.print_fails m Init.Complete);
    destruct (Init.print_fails m Init.PartialError);
    intros H; try discriminate H; injection H as <-; auto.
Qed.

End InitFacts.

(** X26. What the constructor leaves.  It raises exactly when one of its
    steps (or its closing line) raised and the [print] of its
    [except Exception] clause raises as well.  In the object it returns,
    the two attributes that [capture] tests hold the same value, and they
    are set only when the import, the test capture and its release of one
    of the three attempts all returned.  When steps 1 and 2 returned, the
    identity strings are those of the lookups of step 3, and the host name
    and the user name are not empty, have at most 50 characters and no
    space.  When step 1 or step 2 raised (as step 2 does when the import
    loop cannot print its lines), step 3 is not run and the identity
    strings are the defaults, while the attributes of OpenCV stay as
    step 2 left them. *)
Theorem constructed_object_is_consistent (m : Init.machine) :
  (Init.__init__ m = None <->
   Init.print_fails m Init.PartialError = true /\ ~ Init.completes m)
  /\ (Init.completes m -> Init.__init__ m = Some (Init.identified m))
  /\ (forall self,
        Init.__init__ m = Some self ->
        modules_available_cv2 self = cv2_is_not_None self
        /\ (modules_available_cv2 self = true ->
            exists attempt,
              attempt < 3 /\ Modules.probe (Init.modules m) attempt = None)
        /\ (Init._set_output_directory m = false ->
            Init._initialize_modules_ultra_safe m = false ->
            hostname self = SystemInfo.hostname_of (Init.system_found m)
            /\ mac self = SystemInfo.mac_of (Init.system_found m)
            /\ username self = SystemInfo.username_of (Init.system_found m)
            /\ SystemInfo.tidied (hostname self)
            /\ SystemInfo.tidied (username self))
        /\ (Init._set_output_directory m = true
            \/ Init._initialize_modules_ultra_safe m = true ->
            hostname self = str "unknown_host"
            /\ mac self = str "unknown-mac"
            /\ username self = str "unknown_user")
        /\ (Init._set_output_directory m = false ->
            modules_available_cv2 self = Modules.loaded (Init.modules m))).
Proof.
  split; [apply init_raises|]. split; [apply init_completes|].
  intros self Hself.
  assert (Hloaded : Modules.loaded (Init.modules m) = true ->
            exists attempt,
              attempt < 3 /\ Modules.probe (Init.modules m) attempt = None).
  { intros H. apply for_attempt_success in H.
    destruct H as [H | [a [Ha Hp]]]; [discriminate H|].
    exists a. apply in_seq in Ha. split; [lia | exact Hp]. }
  destruct (init_returns m Hself)
    as [[H1 [H2 ->]] | [[H1 ->] | [H1 [H2 ->]]]];
    cbn [Init.identified Init.defaults modules_available_cv2 cv2_is_not_None
         hostname mac username];
    (split; [reflexivity|]);
    (split; [first [exact Hloaded | discriminate]|]);
    (split; [intros H1' H2'; try congruence;
             repeat split; try apply hostname_of_tidied; apply username_of_tidied|]);
    (split; [intros [H | H]; try congruence; repeat split|]);
    intros H; try congruence; reflexivity.
Qed.

Lemma constructed_object_is_consistent_witness :
  Init.__init__ MachineScenarios.desk
  = Some (mkSelf true true (str "host") (str "aa-bb-cc-dd-ee-ff") (str "alice"))
  /\ Init.__init__ MachineScenarios.half_ascii_desk
     = Some (mkSelf true true (str "unknown_host") (str "unknown-mac")
                    (str "unknown_user"))
  /\ Init.__init__ MachineScenarios.ascii_desk = None.
Proof.
  split; [|split].
  - assert (H : Init.identified MachineScenarios.desk
                = mkSelf true true (str "host") (str "aa-bb-cc-dd-ee-ff")
                         (str "alice")) by (vm_compute; reflexivity).
    rewrite <- H.
    apply (proj1 (proj2 (constructed_object_is_consistent MachineScenarios.desk))).
    repeat split.
  - vm_compute. reflexivity.
  - apply (proj1 (constructed_object_is_consistent MachineScenarios.ascii_desk)).
    split; [reflexivity|]. intros [_ [H _]]. vm_compute in H. discriminate H.
Defined.


